(** * The Relation Symbol Table (RST) builder and its query engine

    A shallow embedding of three commands of [cmd/scip]: [parse] (the
    two-pass RST builder with its tree-sitter body extractor, and the naming
    of the files it writes), [cli] (the symbol key codec and the stateless
    symbol queries) and [tui] (the detail loader and the detail mode of the
    browser with its jump stack).  The builder is the one with body
    extraction and the [verbose] flag. *)

From Stdlib Require Import ZArith Lia Bool Ascii String.
From stdpp Require Import base option list strings gmap sorting.

Local Open Scope string_scope.
Local Open Scope Z_scope.
Local Open Scope list_scope.

(** ** Go's [strings] package, on byte strings

    A Go string is a sequence of bytes and so is a [string] of Rocq.  Indices
    are Go [int]s; [-1] is the "not found" result of [strings.LastIndex]. *)
Module Strings.

Definition len (s : string) : Z := Z.of_nat (String.length s).

(** [s[n:]] and [s[:n]] for [0 <= n <= len(s)] (the source only slices at
    offsets it has just computed from [s]; see [LastIndex_range]). *)
Fixpoint drop (n : nat) (s : string) : string :=
  match n, s with
  | O, _ => s
  | S n', String _ s' => drop n' s'
  | S _, EmptyString => EmptyString
  end.

Fixpoint take (n : nat) (s : string) : string :=
  match n, s with
  | O, _ => EmptyString
  | S n', String c s' => String c (take n' s')
  | S _, EmptyString => EmptyString
  end.

(** [s[lo:hi]]; Go panics unless [0 <= lo <= hi <= len(s)]. *)
Definition slice (s : string) (lo hi : Z) : option string :=
  if (0 <=? lo) && (lo <=? hi) && (hi <=? len s)
  then Some (take (Z.to_nat (hi - lo)) (drop (Z.to_nat lo) s))
  else None.

Fixpoint HasPrefix (s p : string) {struct p} : bool :=
  match p, s with
  | EmptyString, _ => true
  | String a p', String b s' => if Ascii.eqb a b then HasPrefix s' p' else false
  | String _ _, EmptyString => false
  end.

Definition HasSuffix (s suffix : string) : bool :=
  (String.length suffix <=? String.length s)%nat &&
  String.eqb (drop (String.length s - String.length suffix) s) suffix.

Definition TrimPrefix (s p : string) : string :=
  if HasPrefix s p then drop (String.length p) s else s.

Definition TrimSuffix (s suffix : string) : string :=
  if HasSuffix s suffix then take (String.length s - String.length suffix) s else s.

(** [strings.LastIndex(s, sep)]: the offset of the last occurrence of [sep]
    in [s], or [-1]. *)
Fixpoint LastIndex (s sep : string) : Z :=
  match s with
  | EmptyString => if String.eqb sep EmptyString then 0 else -1
  | String _ s' =>
      let k := LastIndex s' sep in
      if k =? -1 then (if HasPrefix s sep then 0 else -1) else k + 1
  end.

(** [strings.ReplaceAll(s, old, new)] for a one-byte [old], which is how every
    call of the source uses it. *)
Fixpoint ReplaceAll (s : string) (old : ascii) (new : string) : string :=
  match s with
  | EmptyString => EmptyString
  | String c s' =>
      if Ascii.eqb c old then new +:+ ReplaceAll s' old new
      else String c (ReplaceAll s' old new)
  end.

(** [strings.Contains(s, string(c))] for one byte. *)
Fixpoint ContainsByte (s : string) (c : ascii) : bool :=
  match s with
  | EmptyString => false
  | String d s' => Ascii.eqb d c || ContainsByte s' c
  end.

End Strings.

(** ** Symbol key codec ([cli], [tui]) *)

Definition extractSymbolName (scipSymbol : string) : string :=
  let lastTick := Strings.LastIndex scipSymbol "`" in
  if lastTick =? -1 then scipSymbol
  else
    let afterTick := Strings.drop (Z.to_nat (lastTick + 1)) scipSymbol in
    let afterTick := Strings.TrimPrefix afterTick "/" in
    let afterTick := Strings.TrimSuffix afterTick "#" in
    let afterTick := Strings.TrimSuffix afterTick "." in
    let afterTick := Strings.TrimSuffix afterTick "()" in
    afterTick.

Definition extractSymbolKey (scipSymbol : string) : string :=
  let lastTick := Strings.LastIndex scipSymbol "`" in
  if lastTick =? -1 then scipSymbol
  else Strings.take (Z.to_nat (lastTick + 1)) scipSymbol.

(** ** Run-time panics

    Go code that indexes or slices out of range panics.  Functions that can
    do so return a [result]. *)
Inductive Panic : Type :=
  | index_out_of_range
  | slice_bounds_out_of_range
  | interface_conversion.

Inductive result (A : Type) : Type :=
  | Ok (a : A)
  | Panicked (p : Panic).
Arguments Ok {A} a.
Arguments Panicked {A} p.

#[global] Instance result_ret : MRet result := fun _ a => Ok a.
#[global] Instance result_bind : MBind result := fun _ _ f m =>
  match m with
  | Ok a => f a
  | Panicked p => Panicked p
  end.

(** [for _, x := range l { st = f(st, x) }] where the body may panic. *)
Fixpoint foldlM {A B : Type} (f : A → B → result A) (a : A) (l : list B) : result A :=
  match l with
  | [] => Ok a
  | x :: l' => a' ← f a x; foldlM f a' l'
  end.

Definition ofSlice (o : option string) : result string :=
  match o with
  | Some s => Ok s
  | None => Panicked slice_bounds_out_of_range
  end.

(** ** Fixed-width integers *)
Definition int32 (z : Z) : Z := (z + 2 ^ 31) mod 2 ^ 32 - 2 ^ 31.
Definition uint32 (z : Z) : Z := z mod 2 ^ 32.

(** ** The input index ([bindings/go/scip]) *)
Module scip.

(** Modelled from the spec: the [SymbolInformation_Kind] enumeration, which
    is declared in the generated code of the bindings.  The enumerators are
    those the spec and the builder name; [OtherKind] stands for any other
    enumerator and carries the name its [String] method prints. *)
Inductive SymbolInformation_Kind : Type :=
  | SymbolInformation_UnspecifiedKind
  | SymbolInformation_Function
  | SymbolInformation_Method
  | SymbolInformation_Struct
  | SymbolInformation_Class
  | SymbolInformation_Interface
  | SymbolInformation_Constant
  | SymbolInformation_Field
  | SymbolInformation_TypeParameter
  | SymbolInformation_Constructor
  | SymbolInformation_Destructor
  | SymbolInformation_OtherKind (name : string).

Definition Kind_String (k : SymbolInformation_Kind) : string :=
  match k with
  | SymbolInformation_UnspecifiedKind => "UnspecifiedKind"
  | SymbolInformation_Function => "Function"
  | SymbolInformation_Method => "Method"
  | SymbolInformation_Struct => "Struct"
  | SymbolInformation_Class => "Class"
  | SymbolInformation_Interface => "Interface"
  | SymbolInformation_Constant => "Constant"
  | SymbolInformation_Field => "Field"
  | SymbolInformation_TypeParameter => "TypeParameter"
  | SymbolInformation_Constructor => "Constructor"
  | SymbolInformation_Destructor => "Destructor"
  | SymbolInformation_OtherKind name => name
  end.

Record Occurrence : Type := {
  o_Range : list Z;
  o_Symbol : string;
  o_SymbolRoles : Z;
  o_EnclosingRange : list Z;
}.

Record SymbolInformation : Type := {
  si_Symbol : string;
  si_Kind : SymbolInformation_Kind;
  si_DisplayName : string;
  si_Documentation : list string;
  (** [nil], or the [Text] of the signature document *)
  si_SignatureDocumentation : option string;
}.

Record Document : Type := {
  d_Language : string;
  d_RelativePath : string;
  d_Symbols : list SymbolInformation;
  d_Occurrences : list Occurrence;
}.

(** What the builder takes from the bindings: the local-symbol predicate and
    the two role masks it tests. *)
Class Bindings : Type := {
  IsLocalSymbol : string → bool;
  SymbolRole_Definition : Z;
  SymbolRole_ForwardDefinition : Z;
}.

End scip.
Export scip.

(** ** The RST data model ([cmd/scip/rst]) *)
Module rst.

Record Symbol : Type := {
  Symbol_ : string;
  Kind : string;
  Signature : string;
  Documentation : string;
  Line : Z;
  Code : string;
  DependenceOn : list string;
  ReferenceBy : list string;
}.

Record Metadata : Type := {
  Repo : string;
  Language : string;
}.

(** A document holds its symbols by reference.  While the table is built,
    [S] is a pointer ([ptr]) into the heap of symbol objects, which the symbol
    index shares; a table read back from its file holds the symbols
    themselves. *)
Record Document (S : Type) : Type := {
  RelativePath : string;
  Symbols : gmap string S;
}.
Arguments RelativePath {S} _.
Arguments Symbols {S} _.

Record RST (S : Type) : Type := {
  Metadata_ : Metadata;
  Documents : gmap string (Document S);
}.
Arguments Metadata_ {S} _.
Arguments Documents {S} _.

(** A pointer to a symbol object: its place on the heap. *)
Abbreviation ptr := nat.

Definition setKind (k : string) (s : Symbol) : Symbol :=
  {| Symbol_ := Symbol_ s; Kind := k; Signature := Signature s;
     Documentation := Documentation s; Line := Line s; Code := Code s;
     DependenceOn := DependenceOn s; ReferenceBy := ReferenceBy s |}.

Definition setLine (l : Z) (s : Symbol) : Symbol :=
  {| Symbol_ := Symbol_ s; Kind := Kind s; Signature := Signature s;
     Documentation := Documentation s; Line := l; Code := Code s;
     DependenceOn := DependenceOn s; ReferenceBy := ReferenceBy s |}.

Definition setCode (c : string) (s : Symbol) : Symbol :=
  {| Symbol_ := Symbol_ s; Kind := Kind s; Signature := Signature s;
     Documentation := Documentation s; Line := Line s; Code := c;
     DependenceOn := DependenceOn s; ReferenceBy := ReferenceBy s |}.

Definition setDependenceOn (d : list string) (s : Symbol) : Symbol :=
  {| Symbol_ := Symbol_ s; Kind := Kind s; Signature := Signature s;
     Documentation := Documentation s; Line := Line s; Code := Code s;
     DependenceOn := d; ReferenceBy := ReferenceBy s |}.

Definition setReferenceBy (r : list string) (s : Symbol) : Symbol :=
  {| Symbol_ := Symbol_ s; Kind := Kind s; Signature := Signature s;
     Documentation := Documentation s; Line := Line s; Code := Code s;
     DependenceOn := DependenceOn s; ReferenceBy := r |}.

(** What [proto.Marshal] then [proto.Unmarshal] leave of a table: every
    pointer replaced by the object it points to. *)
Definition deref (heap : list Symbol) (r : RST ptr) : RST Symbol :=
  {| Metadata_ := Metadata_ r;
     Documents :=
       (λ d, {| RelativePath := RelativePath d;
                Symbols := omap (λ p, heap !! p) (Symbols d) |}) <$> Documents r |}.

End rst.

(** ** The syntax-tree capability ([go-tree-sitter]) and the host *)
Module sitter.

(** A node of the parsed tree: its type name, the rows of its start and end
    points, its byte span, and its children in order. *)
#[warnings="-register-all"]
Inductive Node : Type :=
  | mkNode (type : string) (startRow endRow : Z) (startByte endByte : Z)
           (children : list Node).

Definition Type_ (n : Node) : string := let 'mkNode t _ _ _ _ _ := n in t.
Definition StartRow (n : Node) : Z := let 'mkNode _ r _ _ _ _ := n in r.
Definition EndRow (n : Node) : Z := let 'mkNode _ _ r _ _ _ := n in r.
Definition StartByte (n : Node) : Z := let 'mkNode _ _ _ b _ _ := n in b.
Definition EndByte (n : Node) : Z := let 'mkNode _ _ _ _ b _ := n in b.

End sitter.

(** The file system and the path functions of the host, and the parser run
    with the Go grammar ([None] is a failed read, or a [nil] root). *)
Class Host : Type := {
  ReadFile : string → option string;
  Parse : string → option sitter.Node;
  filepath_IsAbs : string → bool;
  filepath_Join : string → string → string;
}.

(** ** Body extractor ([parse]) *)

Definition codeBlockNodeTypes : gmap string (list string) :=
  list_to_map [
    ("go", ["function_declaration"; "method_declaration";
            "type_declaration"; "type_spec"]);
    ("typescript", ["function_declaration"; "function_expression"; "arrow_function";
                    "method_definition"; "generator_function";
                    "class_declaration"; "interface_declaration";
                    "type_alias_declaration"]);
    ("javascript", ["function_declaration"; "function_expression"; "arrow_function";
                    "method_definition"; "generator_function";
                    "class_declaration"]);
    ("python", ["function_definition"; "class_definition"]);
    ("rust", ["function_item"; "struct_item"; "enum_item"; "impl_item"; "trait_item"]);
    ("java", ["method_declaration"; "constructor_declaration";
              "class_declaration"; "interface_declaration"; "enum_declaration"]);
    ("c", ["function_definition"; "method_definition";
           "struct_specifier"; "enum_specifier"]);
    ("cpp", ["function_definition"; "method_definition";
             "struct_specifier"; "class_specifier"; "enum_specifier"])
  ].

(** [dfsWalk(node, fn)]: [fn] on the node, then the walk of each child in
    order.  The callback of the source assigns to a captured variable, so
    [fn] takes and returns the captured state. *)
Fixpoint dfsWalk {St : Type} (fn : sitter.Node → St → St) (node : sitter.Node) (st : St) : St :=
  let 'sitter.mkNode _ _ _ _ _ children := node in
  fold_left (λ st' child, dfsWalk fn child st') children (fn node st).

(** The node types of [lang], those of Go when [lang] has no entry. *)
Definition nodeTypesFor (lang : string) : list string :=
  match codeBlockNodeTypes !! lang with
  | Some nodeTypes => nodeTypes
  | None => default [] (codeBlockNodeTypes !! "go")
  end.

(** The test the callback makes on a visited node. *)
Definition matchesLine (nodeTypeSet : gset string) (targetLine : Z) (n : sitter.Node) : bool :=
  bool_decide (sitter.Type_ n ∈ nodeTypeSet) &&
  (let start := uint32 (sitter.StartRow n + 1) in
   let end_ := uint32 (sitter.EndRow n + 1) in
   (start <=? targetLine) && (targetLine <=? end_)).

Definition recordMatch (nodeTypeSet : gset string) (targetLine : Z)
    (n : sitter.Node) (codeNode : option sitter.Node) : option sitter.Node :=
  if matchesLine nodeTypeSet targetLine n then Some n else codeNode.

Section Extractor.
Context `{Host}.

Definition treeSitterExtractCode (sourceFile : string) (line : Z) (lang : string) : result string :=
  match ReadFile sourceFile with
  | None => Ok ""
  | Some sourceCode =>
      match Parse sourceCode with
      | None => Ok ""
      | Some root =>
          let nodeTypes := nodeTypesFor lang in
          let nodeTypeSet : gset string := list_to_set nodeTypes in
          let targetLine := uint32 line in
          let codeNode := dfsWalk (recordMatch nodeTypeSet targetLine) root None in
          match codeNode with
          | None => Ok ""
          | Some n =>
              ofSlice (Strings.slice sourceCode (sitter.StartByte n) (sitter.EndByte n))
          end
      end
  end.

End Extractor.

(** ** RST builder ([parse]) *)

Definition nl : string := String "010"%char EmptyString.

Definition kindPrefix (k : SymbolInformation_Kind) : string :=
  match k with
  | SymbolInformation_Function | SymbolInformation_Method => "func "
  | SymbolInformation_Struct => "type "
  | SymbolInformation_Class => "class "
  | SymbolInformation_Interface => "interface "
  | SymbolInformation_Constant => "const "
  | SymbolInformation_Field => ""
  | SymbolInformation_TypeParameter => ""
  | _ => ""
  end.

(** The loop of [buildSignature] over the documentation strings: the inner
    text of the first one fenced as a Go code block, if any. *)
Fixpoint firstCodeBlock (docs : list string) : option (result string) :=
  match docs with
  | [] => None
  | doc :: docs' =>
      if Strings.HasPrefix doc ("```go" +:+ nl) && Strings.HasSuffix doc (nl +:+ "```")
      then Some (ofSlice (Strings.slice doc 6 (Strings.len doc - 4)))
      else firstCodeBlock docs'
  end.

Definition buildSignature (sym : SymbolInformation) : result string :=
  match si_SignatureDocumentation sym with
  | Some (String c text) => Ok (String c text)
  | _ =>
      match firstCodeBlock (si_Documentation sym) with
      | Some content => content
      | None =>
          let prefix := kindPrefix (si_Kind sym) in
          let name := si_DisplayName sym in
          let name := if String.eqb name "" then extractSymbolName (si_Symbol sym) else name in
          Ok (prefix +:+ name)
      end
  end.

Definition isCodeExtractableKind (kind : string) : bool :=
  String.eqb kind "Function" || String.eqb kind "Method" || String.eqb kind "FUNC" ||
  String.eqb kind "Constructor" || String.eqb kind "Destructor".

(** An entry of the per-document occurrence index. *)
Record occInfo : Type := { line : Z; kind : string }.

(** [append] unless the linear scan finds the id already there. *)
Definition appendUnique (l : list string) (x : string) : list string :=
  if existsb (String.eqb x) l then l else l ++ [x].

Definition addDependenceOn (x : string) (s : rst.Symbol) : rst.Symbol :=
  rst.setDependenceOn (appendUnique (rst.DependenceOn s) x) s.

Definition addReferenceBy (x : string) (s : rst.Symbol) : rst.Symbol :=
  rst.setReferenceBy (appendUnique (rst.ReferenceBy s) x) s.

(** The variables of [buildRST] that its loops update: the documents of the
    table, the symbol index, and the heap of the symbol objects both point
    into. *)
Record builder : Type := {
  documents : gmap string (rst.Document rst.ptr);
  symbolIndex : gmap string rst.ptr;
  heap : list rst.Symbol;
}.

Definition emptyBuilder : builder :=
  {| documents := ∅; symbolIndex := ∅; heap := [] |}.

Section Builder.
Context `{Bindings} `{Host}.

Definition inferKindFromRoles (roles : Z) : string :=
  let isDefinition := Z.land roles SymbolRole_Definition >? 0 in
  let isForwardDefinition := Z.land roles SymbolRole_ForwardDefinition >? 0 in
  if isDefinition || isForwardDefinition then "FUNC" else "".

(** Body of the loop that fills [occIndex]. *)
Definition recordOccurrence (occIndex : gmap string occInfo) (occ : Occurrence)
    : gmap string occInfo :=
  match o_Range occ with
  | r0 :: _ =>
      if negb (String.eqb (o_Symbol occ) "") then
        match occIndex !! o_Symbol occ with
        | Some _ => occIndex
        | None =>
            <[o_Symbol occ := {| line := int32 (r0 + 1);
                                 kind := inferKindFromRoles (o_SymbolRoles occ) |}]> occIndex
        end
      else occIndex
  | [] => occIndex
  end.

Definition buildOccIndex (occs : list Occurrence) : gmap string occInfo :=
  foldl recordOccurrence ∅ occs.

(** The entry the index keeps for an occurrence it records. *)
Definition occInfoOf (occ : Occurrence) : occInfo :=
  {| line := int32 (hd 0 (o_Range occ) + 1);
     kind := inferKindFromRoles (o_SymbolRoles occ) |}.

(** "Set line number and kind from occurrence". *)
Definition attachOccurrence (occIndex : gmap string occInfo) (rstSym : rst.Symbol) : rst.Symbol :=
  match occIndex !! rst.Symbol_ rstSym with
  | Some info =>
      let rstSym := rst.setLine (line info) rstSym in
      if String.eqb (rst.Kind rstSym) "UnspecifiedKind" || String.eqb (rst.Kind rstSym) ""
      then rst.setKind (kind info) rstSym
      else rstSym
  | None => rstSym
  end.

(** The symbol object built for one declared symbol of [doc]. *)
Definition newSymbol (occIndex : gmap string occInfo) (doc : scip.Document)
    (projectRoot : string) (sym : SymbolInformation) : result rst.Symbol :=
  signature ← buildSignature sym;
  let rstSym :=
    {| rst.Symbol_ := si_Symbol sym; rst.Kind := Kind_String (si_Kind sym);
       rst.Signature := signature; rst.Documentation := ""; rst.Line := 0;
       rst.Code := ""; rst.DependenceOn := []; rst.ReferenceBy := [] |} in
  let rstSym := attachOccurrence occIndex rstSym in
  if negb (String.eqb projectRoot "") && (rst.Line rstSym >? 0) &&
     negb (String.eqb (d_RelativePath doc) "") && isCodeExtractableKind (rst.Kind rstSym)
  then
    let sourceFile :=
      if filepath_IsAbs (d_RelativePath doc) then d_RelativePath doc
      else filepath_Join projectRoot (d_RelativePath doc) in
    code ← treeSitterExtractCode sourceFile (rst.Line rstSym) (d_Language doc);
    Ok (if negb (String.eqb code "") then rst.setCode code rstSym else rstSym)
  else Ok rstSym.

(** Body of the loop over [doc.Symbols]: a new object on the heap, entered
    under its id in the symbols of the document and in the index. *)
Definition declareSymbol (occIndex : gmap string occInfo) (doc : scip.Document)
    (projectRoot : string) (st : gmap string rst.ptr * builder) (sym : SymbolInformation)
    : result (gmap string rst.ptr * builder) :=
  let '(rstDocSymbols, b) := st in
  if IsLocalSymbol (si_Symbol sym) then Ok st
  else
    rstSym ← newSymbol occIndex doc projectRoot sym;
    let p := length (heap b) in
    Ok (<[si_Symbol sym := p]> rstDocSymbols,
        {| documents := documents b;
           symbolIndex := <[si_Symbol sym := p]> (symbolIndex b);
           heap := heap b ++ [rstSym] |}).

(** Body of the first loop over [docs]. *)
Definition indexDocument (projectRoot : string) (b : builder) (doc : scip.Document)
    : result builder :=
  let occIndex := buildOccIndex (d_Occurrences doc) in
  st ← foldlM (declareSymbol occIndex doc projectRoot) (∅, b) (d_Symbols doc);
  let '(rstDocSymbols, b') := st in
  let rstDoc := {| rst.RelativePath := d_RelativePath doc; rst.Symbols := rstDocSymbols |} in
  Ok {| documents := <[d_RelativePath doc := rstDoc]> (documents b');
        symbolIndex := symbolIndex b';
        heap := heap b' |}.

(** The guards of the cross-reference loops on a pair of occurrences of one
    document: [occ] is not local and has an enclosing range of three entries
    or more, [otherOcc] names another symbol and starts on a row of that
    range. *)
Definition inScope (occ otherOcc : Occurrence) : bool :=
  negb (IsLocalSymbol (o_Symbol occ)) &&
  match o_EnclosingRange occ with
  | startLine :: _ :: endLine :: _ =>
      negb (String.eqb (o_Symbol otherOcc) (o_Symbol occ)) &&
      match o_Range otherOcc with
      | otherLine :: _ => (startLine <=? otherLine) && (otherLine <=? endLine)
      | [] => false
      end
  | _ => false
  end.

(** What the innermost loop does to the heap for a pair that passed the
    guards. *)
Definition linkSymbols (symbolIndex : gmap string rst.ptr) (occ otherOcc : Occurrence)
    (heap : list rst.Symbol) : list rst.Symbol :=
  let heap :=
    match symbolIndex !! o_Symbol occ with
    | Some p =>
        if negb (IsLocalSymbol (o_Symbol otherOcc))
        then alter (addDependenceOn (o_Symbol otherOcc)) p heap
        else heap
    | None => heap
    end in
  match symbolIndex !! o_Symbol otherOcc with
  | Some p => alter (addReferenceBy (o_Symbol occ)) p heap
  | None => heap
  end.

Definition crossReference (symbolIndex : gmap string rst.ptr) (occ : Occurrence)
    (heap : list rst.Symbol) (otherOcc : Occurrence) : list rst.Symbol :=
  if inScope occ otherOcc then linkSymbols symbolIndex occ otherOcc heap else heap.

(** Body of the second loop over [docs]. *)
Definition crossReferenceDocument (symbolIndex : gmap string rst.ptr)
    (heap : list rst.Symbol) (doc : scip.Document) : list rst.Symbol :=
  foldl (λ heap occ, foldl (crossReference symbolIndex occ) heap (d_Occurrences doc))
        heap (d_Occurrences doc).

(** The first pass: the documents, the index and the heap before any edge is
    added. *)
Definition indexDocuments (docs : list scip.Document) (projectRoot : string) : result builder :=
  foldlM (indexDocument projectRoot) emptyBuilder docs.

(** The state of the builder when [buildRST] returns. *)
Definition runBuilder (docs : list scip.Document) (projectRoot : string) : result builder :=
  b ← indexDocuments docs projectRoot;
  Ok {| documents := documents b;
        symbolIndex := symbolIndex b;
        heap := foldl (crossReferenceDocument (symbolIndex b)) (heap b) docs |}.

(** [buildRST(docs, repoID, projectRoot, verbose)]; [verbose] only prints.
    The table is returned with the heap its documents point into. *)
Definition buildRST (docs : list scip.Document) (repoID projectRoot : string)
    : result (rst.RST rst.ptr * list rst.Symbol) :=
  match docs with
  | [] => Panicked index_out_of_range
  | doc0 :: _ =>
      b ← runBuilder docs projectRoot;
      Ok ({| rst.Metadata_ := {| rst.Repo := repoID; rst.Language := d_Language doc0 |};
             rst.Documents := documents b |},
          heap b)
  end.

End Builder.

(** ** File naming: the writer ([parse]) and the readers ([cli], [tui]) *)

Definition sanitizeRepoID (repoID : string) : string :=
  let repoID := Strings.TrimPrefix repoID "https://" in
  let repoID := Strings.TrimPrefix repoID "http://" in
  let repoID := Strings.TrimPrefix repoID "git@" in
  let result := Strings.ReplaceAll repoID "/" "_" in
  let result := Strings.ReplaceAll result "." "_" in
  let result := Strings.ReplaceAll result ":" "_" in
  let result := Strings.ReplaceAll result "-" "_" in
  result.

(** [fmt.Sprintf("%s.%s.rst", sanitizedRepoID, lang)] in [parseMain]. *)
Definition outputFileName (repoID lang : string) : string :=
  sanitizeRepoID repoID +:+ "." +:+ lang +:+ ".rst".

(** "Group documents by language" in [parseMain]. *)
Definition groupByLanguage (docs : list scip.Document) : gmap string (list scip.Document) :=
  foldl (λ (langDocs : gmap string (list scip.Document)) (doc : scip.Document),
           let lang := d_Language doc in
           let lang := if String.eqb lang "" then "unknown" else lang in
           <[lang := (default [] (langDocs !! lang) ++ [doc])%list]> langDocs)
        ∅ docs.

Definition repoToRSTFile (repo : string) : string :=
  let name := repo in
  let name := Strings.ReplaceAll name "." "_" in
  let name := Strings.ReplaceAll name "/" "_" in
  name +:+ ".go.rst".

Section Readers.
Context `{Host}.


End Readers.

Section ParseMain.
Context `{Bindings} `{Host}.

(** Body of the loop "Process each language" of [parseMain], up to the write:
    the table of one language group and the name of its file. *)
Definition processLanguage (repoID projectRoot lang : string) (docs : list scip.Document)
    : result (string * (rst.RST rst.ptr * list rst.Symbol)) :=
  rstTable ← buildRST docs repoID projectRoot;
  Ok (outputFileName repoID lang, rstTable).

End ParseMain.

(** ** Stateless queries ([cli]) and the detail loader ([tui]) *)

(** The order in which a [for ... range] statement visits a map: some
    enumeration of its entries, chosen by the run time. *)
Class MapRange : Type := {
  mapRange : ∀ V : Type, gmap string V → list (string * V);
  mapRange_perm : ∀ (V : Type) (m : gmap string V), mapRange V m ≡ₚ map_to_list m;
}.
Arguments mapRange {_ V} m.

Record SymbolDetails : Type := {
  sd_Name : string;
  sd_Kind : string;
  sd_FilePath : string;
  sd_Line : Z;
  sd_Dependencies : list string;
  sd_References : list string;
}.

Inductive queryError : Type :=
  | file_not_found (filePath : string)
  | symbol_not_found (symbolName : string).

(** The test of [getSymbolDetails] on the extracted name of a key. *)
Definition cliNameMatches (baseName symbolName : string) : bool :=
  String.eqb baseName symbolName || Strings.HasSuffix baseName ("." +:+ symbolName).

(** The test of [loadSymbolDetail] on the extracted name of a key. *)
Definition tuiNameMatches (baseName symbolName : string) : bool :=
  String.eqb baseName symbolName || String.eqb baseName (symbolName +:+ "()").

Module tui.

Record symbolDetail : Type := {
  name : string;
  signature : string;
  filePath : string;
  line : Z;
  deps : list string;
  refs : list string;
  code : string;
  symbolKey : string;
}.

Inductive Msg : Type :=
  | WindowSizeMsg (Width Height : Z)
  | KeyMsg (key : string)
  | symbolDetailMsg (detail : symbolDetail)
  | errMsg (err : queryError).

End tui.

Section Queries.
Context `{MapRange}.

(** [getSymbolDetails] on the table [r] that it has read and unmarshalled
    from [rstPath]. *)
Definition getSymbolDetails (r : rst.RST rst.Symbol) (filePath symbolName : string)
    : queryError + SymbolDetails :=
  match rst.Documents r !! filePath with
  | None => inl (file_not_found filePath)
  | Some doc =>
      match find (λ e : string * rst.Symbol, cliNameMatches (extractSymbolName e.1) symbolName)
                 (mapRange (rst.Symbols doc)) with
      | Some (symKey, sym) =>
          inr {| sd_Name := extractSymbolName symKey;
                 sd_Kind := rst.Kind sym;
                 sd_FilePath := filePath;
                 sd_Line := 1;
                 sd_Dependencies := rst.DependenceOn sym;
                 sd_References := rst.ReferenceBy sym |}
      | None => inl (symbol_not_found symbolName)
      end
  end.

(** The inner loop of [loadSymbolDetail]: the first symbol of [doc], in range
    order, that matches the name and, when [line] is not 0, the line. *)
Definition findSymbol (doc : rst.Document rst.Symbol) (symbolName : string) (line : Z)
    : option (string * rst.Symbol) :=
  find (λ e : string * rst.Symbol,
          tuiNameMatches (extractSymbolName e.1) symbolName &&
          ((line =? 0) || (rst.Line e.2 =? line)))
       (mapRange (rst.Symbols doc)).

(** The outer loop: the first document, in range order, that is not skipped
    and holds such a symbol. *)
Fixpoint findDocument (docs : list (string * rst.Document rst.Symbol))
    (filePath symbolName : string) (line : Z) : option (string * rst.Symbol) :=
  match docs with
  | [] => None
  | (path, doc) :: docs' =>
      if negb (String.eqb filePath "") && negb (String.eqb path filePath)
      then findDocument docs' filePath symbolName line
      else
        match findSymbol doc symbolName line with
        | Some (_, foundSym) => Some (path, foundSym)
        | None => findDocument docs' filePath symbolName line
        end
  end.

(** The message of the command [loadSymbolDetail] returns, on the table [r]
    that it has read and unmarshalled. *)
Definition loadSymbolDetail (r : rst.RST rst.Symbol) (filePath symbolName : string) (line : Z)
    : tui.Msg :=
  match findDocument (mapRange (rst.Documents r)) filePath symbolName line with
  | None => tui.errMsg (symbol_not_found symbolName)
  | Some (foundPath, foundSym) =>
      tui.symbolDetailMsg
        {| tui.name := symbolName;
           tui.signature := rst.Signature foundSym;
           tui.filePath := foundPath;
           tui.line := rst.Line foundSym;
           tui.deps := rst.DependenceOn foundSym;
           tui.refs := rst.ReferenceBy foundSym;
           tui.code := rst.Code foundSym;
           tui.symbolKey := extractSymbolKey (rst.Symbol_ foundSym) |}
  end.

End Queries.

(** ** The browser's detail mode ([tui]) *)
Module browser.
Import tui.

Record symbolJump : Type := {
  j_name : string;
  j_signature : string;
  j_line : Z;
  j_filePath : string;
  j_deps : list string;
  j_refs : list string;
  j_code : string;
}.

(** The [list.Item]s of the source. *)
Inductive Item : Type :=
  | repoItem (name : string)
  | fileItem (name : string)
  | symbolItem (name signature : string) (line : Z)
  | refItem (name kind : string).

(** The widgets of the [bubbles] library, as far as the update function
    calls them. *)
Class Bubbles : Type := {
  list_Model : Type;
  list_Items : list_Model → list Item;
  list_SelectedItem : list_Model → option Item;
  list_SetItems : list Item → list_Model → list_Model;
  list_SetSize : Z → Z → list_Model → list_Model;
  list_Index : list_Model → Z;
  list_Height : list_Model → Z;
  list_Width : list_Model → Z;
  list_Select : Z → list_Model → list_Model;
  viewport_Model : Type;
  viewport_SetContent : string → viewport_Model → viewport_Model;
  viewport_SetWidth : Z → viewport_Model → viewport_Model;
  viewport_SetHeight : Z → viewport_Model → viewport_Model;
  viewport_LineDown : Z → viewport_Model → viewport_Model;
  viewport_LineUp : Z → viewport_Model → viewport_Model;
  viewport_GotoTop : viewport_Model → viewport_Model;
  viewport_GotoBottom : viewport_Model → viewport_Model;
}.

(** A [tea.Cmd] of detail mode: the closure [loadSymbolDetail] returns, kept
    as its arguments. *)
Inductive Cmd : Type :=
  | loadSymbolDetailCmd (rstPath repo filePath symbolName : string) (line : Z).

Definition modeThreePane : Z := 0.
Definition modeSymbol : Z := 1.

Definition makeDepsItems (deps : list string) : list Item :=
  map (λ dep, refItem (extractSymbolName dep) "dep") deps.

Definition makeRefsItems (refs : list string) : list Item :=
  map (λ ref, refItem (extractSymbolName ref) "ref") refs.

Section Update.
Context `{Bubbles}.

Record model : Type := {
  m_repos : list_Model;
  m_files : list_Model;
  m_symbols : list_Model;
  m_deps : list_Model;
  m_refs : list_Model;
  m_viewport : viewport_Model;
  m_mode : Z;
  m_active : Z;
  m_width : Z;
  m_height : Z;
  m_rstPath : string;
  m_symbol : option symbolDetail;
  m_symbolStack : list symbolJump;
}.

Definition set_size (w h : Z) (m : model) : model :=
  {| m_repos := m_repos m; m_files := m_files m; m_symbols := m_symbols m;
     m_deps := m_deps m; m_refs := m_refs m; m_viewport := m_viewport m;
     m_mode := m_mode m; m_active := m_active m; m_width := w; m_height := h;
     m_rstPath := m_rstPath m; m_symbol := m_symbol m;
     m_symbolStack := m_symbolStack m |}.

Definition set_viewport (v : viewport_Model) (m : model) : model :=
  {| m_repos := m_repos m; m_files := m_files m; m_symbols := m_symbols m;
     m_deps := m_deps m; m_refs := m_refs m; m_viewport := v;
     m_mode := m_mode m; m_active := m_active m; m_width := m_width m;
     m_height := m_height m; m_rstPath := m_rstPath m; m_symbol := m_symbol m;
     m_symbolStack := m_symbolStack m |}.

Definition set_deps (l : list_Model) (m : model) : model :=
  {| m_repos := m_repos m; m_files := m_files m; m_symbols := m_symbols m;
     m_deps := l; m_refs := m_refs m; m_viewport := m_viewport m;
     m_mode := m_mode m; m_active := m_active m; m_width := m_width m;
     m_height := m_height m; m_rstPath := m_rstPath m; m_symbol := m_symbol m;
     m_symbolStack := m_symbolStack m |}.

Definition set_refs (l : list_Model) (m : model) : model :=
  {| m_repos := m_repos m; m_files := m_files m; m_symbols := m_symbols m;
     m_deps := m_deps m; m_refs := l; m_viewport := m_viewport m;
     m_mode := m_mode m; m_active := m_active m; m_width := m_width m;
     m_height := m_height m; m_rstPath := m_rstPath m; m_symbol := m_symbol m;
     m_symbolStack := m_symbolStack m |}.

Definition set_mode (mode : Z) (m : model) : model :=
  {| m_repos := m_repos m; m_files := m_files m; m_symbols := m_symbols m;
     m_deps := m_deps m; m_refs := m_refs m; m_viewport := m_viewport m;
     m_mode := mode; m_active := m_active m; m_width := m_width m;
     m_height := m_height m; m_rstPath := m_rstPath m; m_symbol := m_symbol m;
     m_symbolStack := m_symbolStack m |}.

Definition set_active (active : Z) (m : model) : model :=
  {| m_repos := m_repos m; m_files := m_files m; m_symbols := m_symbols m;
     m_deps := m_deps m; m_refs := m_refs m; m_viewport := m_viewport m;
     m_mode := m_mode m; m_active := active; m_width := m_width m;
     m_height := m_height m; m_rstPath := m_rstPath m; m_symbol := m_symbol m;
     m_symbolStack := m_symbolStack m |}.

Definition set_symbol (s : option symbolDetail) (m : model) : model :=
  {| m_repos := m_repos m; m_files := m_files m; m_symbols := m_symbols m;
     m_deps := m_deps m; m_refs := m_refs m; m_viewport := m_viewport m;
     m_mode := m_mode m; m_active := m_active m; m_width := m_width m;
     m_height := m_height m; m_rstPath := m_rstPath m; m_symbol := s;
     m_symbolStack := m_symbolStack m |}.

Definition set_symbolStack (st : list symbolJump) (m : model) : model :=
  {| m_repos := m_repos m; m_files := m_files m; m_symbols := m_symbols m;
     m_deps := m_deps m; m_refs := m_refs m; m_viewport := m_viewport m;
     m_mode := m_mode m; m_active := m_active m; m_width := m_width m;
     m_height := m_height m; m_rstPath := m_rstPath m; m_symbol := m_symbol m;
     m_symbolStack := st |}.

(** The type assertions [.(repoItem)] and [.(refItem)] on a selected item;
    they panic on [nil] and on an item of another type. *)
Definition asRepoItem (i : option Item) : result string :=
  match i with
  | Some (repoItem name) => Ok name
  | _ => Panicked interface_conversion
  end.

Definition asRefItem (i : option Item) : result (string * string) :=
  match i with
  | Some (refItem name kind) => Ok (name, kind)
  | _ => Panicked interface_conversion
  end.

(** The detail as [jumpToSymbol] saves it. *)
Definition toJump (d : symbolDetail) : symbolJump :=
  {| j_name := name d; j_signature := signature d; j_line := line d;
     j_filePath := filePath d; j_deps := deps d; j_refs := refs d;
     j_code := code d |}.

(** The detail as the back action rebuilds it; [symbolKey] is left at its
    zero value. *)
Definition ofJump (prev : symbolJump) : symbolDetail :=
  {| name := j_name prev; signature := j_signature prev;
     filePath := j_filePath prev; line := j_line prev;
     deps := j_deps prev; refs := j_refs prev; code := j_code prev;
     symbolKey := "" |}.

Definition jumpToSymbol (m : model) (name : string) : result (model * option Cmd) :=
  let m :=
    match m_symbol m with
    | Some d => set_symbolStack (m_symbolStack m ++ [toJump d]) m
    | None => m
    end in
  repo ← asRepoItem (list_SelectedItem (m_repos m));
  Ok (m, Some (loadSymbolDetailCmd (m_rstPath m) repo "" name 0)).

Definition scrollList (m : model) (delta : Z) : model :=
  let scroll (l : list_Model) : list_Model :=
    if (Z.of_nat (length (list_Items l)) =? 0) then l
    else
      let currentIdx := list_Index l in
      let newIdx := currentIdx + delta in
      let newIdx :=
        if newIdx <? 0 then 0
        else if Z.of_nat (length (list_Items l)) <=? newIdx
             then Z.of_nat (length (list_Items l)) - 1
             else newIdx in
      let visibleHeight := list_Height l in
      let middlePos := visibleHeight ÷ 2 in
      let l :=
        if newIdx <=? middlePos then list_SetSize (list_Width l) visibleHeight l
        else if Z.of_nat (length (list_Items l)) - middlePos <=? newIdx
             then list_SetSize (list_Width l) visibleHeight l
             else l in
      list_Select newIdx l in
  if m_active m =? 1 then set_deps (scroll (m_deps m)) m
  else if m_active m =? 2 then set_refs (scroll (m_refs m)) m
  else m.

Definition updateSymbolMode (m : model) (msg : Msg) : result (model * option Cmd) :=
  match msg with
  | WindowSizeMsg Width Height =>
      let m := set_size Width Height m in
      let m := set_viewport
                 (viewport_SetHeight (Height - 8) (viewport_SetWidth Width (m_viewport m))) m in
      let m := set_deps (list_SetSize Width 6 (m_deps m)) m in
      let m := set_refs (list_SetSize Width 6 (m_refs m)) m in
      Ok (m, None)
  | KeyMsg key =>
      if String.eqb key "q" || String.eqb key "esc" then
        let m := set_mode modeThreePane m in
        let m := set_symbol None m in
        let m := set_symbolStack [] m in
        let m := set_active 2 m in
        Ok (m, None)
      else if String.eqb key "h" then
        match last (m_symbolStack m) with
        | Some prev =>
            let m := set_symbolStack (removelast (m_symbolStack m)) m in
            let m := set_symbol (Some (ofJump prev)) m in
            let m := set_viewport (viewport_SetContent (j_code prev) (m_viewport m)) m in
            let m := set_deps (list_SetItems (makeDepsItems (j_deps prev)) (m_deps m)) m in
            let m := set_refs (list_SetItems (makeRefsItems (j_refs prev)) (m_refs m)) m in
            Ok (m, None)
        | None =>
            let m := set_mode modeThreePane m in
            let m := set_symbol None m in
            let m := set_active 2 m in
            Ok (m, None)
        end
      else if String.eqb key "r" then Ok (set_active 1 m, None)
      else if String.eqb key "R" then Ok (set_active 2 m, None)
      else if String.eqb key "j" then
        if m_active m =? 0
        then Ok (set_viewport (viewport_LineDown 1 (m_viewport m)) m, None)
        else Ok (scrollList m 1, None)
      else if String.eqb key "k" then
        if m_active m =? 0
        then Ok (set_viewport (viewport_LineUp 1 (m_viewport m)) m, None)
        else Ok (scrollList m (-1), None)
      else if String.eqb key "gg" then
        Ok (set_viewport (viewport_GotoTop (m_viewport m)) m, None)
      else if String.eqb key "G" then
        Ok (set_viewport (viewport_GotoBottom (m_viewport m)) m, None)
      else if String.eqb key "l" || String.eqb key "enter" then
        if m_active m =? 1 then
          if (0 <? Z.of_nat (length (list_Items (m_deps m)))) then
            item ← asRefItem (list_SelectedItem (m_deps m));
            jumpToSymbol m item.1
          else Ok (m, None)
        else if m_active m =? 2 then
          if (0 <? Z.of_nat (length (list_Items (m_refs m)))) then
            item ← asRefItem (list_SelectedItem (m_refs m));
            jumpToSymbol m item.1
          else Ok (m, None)
        else Ok (m, None)
      else Ok (m, None)
  | _ => Ok (m, None)
  end.

End Update.

End browser.

(** * Vocabulary of the statements, and example inputs *)

(** ** File names *)


(** A replacement of one byte by one byte, read byte by byte. *)
Fixpoint map_bytes (f : ascii → ascii) (s : string) : string :=
  match s with
  | EmptyString => EmptyString
  | String c s' => String (f c) (map_bytes f s')
  end.

Definition subst_byte (old new : ascii) (c : ascii) : ascii :=
  if Ascii.eqb c old then new else c.

(** What the readers do to a byte of the repository id, and what the writer
    does. *)
Definition readerByte (c : ascii) : ascii :=
  subst_byte "/" "_" (subst_byte "." "_" c).

Definition writerByte (c : ascii) : ascii :=
  subst_byte "-" "_" (subst_byte ":" "_" (subst_byte "." "_" (subst_byte "/" "_" c))).

Definition stripSchemes (repoID : string) : string :=
  Strings.TrimPrefix (Strings.TrimPrefix (Strings.TrimPrefix repoID "https://") "http://") "git@".

(** ** Reading a syntax tree *)



(** ** Reading the occurrence index *)

(** Whether the loop that fills [occIndex] would record [occ] under [id] in an
    index that has no entry for [id] yet: it names [id], [id] is not empty and
    the occurrence has a row.  The role bits play no part. *)
Definition recordedUnder (id : string) (occ : Occurrence) : bool :=
  String.eqb (o_Symbol occ) id && negb (String.eqb id "") &&
  match o_Range occ with
  | [] => false
  | _ :: _ => true
  end.

(** ** Instances for the examples

    The role masks and the local-symbol prefix of scip's protocol, and a host
    without files. *)
Definition scipBindings : Bindings :=
  {| IsLocalSymbol := λ s, Strings.HasPrefix s "local ";
     SymbolRole_Definition := 1;
     SymbolRole_ForwardDefinition := 64 |}.

Definition noFiles : Host :=
  {| ReadFile := λ _, None;
     Parse := λ _, None;
     filepath_IsAbs := λ p, Strings.HasPrefix p "/";
     filepath_Join := λ dir name, dir +:+ "/" +:+ name |}.

(** ** Reading the heap and the input of the builder *)

(** [x] is in [dependence_on] (in [reference_by]) of the object at [p]. *)
Definition dependsOn (heap : list rst.Symbol) (p : rst.ptr) (x : string) : Prop :=
  ∃ sym, heap !! p = Some sym ∧ x ∈ rst.DependenceOn sym.

Definition referencedBy (heap : list rst.Symbol) (p : rst.ptr) (x : string) : Prop :=
  ∃ sym, heap !! p = Some sym ∧ x ∈ rst.ReferenceBy sym.

Section Reading.
Context `{Bindings}.

(** Some document of [docs] has an occurrence of [s] whose enclosing range
    holds the first row of an occurrence of [o]: the pairs the
    cross-reference pass acts on. *)
Definition scopeUse (docs : list scip.Document) (s o : string) : Prop :=
  ∃ doc occ otherOcc,
    doc ∈ docs ∧ occ ∈ d_Occurrences doc ∧ otherOcc ∈ d_Occurrences doc ∧
    inScope occ otherOcc = true ∧ o_Symbol occ = s ∧ o_Symbol otherOcc = o.

(** The pairs of one document that add [x] to [dependence_on] at [p], and
    those that add it to [reference_by]. *)
Definition addsDependence (symbolIndex : gmap string rst.ptr) (p : rst.ptr) (x : string)
    (occ otherOcc : Occurrence) : Prop :=
  inScope occ otherOcc = true ∧ symbolIndex !! o_Symbol occ = Some p ∧
  IsLocalSymbol (o_Symbol otherOcc) = false ∧ x = o_Symbol otherOcc.

Definition addsReference (symbolIndex : gmap string rst.ptr) (p : rst.ptr) (x : string)
    (occ otherOcc : Occurrence) : Prop :=
  inScope occ otherOcc = true ∧ symbolIndex !! o_Symbol otherOcc = Some p ∧
  x = o_Symbol occ.

(** The ids a document declares and the builder keeps. *)
Definition declaredIds (doc : scip.Document) : list string :=
  filter (λ id, IsLocalSymbol id = false) (si_Symbol <$> d_Symbols doc).

(** No id is declared by two documents of the list. *)
Fixpoint declaredApart (docs : list scip.Document) : bool :=
  match docs with
  | [] => true
  | doc :: docs' =>
      forallb (λ id, forallb (λ doc', negb (existsb (String.eqb id) (declaredIds doc'))) docs')
              (declaredIds doc) &&
      declaredApart docs'
  end.

End Reading.

Section ReadingDeclarations.
Context `{Bindings}.

(** [id] is declared by two documents of the list. *)
Definition redeclared (docs : list scip.Document) (id : string) : Prop :=
  ∃ l1 d1 l2 d2 l3,
    docs = l1 ++ d1 :: l2 ++ d2 :: l3 ∧ id ∈ declaredIds d1 ∧ id ∈ declaredIds d2.

(** The ids of a list of declarations that the builder keeps. *)
Definition keptIds (syms : list SymbolInformation) : list string :=
  filter (λ id, IsLocalSymbol id = false) (si_Symbol <$> syms).

(** What holds of the builder after its first loop has run over [seen]:
    the index points to objects that carry the id they are indexed under and
    have no edges yet, every indexed id is declared by a document of [seen],
    and a symbol entry of a document is the object the index holds for its
    id unless two documents of [seen] declare the id. *)
Definition firstPassInv (seen : list scip.Document) (b : builder) : Prop :=
  (∀ id p, symbolIndex b !! id = Some p →
     ∃ sym, heap b !! p = Some sym ∧ rst.Symbol_ sym = id ∧ IsLocalSymbol id = false) ∧
  (∀ p sym, heap b !! p = Some sym → rst.DependenceOn sym = [] ∧ rst.ReferenceBy sym = []) ∧
  (∀ id p, symbolIndex b !! id = Some p →
     ∃ l1 d1 l2, seen = l1 ++ d1 :: l2 ∧ id ∈ declaredIds d1) ∧
  (∀ path d id p, documents b !! path = Some d → rst.Symbols d !! id = Some p →
     is_Some (heap b !! p) ∧ (symbolIndex b !! id = Some p ∨ redeclared seen id)).

(** What holds inside the loop over the declarations of one document, which
    started from [b] and has run over [seen]. *)
Definition declareInv (b : builder) (seen : list SymbolInformation)
    (st : gmap string rst.ptr * builder) : Prop :=
  documents st.2 = documents b ∧
  (∀ p sym, heap b !! p = Some sym → heap st.2 !! p = Some sym) ∧
  (∀ id, id ∉ keptIds seen → symbolIndex st.2 !! id = symbolIndex b !! id) ∧
  (∀ id p, symbolIndex st.2 !! id = Some p →
     ∃ sym, heap st.2 !! p = Some sym ∧ rst.Symbol_ sym = id ∧ IsLocalSymbol id = false) ∧
  (∀ p sym, heap st.2 !! p = Some sym →
     rst.DependenceOn sym = [] ∧ rst.ReferenceBy sym = []) ∧
  (∀ id p, st.1 !! id = Some p → symbolIndex st.2 !! id = Some p).

End ReadingDeclarations.

(** ** The table as it is written, and its entries *)
Section Written.
Context `{Bindings} `{Host}.

(** The table [buildRST] returns, as [writeRST] marshals it. *)
Definition builtRST (docs : list scip.Document) (repoID projectRoot : string)
    : result (rst.RST rst.Symbol) :=
  t ← buildRST docs repoID projectRoot;
  Ok (rst.deref t.2 t.1).

End Written.

(** The symbol entry under [id] in the document [path]. *)
Definition entry (t : rst.RST rst.Symbol) (path id : string) : option rst.Symbol :=
  rst.Documents t !! path ≫= λ d, rst.Symbols d !! id.

(** ** Example inputs *)
Module Examples.

Definition idF : string := "scip-go gomod m v1 `m`/F().".
Definition idG : string := "scip-go gomod dep v1 `dep`/G().".
Definition idA : string := "scip-go gomod m v1 `m`/A().".
Definition idB : string := "scip-go gomod m v1 `m`/B().".

Definition declare (id name : string) : SymbolInformation :=
  {| si_Symbol := id; si_Kind := SymbolInformation_Function; si_DisplayName := name;
     si_Documentation := []; si_SignatureDocumentation := None |}.

(** A definition on row [row] whose enclosing range runs to row [endRow]. *)
Definition definition (id : string) (row endRow : Z) : Occurrence :=
  {| o_Range := [row; 5; 6]; o_Symbol := id; o_SymbolRoles := 1;
     o_EnclosingRange := [row; 0; endRow; 1] |}.

(** A use on row [row], without enclosing range. *)
Definition use (id : string) (row : Z) : Occurrence :=
  {| o_Range := [row; 2; 3]; o_Symbol := id; o_SymbolRoles := 0;
     o_EnclosingRange := [] |}.

(** [F] is declared and defined on rows 10 to 20 and uses [G] on row 15; [G]
    is declared nowhere in the group. *)
Definition docF : scip.Document :=
  {| d_Language := "go"; d_RelativePath := "a.go";
     d_Symbols := [declare idF "F"];
     d_Occurrences := [definition idF 10 20; use idG 15] |}.

(** [A] and [B] are declared in one document; [B] uses [A]. *)
Definition docMain : scip.Document :=
  {| d_Language := "go"; d_RelativePath := "main.go";
     d_Symbols := [declare idA "A"; declare idB "B"];
     d_Occurrences := [definition idA 1 5; definition idB 10 20; use idA 15] |}.

(** A document that declares [A] as well. *)
Definition docLib : scip.Document :=
  {| d_Language := "go"; d_RelativePath := "lib.go";
     d_Symbols := [declare idA "A"];
     d_Occurrences := [] |}.

End Examples.

(** ** The name matching contract of the spec *)

(** A candidate id matches a query when its extracted name is the query, or
    the query followed by "()", or ends with "." followed by the query. *)
Definition specNameMatches (candidate query : string) : bool :=
  let name := extractSymbolName candidate in
  String.eqb name query || String.eqb name (query +:+ "()") ||
  Strings.HasSuffix name ("." +:+ query).

(** ** Example tables and widgets *)
Module QueryExamples.

(** A run time that ranges over a map in the order of [map_to_list]. *)
Program Definition rangeInOrder : MapRange :=
  {| mapRange := λ V m, map_to_list m |}.
Next Obligation. done. Qed.

Definition symbolAt (id kind : string) (line : Z) (deps refs : list string) : rst.Symbol :=
  {| rst.Symbol_ := id; rst.Kind := kind; rst.Signature := ""; rst.Documentation := "";
     rst.Line := line; rst.Code := ""; rst.DependenceOn := deps; rst.ReferenceBy := refs |}.

(** A table with the one document [a.go], which holds the one symbol [s]. *)
Definition tableOf (s : rst.Symbol) : rst.RST rst.Symbol :=
  {| rst.Metadata_ := {| rst.Repo := "m"; rst.Language := "go" |};
     rst.Documents :=
       {[ "a.go" := {| rst.RelativePath := "a.go";
                       rst.Symbols := {[ rst.Symbol_ s := s ]} |} ]} |}.

(** An id without backticks, which the codec leaves as it is. *)
Definition idCall : string := "Foo()".
(** The id of the spec's example, a type nested in another. *)
Definition idNested : string := "scip-go gomod m v1 `m`/Outer.Inner#".
(** A function defined on line 42 that depends on [G]. *)
Definition idF : string := "scip-go gomod m v1 `m`/F().".
Definition idG : string := "scip-go gomod dep v1 `dep`/G().".
Definition symF : rst.Symbol := symbolAt idF "Function" 42 [idG] [].

End QueryExamples.

(** ** Example widgets and an example detail *)
Module BrowserExamples.
Import tui browser.

(** Widgets that keep their items and a cursor, and a content and an
    offset. *)
Definition plainWidgets : Bubbles :=
  {| list_Model := list Item * Z;
     list_Items := λ l, l.1;
     list_SelectedItem := λ l, l.1 !! Z.to_nat l.2;
     list_SetItems := λ items l, (items, 0);
     list_SetSize := λ _ _ l, l;
     list_Index := λ l, l.2;
     list_Height := λ _, 6;
     list_Width := λ _, 80;
     list_Select := λ i l, (l.1, i);
     viewport_Model := string * Z;
     viewport_SetContent := λ c v, (c, v.2);
     viewport_SetWidth := λ _ v, v;
     viewport_SetHeight := λ _ v, v;
     viewport_LineDown := λ n v, (v.1, v.2 + n);
     viewport_LineUp := λ n v, (v.1, Z.max 0 (v.2 - n));
     viewport_GotoTop := λ v, (v.1, 0);
     viewport_GotoBottom := λ v, v |}.

Definition idG : string := "scip-go gomod dep v1 `dep`/G().".

(** The detail of [F] as [loadSymbolDetail] builds it. *)
Definition detailF : symbolDetail :=
  {| name := "F"; signature := "func F"; filePath := "a.go"; line := 42;
     deps := [idG]; refs := []; code := "func F() { G() }";
     symbolKey := "scip-go gomod m v1 `" |}.

Definition listOf (items : list Item) : @list_Model plainWidgets := (items, 0).
Definition viewOf (content : string) : @viewport_Model plainWidgets := (content, 0).

(** The browser showing [detailF], with the dependencies list focused. *)
Definition showingF : @model plainWidgets :=
  {| m_repos := listOf [repoItem "m"]; m_files := listOf [fileItem "a.go"];
     m_symbols := listOf [symbolItem "F" "func F" 42];
     m_deps := listOf (makeDepsItems [idG]); m_refs := listOf [];
     m_viewport := viewOf "func F() { G() }";
     m_mode := modeSymbol; m_active := 1; m_width := 80; m_height := 24;
     m_rstPath := "/home/u/.rsts"; m_symbol := Some detailF; m_symbolStack := [] |}.

End BrowserExamples.

(** ** An example source file and its tree *)
Module ExtractorExamples.

(** Twenty bytes of source.  The tree has a function declaration on rows 2 to
    8 (lines 3 to 9) over the bytes 2 to 18, and inside it an arrow function
    on rows 4 to 6 (lines 5 to 7) over the bytes 6 to 12; both types are in
    the table of "typescript". *)
Definition source : string := "0123456789abcdefghij".

Definition closure : sitter.Node :=
  sitter.mkNode "arrow_function" 4 6 6 12 [].

Definition outer : sitter.Node :=
  sitter.mkNode "function_declaration" 2 8 2 18
    [sitter.mkNode "identifier" 2 2 4 5 []; closure;
     sitter.mkNode "return_statement" 7 7 13 17 []].

Definition tree : sitter.Node :=
  sitter.mkNode "program" 0 9 0 20 [outer].

Definition oneFile : Host :=
  {| ReadFile := λ path, if String.eqb path "/p/a.ts" then Some source else None;
     Parse := λ text, if String.eqb text source then Some tree else None;
     filepath_IsAbs := λ p, Strings.HasPrefix p "/";
     filepath_Join := λ dir name, dir +:+ "/" +:+ name |}.

End ExtractorExamples.

(** ** Further functions of the commands *)

(** [rstFileToRepoName] of the browser: the name it shows for a file of the
    index directory. *)
Definition rstFileToRepoName (fileName : string) : string :=
  let name := Strings.TrimSuffix fileName ".go.rst" in
  let name := Strings.ReplaceAll name "_" "." in
  name.

(** The trimming steps of [extractSymbolName] on the text after the last
    backtick. *)
Definition trimDescriptor (afterTick : string) : string :=
  Strings.TrimSuffix
    (Strings.TrimSuffix (Strings.TrimSuffix (Strings.TrimPrefix afterTick "/") "#") ".") "()".

(** [strings.SplitN(s, sep, n)] for a one-byte [sep] and [n >= 0]: at most
    [n] pieces, the last one the unsplit rest; no piece at all for [n = 0]. *)
Fixpoint cutByte (s : string) (sep : ascii) : option (string * string) :=
  match s with
  | EmptyString => None
  | String c s' =>
      if Ascii.eqb c sep then Some (EmptyString, s')
      else
        match cutByte s' sep with
        | Some (before, after) => Some (String c before, after)
        | None => None
        end
  end.

Fixpoint SplitN (s : string) (sep : ascii) (n : nat) : list string :=
  match n with
  | O => []
  | S n' =>
      match n' with
      | O => [s]
      | S _ =>
          match cutByte s sep with
          | Some (before, after) => before :: SplitN after sep n'
          | None => [s]
          end
      end
  end.

Section DetectRepoID.
Context `{Bindings}.

(** Body of the inner loop of [detectRepoID]: the third field of a symbol id
    that is not empty, not local and has three fields or more. *)
Definition moduleOf (symbol : string) : option string :=
  if String.eqb symbol "" || IsLocalSymbol symbol then None
  else
    match SplitN symbol " " 4 with
    | _ :: _ :: module :: _ => Some module
    | _ => None
    end.

Fixpoint detectInSymbols (syms : list SymbolInformation) : option string :=
  match syms with
  | [] => None
  | sym :: syms' =>
      match moduleOf (si_Symbol sym) with
      | Some module => Some module
      | None => detectInSymbols syms'
      end
  end.

Fixpoint detectInDocuments (docs : list scip.Document) : option string :=
  match docs with
  | [] => None
  | doc :: docs' =>
      match detectInSymbols (d_Symbols doc) with
      | Some module => Some module
      | None => detectInDocuments docs'
      end
  end.

Definition detectRepoID (docs : list scip.Document) : string :=
  default "" (detectInDocuments docs).

(** "Auto-detect repoID from SCIP index if not provided" in [parseMain]:
    the id the tables are built with, or the error. *)
Definition resolveRepoID (repoID : string) (docs : list scip.Document) : option string :=
  if String.eqb repoID "" then
    let repoID := detectRepoID docs in
    if String.eqb repoID "" then None else Some repoID
  else Some repoID.

End DetectRepoID.

(** [stripFilePrefix] of the [parse] command. *)
Definition stripFilePrefix (url : string) : string :=
  if Strings.HasPrefix url "file:///" then Strings.drop 7 url
  else if Strings.HasPrefix url "file://localhost/" then Strings.drop 16 url
  else if Strings.HasPrefix url "file://" then Strings.drop 7 url
  else if Strings.HasPrefix url "file:/" then Strings.drop 6 url
  else url.

(** The test of [buildSignature] on a documentation string, and a string
    that passes it with [body] inside. *)
Definition isGoFence (doc : string) : bool :=
  Strings.HasPrefix doc ("```go" +:+ nl) && Strings.HasSuffix doc (nl +:+ "```").

Definition goFence (body : string) : string :=
  "```go" +:+ nl +:+ body +:+ nl +:+ "```".

(** The fence with no line between its markers. *)
Definition emptyFence : string := "```go" +:+ nl +:+ "```".

(** The key [parseMain] files a document under. *)
Definition groupKey (doc : scip.Document) : string :=
  if String.eqb (d_Language doc) "" then "unknown" else d_Language doc.

(** The last document of a list that has the relative path [path]. *)
Definition lastWithPath (docs : list scip.Document) (path : string) : option scip.Document :=
  last (filter (λ doc, d_RelativePath doc = path) docs).

(** The lists of every object stay free of repetitions. *)
Definition edgeListsNoDup (h : list rst.Symbol) : Prop :=
  ∀ p sym, h !! p = Some sym →
           NoDup (rst.DependenceOn sym) ∧ NoDup (rst.ReferenceBy sym).

Section ReadingEntries.
Context `{Bindings}.

(** Every symbol entry of a document of the builder is filed under the path
    of its document and points to an object that carries the id of the
    entry. *)
Definition entriesKeyed (b : builder) : Prop :=
  ∀ path d id p,
    documents b !! path = Some d → rst.Symbols d !! id = Some p →
    rst.RelativePath d = path ∧
    ∃ sym, heap b !! p = Some sym ∧ rst.Symbol_ sym = id.

(** The documents of the builder after its first loop has run over [seen]:
    one per relative path of [seen], with the ids the last document of that
    path declares. *)
Definition documentsOf (seen : list scip.Document) (b : builder) : Prop :=
  ∀ path,
    match lastWithPath seen path with
    | Some doc =>
        ∃ d, documents b !! path = Some d ∧ rst.RelativePath d = path ∧
             ∀ id, is_Some (rst.Symbols d !! id) ↔ id ∈ declaredIds doc
    | None => documents b !! path = None
    end.

End ReadingEntries.

(** The fields of an object that the cross-reference pass leaves alone. *)
Definition sameFields (s s0 : rst.Symbol) : Prop :=
  rst.Symbol_ s = rst.Symbol_ s0 ∧ rst.Kind s = rst.Kind s0 ∧
  rst.Signature s = rst.Signature s0 ∧ rst.Documentation s = rst.Documentation s0 ∧
  rst.Line s = rst.Line s0 ∧ rst.Code s = rst.Code s0.

(** Every object of [h] is still in [h'], with those fields unchanged. *)
Definition fieldsKept (h h' : list rst.Symbol) : Prop :=
  ∀ p sym0, h !! p = Some sym0 → ∃ sym, h' !! p = Some sym ∧ sameFields sym sym0.

(** The last declaration of [id] in a list of declarations. *)
Definition lastDeclaring (syms : list SymbolInformation) (id : string)
    : option SymbolInformation :=
  last (filter (λ si, si_Symbol si = id) syms).

Section ReadingObjects.
Context `{Bindings} `{Host}.

(** [sym0] is the object the first pass builds for the last declaration of
    [id] in [doc]. *)
Definition madeFrom (projectRoot : string) (doc : scip.Document) (id : string)
    (sym0 : rst.Symbol) : Prop :=
  ∃ si, lastDeclaring (d_Symbols doc) id = Some si ∧
        newSymbol (buildOccIndex (d_Occurrences doc)) doc projectRoot si = Ok sym0.

(** Every symbol entry of the builder points to the object built for its id
    from the last document of its path. *)
Definition entriesMade (projectRoot : string) (seen : list scip.Document) (b : builder)
    : Prop :=
  ∀ path d id p,
    documents b !! path = Some d → rst.Symbols d !! id = Some p →
    ∃ doc sym0, lastWithPath seen path = Some doc ∧ madeFrom projectRoot doc id sym0 ∧
                heap b !! p = Some sym0.

End ReadingObjects.

(** A document for the file of [ExtractorExamples]: the arrow function is
    declared, and defined on row 4. *)
Module CodeExamples.

Definition idClosure : string := "scip-typescript npm m 1.0 `a.ts`/closure().".

Definition docTs : scip.Document :=
  {| d_Language := "typescript"; d_RelativePath := "a.ts";
     d_Symbols := [Examples.declare idClosure "closure"];
     d_Occurrences := [Examples.definition idClosure 4 6] |}.

End CodeExamples.

(** ** The listing query of [cli], and what the detail loader looks for *)

(** [SymbolInfo] of [cli]. *)
Record SymbolInfo : Type := {
  sy_Name : string;
  sy_Signature : string;
  sy_Line : Z;
}.

Definition symbolInfoOf (e : string * rst.Symbol) : SymbolInfo :=
  {| sy_Name := extractSymbolName e.1; sy_Signature := rst.Signature e.2;
     sy_Line := rst.Line e.2 |}.

Section Listing.
Context `{MapRange}.

(** [getSymbolsFromRST] on the table [r] that it has read and unmarshalled
    from [rstPath]. *)
Definition getSymbolsFromRST (r : rst.RST rst.Symbol) (filePath : string)
    : queryError + list SymbolInfo :=
  match rst.Documents r !! filePath with
  | None => inl (file_not_found filePath)
  | Some doc => inr (symbolInfoOf <$> mapRange (rst.Symbols doc))
  end.

End Listing.

(** The entry under [key] in the document [path] is one that
    [loadSymbolDetail] accepts for the arguments [filePath], [symbolName] and
    [line]. *)
Definition accepts (r : rst.RST rst.Symbol) (filePath symbolName : string) (line : Z)
    (path key : string) (sym : rst.Symbol) : Prop :=
  entry r path key = Some sym ∧ (filePath = "" ∨ path = filePath) ∧
  tuiNameMatches (extractSymbolName key) symbolName = true ∧
  (line = 0 ∨ rst.Line sym = line).

(** The detail [loadSymbolDetail] makes of a symbol found in [path]. *)
Definition detailOf (symbolName path : string) (sym : rst.Symbol) : tui.symbolDetail :=
  {| tui.name := symbolName; tui.signature := rst.Signature sym; tui.filePath := path;
     tui.line := rst.Line sym; tui.deps := rst.DependenceOn sym;
     tui.refs := rst.ReferenceBy sym; tui.code := rst.Code sym;
     tui.symbolKey := extractSymbolKey (rst.Symbol_ sym) |}.

(** The details [getSymbolDetails] makes of the entry under [symKey]. *)
Definition detailsOf (filePath symKey : string) (sym : rst.Symbol) : SymbolDetails :=
  {| sd_Name := extractSymbolName symKey; sd_Kind := rst.Kind sym; sd_FilePath := filePath;
     sd_Line := 1; sd_Dependencies := rst.DependenceOn sym;
     sd_References := rst.ReferenceBy sym |}.

(** ** The list loaders of the browser ([tui]) *)

(** [sort.Slice(items, less)]: the slice reordered; when [less] is a strict
    weak order on its items, none of them is less than one before it.  The
    order of items neither of which is less than the other is left to the
    library. *)
Class SortSlice : Type := {
  sortSlice : ∀ A : Type, (A → A → bool) → list A → list A;
  sortSlice_perm : ∀ (A : Type) (less : A → A → bool) (l : list A),
    sortSlice A less l ≡ₚ l;
  sortSlice_sorted : ∀ (A : Type) (less : A → A → bool) (l : list A),
    (∀ a b, a ∈ l → b ∈ l → less a b = true → less b a = false) →
    (∀ a b c, a ∈ l → b ∈ l → c ∈ l →
              less a c = true → less a b = true ∨ less b c = true) →
    StronglySorted (λ a b, less b a = false) (sortSlice A less l);
}.
Arguments sortSlice {_ A} less l.

(** The items the loaders make of the entries of the maps they range over. *)
Definition fileItemOf (e : string * rst.Document rst.Symbol) : browser.Item :=
  browser.fileItem e.1.

Definition symbolItemOf (e : string * rst.Symbol) : browser.Item :=
  browser.symbolItem (extractSymbolName e.1) (rst.Signature e.2) (rst.Line e.2).

(** The [less] functions of the two loaders.  They assert the type of the
    items they compare; every item of the slice they sort has it. *)
Definition lessByName (a b : browser.Item) : bool :=
  match a, b with
  | browser.fileItem x, browser.fileItem y => String.ltb x y
  | _, _ => false
  end.

Definition lessByLine (a b : browser.Item) : bool :=
  match a, b with
  | browser.symbolItem _ _ x, browser.symbolItem _ _ y => x <? y
  | _, _ => false
  end.

Section Loaders.
Context `{MapRange} `{SortSlice}.

(** The items of the message of [loadFiles], on the table [r] that it has
    read and unmarshalled. *)
Definition loadFiles (r : rst.RST rst.Symbol) : list browser.Item :=
  sortSlice lessByName (fileItemOf <$> mapRange (rst.Documents r)).

(** The items of the message of [loadSymbols], or its error. *)
Definition loadSymbols (r : rst.RST rst.Symbol) (filePath : string)
    : queryError + list browser.Item :=
  match rst.Documents r !! filePath with
  | None => inl (file_not_found filePath)
  | Some doc => inr (sortSlice lessByLine (symbolItemOf <$> mapRange (rst.Symbols doc)))
  end.

End Loaders.

(** A sort to run the loaders with: insertion into a sorted list, after the
    items that are not greater. *)
Module SortExamples.

Fixpoint insert {A : Type} (less : A → A → bool) (a : A) (l : list A) : list A :=
  match l with
  | [] => [a]
  | b :: l' => if less a b then a :: l else b :: insert less a l'
  end.

Definition insertionSort {A : Type} (less : A → A → bool) (l : list A) : list A :=
  foldr (insert less) [] l.

Program Definition sortByInsertion : SortSlice :=
  {| sortSlice := λ A less l, insertionSort less l |}.
Next Obligation.
  intros A less l.
  assert (∀ a l0, insert less a l0 ≡ₚ a :: l0) as Hins.
  { intros a l0. induction l0 as [|b l0 IH]; simpl; [done|].
    destruct (less a b); [done|]. rewrite IH. apply Permutation_swap. }
  induction l as [|a l IH]; simpl; [done|]. by rewrite Hins, IH.
Qed.
Next Obligation.
  intros A less l Hasym Hneg.
  assert (∀ a l0, insert less a l0 ≡ₚ a :: l0) as Hins.
  { intros a l0. induction l0 as [|b l0 IH]; simpl; [done|].
    destruct (less a b); [done|]. rewrite IH. apply Permutation_swap. }
  assert (∀ l0, insertionSort less l0 ≡ₚ l0) as Hperm.
  { intros l0. induction l0 as [|a l0 IH]; simpl; [done|]. by rewrite Hins, IH. }
  assert (∀ a l0, a ∈ l → (∀ b, b ∈ l0 → b ∈ l) →
                  StronglySorted (λ x y, less y x = false) l0 →
                  StronglySorted (λ x y, less y x = false) (insert less a l0)) as Hsorted.
  { intros a l0 Ha. induction l0 as [|b l0 IH]; intros Hl0 Hs; simpl.
    - by repeat constructor.
    - apply StronglySorted_inv in Hs as [Hs Hb].
      assert (b ∈ l) as Hbl by (apply Hl0; by left).
      assert (∀ y, y ∈ l0 → y ∈ l) as Hl0' by (intros y Hy; apply Hl0; by right).
      destruct (less a b) eqn:Hab.
      + constructor; [by constructor|]. constructor; [by apply Hasym|].
        rewrite Forall_forall in Hb |- *. intros y Hy.
        destruct (less y a) eqn:Hya; [|done].
        destruct (Hneg y b a) as [Hyb|Hba]; auto.
        * by rewrite (Hb y Hy) in Hyb.
        * rewrite (Hasym a b) in Hba by done. done.
      + constructor; [by apply IH|].
        rewrite Forall_forall in Hb |- *. intros y Hy.
        rewrite Hins in Hy. apply elem_of_cons in Hy as [->|Hy]; [done|by apply Hb]. }
  assert (∀ l0, (∀ b, b ∈ l0 → b ∈ l) →
                StronglySorted (λ x y, less y x = false) (insertionSort less l0)) as Hall.
  { induction l0 as [|a l0 IH]; intros Hl0; simpl; [constructor|].
    apply Hsorted.
    - apply Hl0. by left.
    - intros b Hb. rewrite Hperm in Hb. apply Hl0. by right.
    - apply IH. intros b Hb. apply Hl0. by right. }
  by apply Hall.
Qed.

End SortExamples.

Section ReadingBuilds.
Context `{Bindings} `{Host}.

(** An object can be built for every declaration of a non-local id. *)
Definition declarationsBuilt (docs : list scip.Document) (projectRoot : string) : Prop :=
  ∀ doc si, doc ∈ docs → si ∈ d_Symbols doc → IsLocalSymbol (si_Symbol si) = false →
    ∃ s, newSymbol (buildOccIndex (d_Occurrences doc)) doc projectRoot si = Ok s.

(** [buildSignature] returns for every declaration of a non-local id. *)
Definition signaturesBuilt (docs : list scip.Document) : Prop :=
  ∀ doc si, doc ∈ docs → si ∈ d_Symbols doc → IsLocalSymbol (si_Symbol si) = false →
    ∃ signature, buildSignature si = Ok signature.

End ReadingBuilds.

Section ReadingOverwrites.
Context `{Bindings}.

(** A document that comes after every document of [path] declares [id]: the
    index then no longer holds the object that the document of [path] built
    for [id]. *)
Definition declaredAfter (docs : list scip.Document) (path id : string) : bool :=
  foldl (λ (later : bool) (doc : scip.Document),
           if String.eqb (d_RelativePath doc) path then false
           else later || existsb (String.eqb id) (declaredIds doc))
        false docs.

(** Every symbol entry of the builder is the object the index holds for its
    id, unless a later document of another path has declared the id again. *)
Definition entriesCurrent (seen : list scip.Document) (b : builder) : Prop :=
  ∀ path d id p,
    documents b !! path = Some d → rst.Symbols d !! id = Some p →
    symbolIndex b !! id = Some p ∨ declaredAfter seen path id = true.

End ReadingOverwrites.

(** ** The selection rule of the extractor, in the words of its contract *)





(** Two function expressions passed to one call: the first ends on the row
    on which the second starts. *)
Module SiblingExamples.

Definition source : string :=
  "f(function () {" +:+ nl +:+ "}, function () {" +:+ nl +:+ "  g();" +:+ nl +:+
  "  h();" +:+ nl +:+ "});".

(** Rows 0 to 1, the bytes 2 to 17. *)
Definition first : sitter.Node :=
  sitter.mkNode "function_expression" 0 1 2 17 [].

(** Rows 1 to 4, the bytes 19 to 48. *)
Definition second : sitter.Node :=
  sitter.mkNode "function_expression" 1 4 19 48 [].

Definition tree : sitter.Node :=
  sitter.mkNode "program" 0 4 0 50
    [sitter.mkNode "expression_statement" 0 4 0 50
       [sitter.mkNode "call_expression" 0 4 0 49
          [sitter.mkNode "identifier" 0 0 0 1 [];
           sitter.mkNode "arguments" 0 4 1 49 [first; second]]]].

Definition oneFile : Host :=
  {| ReadFile := λ path, if String.eqb path "/p/s.js" then Some source else None;
     Parse := λ text, if String.eqb text source then Some tree else None;
     filepath_IsAbs := λ p, Strings.HasPrefix p "/";
     filepath_Join := λ dir name, dir +:+ "/" +:+ name |}.

End SiblingExamples.

(** ** Paths in the output directory *)

(** A file name as the readers and, for a language tag without a path
    separator, the writer make it: one path element that ends in ".rst". *)
Definition plainName (name : string) : bool :=
  negb (Strings.ContainsByte name "/") && Strings.HasSuffix name ".rst".

Section ReadingPaths.
Context `{Host}.

(** [filepath.Join] gives different paths for different plain names of one
    directory. *)
Definition keepsPlainNames (dir : string) : Prop :=
  ∀ n1 n2, plainName n1 = true → plainName n2 = true →
           filepath_Join dir n1 = filepath_Join dir n2 → n1 = n2.

End ReadingPaths.

(** A host whose [filepath.Join] cleans the joined path as the library
    documents it for slash-separated paths: empty and "." elements are
    dropped, and ".." drops the element before it. *)
Module PathExamples.








End PathExamples.

(** * Properties *)

(** ** Byte strings *)
Module StringFacts.
Import Strings.

Lemma String_app_cons (c : ascii) (s t : string) : String c s +:+ t = String c (s +:+ t).
Proof. reflexivity. Qed.

Lemma String_app_nil (t : string) : "" +:+ t = t.
Proof. reflexivity. Qed.

Ltac str_simpl := rewrite ?String_app_cons, ?String_app_nil; simpl.

Lemma app_empty_r (s : string) : s +:+ "" = s.
Proof. induction s as [|c s IH]; str_simpl; [done|]. by f_equal. Qed.

Lemma app_assoc (s t u : string) : (s +:+ t) +:+ u = s +:+ (t +:+ u).
Proof. induction s as [|c s IH]; str_simpl; [done|]. by f_equal. Qed.

Lemma length_app (s t : string) :
  String.length (s +:+ t) = (String.length s + String.length t)%nat.
Proof. induction s as [|c s IH]; str_simpl; [done|]. by f_equal. Qed.

Lemma drop_app_length (s t : string) : drop (String.length s) (s +:+ t) = t.
Proof. induction s as [|c s IH]; str_simpl; [by destruct t|done]. Qed.

Lemma take_app_length (s t : string) : take (String.length s) (s +:+ t) = s.
Proof. induction s as [|c s IH]; str_simpl; [by destruct t|]. by f_equal. Qed.

Lemma take_drop (n : nat) (s : string) : take n s +:+ drop n s = s.
Proof.
  revert s. induction n as [|n IH]; intros [|c s]; simpl; try done.
  rewrite String_app_cons. f_equal. apply IH.
Qed.

Lemma length_take (n : nat) (s : string) :
  (n ≤ String.length s)%nat → String.length (take n s) = n.
Proof.
  revert s. induction n as [|n IH]; intros [|c s] Hn; simpl in *; try done; try lia.
  rewrite IH; lia.
Qed.

Lemma HasPrefix_app (p t : string) : HasPrefix (p +:+ t) p = true.
Proof. induction p as [|c p IH]; str_simpl; [done|]. by rewrite Ascii.eqb_refl. Qed.

Lemma HasPrefix_inv (s p : string) : HasPrefix s p = true → s = p +:+ drop (String.length p) s.
Proof.
  revert s. induction p as [|c p IH]; intros s Hp; simpl in *; [by destruct s|].
  destruct s as [|d s]; [done|].
  destruct (Ascii.eqb_spec c d) as [->|]; [|done].
  simpl. rewrite String_app_cons. f_equal. by apply IH.
Qed.

Lemma HasSuffix_app (s suffix : string) : HasSuffix (s +:+ suffix) suffix = true.
Proof.
  unfold HasSuffix. rewrite length_app.
  replace (String.length s + String.length suffix - String.length suffix)%nat
    with (String.length s) by lia.
  rewrite drop_app_length, String.eqb_refl, andb_true_r.
  apply Nat.leb_le. lia.
Qed.

Lemma HasSuffix_inv (s suffix : string) :
  HasSuffix s suffix = true →
  s = take (String.length s - String.length suffix) s +:+ suffix.
Proof.
  unfold HasSuffix. intros [_ Heq%String.eqb_eq]%andb_true_iff.
  set (n := (String.length s - String.length suffix)%nat) in *.
  rewrite <- Heq. by rewrite take_drop.
Qed.

Lemma TrimSuffix_app (s suffix : string) : TrimSuffix (s +:+ suffix) suffix = s.
Proof.
  unfold TrimSuffix. rewrite HasSuffix_app, length_app.
  replace (String.length s + String.length suffix - String.length suffix)%nat
    with (String.length s) by lia.
  apply take_app_length.
Qed.

Lemma TrimPrefix_app (p s : string) : TrimPrefix (p +:+ s) p = s.
Proof. unfold TrimPrefix. by rewrite HasPrefix_app, drop_app_length. Qed.

Lemma LastIndex_lower (s sep : string) : -1 ≤ LastIndex s sep.
Proof.
  induction s as [|c s IH]; simpl.
  - destruct (String.eqb sep ""); lia.
  - destruct (LastIndex s sep =? -1) eqn:E.
    + destruct (HasPrefix (String c s) sep); lia.
    + apply Z.eqb_neq in E. lia.
Qed.

(** A found offset leaves room for the separator: [s[lastTick+1:]] never
    slices out of range when the separator is one byte. *)
Lemma LastIndex_range (s : string) (c : ascii) :
  LastIndex s (String c "") ≠ -1 → 0 ≤ LastIndex s (String c "") < len s.
Proof.
  unfold len. induction s as [|d s IH]; simpl; [done|].
  destruct (LastIndex s (String c "") =? -1) eqn:E.
  - destruct (Ascii.eqb c d); [lia|done].
  - apply Z.eqb_neq in E. specialize (IH E). lia.
Qed.

Lemma LastIndex_none (s : string) (c : ascii) :
  LastIndex s (String c "") = -1 ↔ ContainsByte s c = false.
Proof.
  induction s as [|d s IH]; simpl; [done|].
  pose proof (LastIndex_lower s (String c "")) as Hl.
  destruct (LastIndex s (String c "") =? -1) eqn:E.
  - apply Z.eqb_eq in E. rewrite (proj1 IH E), orb_false_r.
    rewrite (Ascii.eqb_sym d c). destruct (Ascii.eqb c d); split; (done || lia).
  - apply Z.eqb_neq in E.
    destruct (ContainsByte s c) eqn:Ec.
    + rewrite orb_true_r. split; [lia|done].
    + exfalso. apply E, IH. done.
Qed.

Lemma LastIndex_app (pre post : string) (c : ascii) :
  ContainsByte post c = false →
  LastIndex (pre +:+ String c post) (String c "") = len pre.
Proof.
  intros Hpost%LastIndex_none. unfold len.
  induction pre as [|d pre IH]; str_simpl.
  - rewrite Hpost. simpl. by rewrite Ascii.eqb_refl.
  - rewrite IH. destruct (Z.of_nat (String.length pre) =? -1) eqn:E; [|lia].
    apply Z.eqb_eq in E. lia.
Qed.

Lemma length_ReplaceAll (s : string) (old new : ascii) :
  String.length (ReplaceAll s old (String new "")) = String.length s.
Proof.
  induction s as [|c s IH]; simpl; [done|].
  destruct (Ascii.eqb c old); str_simpl; by rewrite IH.
Qed.

Lemma ReplaceAll_app (s t : string) (old : ascii) (new : string) :
  ReplaceAll (s +:+ t) old new = ReplaceAll s old new +:+ ReplaceAll t old new.
Proof.
  induction s as [|c s IH]; str_simpl; [done|].
  destruct (Ascii.eqb c old); rewrite IH; [|done].
  by rewrite app_assoc.
Qed.

End StringFacts.

(** ** Symbol key codec *)
Section Codec.
Import Strings StringFacts.

Lemma extractSymbolName_after_tick (pre post : string) :
  ContainsByte post "`" = false →
  extractSymbolName (pre +:+ String "`" post) =
    TrimSuffix (TrimSuffix (TrimSuffix (TrimPrefix post "/") "#") ".") "()".
Proof.
  intros Hpost. unfold extractSymbolName.
  rewrite (LastIndex_app pre post "`" Hpost). unfold len.
  destruct (Z.of_nat (String.length pre) =? -1) eqn:E; [apply Z.eqb_eq in E; lia|].
  replace (Z.to_nat (Z.of_nat (String.length pre) + 1))
    with (String.length (pre +:+ "`")) by (rewrite length_app; simpl; lia).
  replace (pre +:+ String "`" post) with ((pre +:+ "`") +:+ post)
    by (by rewrite app_assoc).
  by rewrite drop_app_length.
Qed.

(** C7.  [extractSymbolName] returns an id without a backtick unchanged.  Of
    an id [pre ++ "`" ++ post] whose [post] holds no backtick, so that the
    backtick shown is the last one, it returns [post] with a leading "/"
    removed and then a trailing "#", a trailing "." and a trailing "()"
    removed, each once and in that order.  Whatever precedes the last
    backtick, post-backtick text "Foo()" gives "Foo" and "Outer.Inner#"
    gives "Outer.Inner". *)
Theorem extractSymbolName_spec :
  (∀ id : string, ContainsByte id "`" = false → extractSymbolName id = id) ∧
  (∀ pre post : string,
     ContainsByte post "`" = false →
     extractSymbolName (pre +:+ "`" +:+ post) =
       TrimSuffix (TrimSuffix (TrimSuffix (TrimPrefix post "/") "#") ".") "()") ∧
  (∀ pre : string, extractSymbolName (pre +:+ "`" +:+ "Foo()") = "Foo") ∧
  (∀ pre : string, extractSymbolName (pre +:+ "`" +:+ "Outer.Inner#") = "Outer.Inner").
Proof.
  split; [|split; [|split]].
  - intros id Hid%LastIndex_none. unfold extractSymbolName. by rewrite Hid.
  - intros pre post Hpost. exact (extractSymbolName_after_tick pre post Hpost).
  - intros pre. exact (extractSymbolName_after_tick pre "Foo()" eq_refl).
  - intros pre. exact (extractSymbolName_after_tick pre "Outer.Inner#" eq_refl).
Qed.

End Codec.

(** ** File naming of the writer and of the readers *)
Section FileNames.
Import Strings StringFacts.

Lemma ReplaceAll_map (s : string) (old new : ascii) :
  ReplaceAll s old (String new "") = map_bytes (subst_byte old new) s.
Proof.
  induction s as [|c s IH]; simpl; [done|]. unfold subst_byte at 1.
  destruct (Ascii.eqb c old); str_simpl; by rewrite IH.
Qed.

Lemma map_bytes_compose (f g : ascii → ascii) (s : string) :
  map_bytes f (map_bytes g s) = map_bytes (λ c, f (g c)) s.
Proof. induction s as [|c s IH]; simpl; [done|]. by rewrite IH. Qed.

Lemma length_map_bytes (f : ascii → ascii) (s : string) :
  String.length (map_bytes f s) = String.length s.
Proof. induction s as [|c s IH]; simpl; [done|]. by rewrite IH. Qed.

Lemma ContainsByte_map_bytes (f : ascii → ascii) (s : string) (c : ascii) :
  (∀ d, f d ≠ c) → ContainsByte (map_bytes f s) c = false.
Proof.
  intros Hf. induction s as [|d s IH]; simpl; [done|].
  rewrite IH, orb_false_r. apply Ascii.eqb_neq, Hf.
Qed.

Lemma repoToRSTFile_bytes (repo : string) :
  repoToRSTFile repo = map_bytes readerByte repo +:+ ".go.rst".
Proof.
  unfold repoToRSTFile. by rewrite !ReplaceAll_map, map_bytes_compose.
Qed.

Lemma sanitizeRepoID_bytes (repoID : string) :
  sanitizeRepoID repoID = map_bytes writerByte (stripSchemes repoID).
Proof.
  unfold sanitizeRepoID, stripSchemes. by rewrite !ReplaceAll_map, !map_bytes_compose.
Qed.

Lemma byte_cases (c : ascii) :
  c = "/"%char ∨ c = "."%char ∨ c = ":"%char ∨ c = "-"%char ∨
  (readerByte c = c ∧ writerByte c = c ∧ c ≠ "."%char ∧ c ≠ ":"%char ∧ c ≠ "-"%char).
Proof.
  destruct (Ascii.eqb_spec c "/") as [->|H1]; [tauto|].
  destruct (Ascii.eqb_spec c ".") as [->|H2]; [tauto|].
  destruct (Ascii.eqb_spec c ":") as [->|H3]; [tauto|].
  destruct (Ascii.eqb_spec c "-") as [->|H4]; [tauto|].
  do 4 right. unfold readerByte, writerByte, subst_byte.
  apply Ascii.eqb_neq in H1 as E1. apply Ascii.eqb_neq in H2 as E2.
  apply Ascii.eqb_neq in H3 as E3. apply Ascii.eqb_neq in H4 as E4.
  repeat (first [rewrite E1|rewrite E2|rewrite E3|rewrite E4]; simpl).
  done.
Qed.

Lemma readerByte_not_dot (c : ascii) : readerByte c ≠ "."%char.
Proof.
  destruct (byte_cases c) as [->|[->|[->|[->|(-> & _ & ? & _)]]]]; done.
Qed.




Lemma length_TrimPrefix (s p : string) :
  (String.length (TrimPrefix s p) ≤ String.length s)%nat ∧
  (HasPrefix s p = true → String.length (TrimPrefix s p) + String.length p = String.length s)%nat.
Proof.
  unfold TrimPrefix. destruct (HasPrefix s p) eqn:E; [|split; [lia|done]].
  apply HasPrefix_inv in E. rewrite E at 2 4. rewrite length_app. lia.
Qed.




(** Two names split alike at their first dot. *)
Lemma first_dot_inj (a b x y : string) :
  ContainsByte a "." = false → ContainsByte b "." = false →
  a +:+ String "." x = b +:+ String "." y → a = b ∧ x = y.
Proof.
  revert b. induction a as [|c a IH]; intros [|d b] Ha Hb; str_simpl; simpl in *.
  - by intros [= ->].
  - intros [= <- _]. by rewrite Ascii.eqb_refl in Hb.
  - intros [= -> _]. by rewrite Ascii.eqb_refl in Ha.
  - apply orb_false_iff in Ha as [_ Ha]. apply orb_false_iff in Hb as [_ Hb].
    intros [= -> Heq]. destruct (IH b Ha Hb Heq) as [-> ->]. done.
Qed.

Lemma app_inj_r (x y s : string) : x +:+ s = y +:+ s → x = y.
Proof.
  intros Heq. pose proof (f_equal String.length Heq) as Hlen.
  rewrite !length_app in Hlen.
  rewrite <- (take_app_length x s), <- (take_app_length y s), Heq.
  f_equal. lia.
Qed.


(** The example of the spec, and a reader that misses the file of a
    repository id with a dash. *)
Example sanitizeRepoID_example :
  sanitizeRepoID "https://github.com/acme/widget" = "github_com_acme_widget" ∧
  outputFileName "github.com/acme/my-widget" "go" = "github_com_acme_my_widget.go.rst" ∧
  repoToRSTFile "github.com/acme/my-widget" = "github_com_acme_my-widget.go.rst".
Proof. repeat split; reflexivity. Qed.

End FileNames.

(** ** Body extractor *)
Section ExtractorFacts.
Import Strings StringFacts.









Lemma slice_exact (pre t post : string) :
  slice (pre +:+ t +:+ post) (len pre) (len pre + len t) = Some t.
Proof.
  unfold slice, len. rewrite !length_app.
  replace (_ && _ && _) with true by (symmetry; rewrite !andb_true_iff, !Z.leb_le; lia).
  rewrite Nat2Z.id, drop_app_length.
  replace (Z.to_nat _) with (String.length t) by lia.
  by rewrite take_app_length.
Qed.

(** On the example tree: line 6 lies in both declarations and the inner one
    is returned, neither the first match nor the largest; line 4 lies in the
    outer one only; line 1 lies in none; a file that cannot be read gives the
    empty string. *)
Example extract_inner_declaration :
  @treeSitterExtractCode ExtractorExamples.oneFile "/p/a.ts" 6 "typescript" = Ok "6789ab" ∧
  @treeSitterExtractCode ExtractorExamples.oneFile "/p/a.ts" 4 "typescript"
    = Ok "23456789abcdefgh" ∧
  @treeSitterExtractCode ExtractorExamples.oneFile "/p/a.ts" 1 "typescript" = Ok "" ∧
  @treeSitterExtractCode ExtractorExamples.oneFile "/p/b.ts" 6 "typescript" = Ok "".
Proof. repeat split; vm_compute; reflexivity. Qed.

End ExtractorFacts.

(** ** The first pass of the builder *)
Section FirstPass.
Context `{Bindings} `{Host}.

Lemma recordOccurrence_lookup (occIndex : gmap string occInfo) (occ : Occurrence) (id : string) :
  recordOccurrence occIndex occ !! id =
    match occIndex !! id with
    | Some info => Some info
    | None => if recordedUnder id occ then Some (occInfoOf occ) else None
    end.
Proof.
  unfold recordOccurrence, recordedUnder, occInfoOf.
  destruct (o_Range occ) as [|r0 rest] eqn:HR.
  { rewrite andb_false_r. by destruct (occIndex !! id). }
  rewrite andb_true_r. simpl.
  destruct (String.eqb_spec (o_Symbol occ) id) as [->|Hne]; simpl.
  - destruct (String.eqb_spec id "") as [->|Hid]; simpl; [by destruct (occIndex !! "")|].
    destruct (occIndex !! id) eqn:E; [done|]. by rewrite lookup_insert_eq.
  - destruct (negb _); [|by destruct (occIndex !! id)].
    destruct (occIndex !! o_Symbol occ); [by destruct (occIndex !! id)|].
    rewrite lookup_insert_ne by done. by destruct (occIndex !! id).
Qed.

Lemma foldl_recordOccurrence (occs : list Occurrence) (occIndex : gmap string occInfo)
    (id : string) :
  foldl recordOccurrence occIndex occs !! id =
    match occIndex !! id with
    | Some info => Some info
    | None => occInfoOf <$> find (recordedUnder id) occs
    end.
Proof.
  revert occIndex. induction occs as [|occ occs IH]; intros occIndex; simpl.
  - by destruct (occIndex !! id).
  - rewrite IH, recordOccurrence_lookup.
    destruct (occIndex !! id); [done|]. by destruct (recordedUnder id occ).
Qed.

Lemma land_role_bit (roles d : Z) :
  0 ≤ d → (Z.land roles (2 ^ d) >? 0) = Z.testbit roles d.
Proof.
  intros Hd.
  assert (Z.land roles (2 ^ d) = if Z.testbit roles d then 2 ^ d else 0) as ->.
  { apply Z.bits_inj'. intros n Hn. rewrite Z.land_spec, Z.pow2_bits_eqb by done.
    destruct (Z.eqb_spec d n) as [->|Hne].
    - rewrite andb_true_r. destruct (Z.testbit roles n) eqn:E.
      + by rewrite Z.pow2_bits_true.
      + by rewrite Z.bits_0.
    - rewrite andb_false_r. destruct (Z.testbit roles d).
      + rewrite Z.pow2_bits_false; [done|lia].
      + by rewrite Z.bits_0. }
  destruct (Z.testbit roles d); [|done].
  apply Z.gtb_lt. by apply Z.pow_pos_nonneg.
Qed.

Lemma attachOccurrence_fields (occIndex : gmap string occInfo) (s : rst.Symbol) :
  rst.Symbol_ (attachOccurrence occIndex s) = rst.Symbol_ s ∧
  rst.DependenceOn (attachOccurrence occIndex s) = rst.DependenceOn s ∧
  rst.ReferenceBy (attachOccurrence occIndex s) = rst.ReferenceBy s.
Proof.
  unfold attachOccurrence. destruct (occIndex !! rst.Symbol_ s); [|done].
  by destruct (_ || _).
Qed.

(** A symbol object is built with its id, its line and kind as the
    occurrence index attaches them, and no edges. *)
Lemma newSymbol_Ok (occIndex : gmap string occInfo) (doc : scip.Document)
    (projectRoot : string) (sym : SymbolInformation) (s : rst.Symbol) :
  newSymbol occIndex doc projectRoot sym = Ok s →
  rst.Symbol_ s = si_Symbol sym ∧ rst.DependenceOn s = [] ∧ rst.ReferenceBy s = [] ∧
  match occIndex !! si_Symbol sym with
  | Some info =>
      rst.Line s = line info ∧
      rst.Kind s =
        if String.eqb (Kind_String (si_Kind sym)) "UnspecifiedKind" ||
           String.eqb (Kind_String (si_Kind sym)) ""
        then kind info else Kind_String (si_Kind sym)
  | None => rst.Line s = 0 ∧ rst.Kind s = Kind_String (si_Kind sym)
  end.
Proof.
  unfold newSymbol. destruct (buildSignature sym) as [signature|p]; [|done]. simpl.
  set (s0 := attachOccurrence occIndex _).
  assert (rst.Symbol_ s0 = si_Symbol sym ∧ rst.DependenceOn s0 = [] ∧
          rst.ReferenceBy s0 = [] ∧
          match occIndex !! si_Symbol sym with
          | Some info =>
              rst.Line s0 = line info ∧
              rst.Kind s0 =
                if String.eqb (Kind_String (si_Kind sym)) "UnspecifiedKind" ||
                   String.eqb (Kind_String (si_Kind sym)) ""
                then kind info else Kind_String (si_Kind sym)
          | None => rst.Line s0 = 0 ∧ rst.Kind s0 = Kind_String (si_Kind sym)
          end) as Hs0.
  { subst s0. unfold attachOccurrence. simpl.
    destruct (occIndex !! si_Symbol sym) as [info|]; [|done]. simpl.
    by destruct (_ || _). }
  destruct (_ && _ && _ && _); [|by intros [= <-]].
  destruct (treeSitterExtractCode _ _ _) as [code|p]; [|done]. simpl.
  destruct (negb _); intros [= <-]; [|done].
  destruct Hs0 as (? & ? & ? & ?). repeat split; try done.
Qed.

(** C6.  The occurrence index of a document maps an id to what the first
    occurrence in list order that names the id and has a row gives: its row
    plus one as the line, and the kind inferred from its role bits; later
    occurrences of the id change nothing, and whether an occurrence is first
    does not depend on its roles.  When every occurrence has a row, as the
    input format promises, that is the first occurrence of the id.  With the two masks each a single bit, the
    inferred kind is "FUNC" when the Definition bit or the ForwardDefinition
    bit of the roles is set, and empty otherwise.  A symbol built from a
    declaration takes the line of its index entry, and takes the entry's kind
    only when the declared kind prints as "UnspecifiedKind" or as the empty
    string. *)
Theorem occurrence_index_first_seen :
  (∀ (occs : list Occurrence) (id : string),
     buildOccIndex occs !! id = occInfoOf <$> find (recordedUnder id) occs) ∧
  (∀ (occs : list Occurrence) (id : string),
     id ≠ "" → Forall (λ occ, o_Range occ ≠ []) occs →
     buildOccIndex occs !! id =
       occInfoOf <$> find (λ occ, String.eqb (o_Symbol occ) id) occs) ∧
  (∀ d f : Z,
     0 ≤ d → 0 ≤ f →
     SymbolRole_Definition = 2 ^ d → SymbolRole_ForwardDefinition = 2 ^ f →
     ∀ roles : Z,
       inferKindFromRoles roles =
         if Z.testbit roles d || Z.testbit roles f then "FUNC" else "") ∧
  (∀ (occIndex : gmap string occInfo) (doc : scip.Document) (projectRoot : string)
     (sym : SymbolInformation) (s : rst.Symbol),
     newSymbol occIndex doc projectRoot sym = Ok s →
     match occIndex !! si_Symbol sym with
     | Some info =>
         rst.Line s = line info ∧
         rst.Kind s =
           if String.eqb (Kind_String (si_Kind sym)) "UnspecifiedKind" ||
              String.eqb (Kind_String (si_Kind sym)) ""
           then kind info else Kind_String (si_Kind sym)
     | None => rst.Line s = 0 ∧ rst.Kind s = Kind_String (si_Kind sym)
     end).
Proof.
  split; [|split; [|split]].
  - intros occs id. unfold buildOccIndex. rewrite foldl_recordOccurrence.
    by rewrite lookup_empty.
  - intros occs id Hid Hrows. unfold buildOccIndex.
    rewrite foldl_recordOccurrence, lookup_empty. f_equal.
    induction Hrows as [|occ occs Hocc _ IH]; simpl; [done|].
    rewrite IH. unfold recordedUnder.
    destruct (o_Range occ); [done|]. rewrite andb_true_r.
    apply String.eqb_neq in Hid. by rewrite Hid, andb_true_r.
  - intros d f Hd Hf HD HF roles. unfold inferKindFromRoles.
    by rewrite HD, HF, !land_role_bit.
  - intros occIndex doc projectRoot sym s Hs.
    by destruct (newSymbol_Ok _ _ _ _ _ Hs) as (_ & _ & _ & ?).
Qed.

(** With the masks of scip's protocol, [0x1] and [0x40]. *)
Example inferKindFromRoles_scip :
  @inferKindFromRoles scipBindings 1 = "FUNC" ∧
  @inferKindFromRoles scipBindings 64 = "FUNC" ∧
  @inferKindFromRoles scipBindings 9 = "FUNC" ∧
  @inferKindFromRoles scipBindings 8 = "" ∧
  @inferKindFromRoles scipBindings 0 = "".
Proof. repeat split; reflexivity. Qed.

(** A use on row 7 that precedes the definition on row 3 is the one the index
    records. *)
Example first_occurrence_wins :
  @buildOccIndex scipBindings
      [Examples.use Examples.idF 7; Examples.definition Examples.idF 3 9] !! Examples.idF
    = Some {| line := 8; kind := "" |}.
Proof. vm_compute. reflexivity. Qed.

End FirstPass.

(** ** The cross-reference pass *)
Section SecondPass.
Context `{Bindings}.

Lemma appendUnique_elem (l : list string) (x y : string) :
  x ∈ appendUnique l y ↔ x ∈ l ∨ x = y.
Proof.
  unfold appendUnique. destruct (existsb (String.eqb y) l) eqn:E.
  - apply existsb_exists in E as (z & Hz%list_elem_of_In & ->%String.eqb_eq).
    split; [by left|]. by intros [?| ->].
  - rewrite elem_of_app, list_elem_of_singleton. done.
Qed.

Lemma dependsOn_alter (f : rst.Symbol → rst.Symbol) (q p : rst.ptr)
    (h : list rst.Symbol) (x : string) :
  dependsOn (alter f q h) p x ↔
  ∃ sym, h !! p = Some sym ∧
         x ∈ rst.DependenceOn (if decide (q = p) then f sym else sym).
Proof.
  unfold dependsOn. destruct (decide (q = p)) as [->|Hne].
  - rewrite list_lookup_alter_eq. split.
    + intros (sym' & Hl & Hx). apply fmap_Some in Hl as (sym & Hs & ->). eauto.
    + intros (sym & Hl & Hx). exists (f sym). by rewrite Hl.
  - by rewrite list_lookup_alter_ne.
Qed.

Lemma referencedBy_alter (f : rst.Symbol → rst.Symbol) (q p : rst.ptr)
    (h : list rst.Symbol) (x : string) :
  referencedBy (alter f q h) p x ↔
  ∃ sym, h !! p = Some sym ∧
         x ∈ rst.ReferenceBy (if decide (q = p) then f sym else sym).
Proof.
  unfold referencedBy. destruct (decide (q = p)) as [->|Hne].
  - rewrite list_lookup_alter_eq. split.
    + intros (sym' & Hl & Hx). apply fmap_Some in Hl as (sym & Hs & ->). eauto.
    + intros (sym & Hl & Hx). exists (f sym). by rewrite Hl.
  - by rewrite list_lookup_alter_ne.
Qed.

Lemma is_Some_alter (f : rst.Symbol → rst.Symbol) (q p : rst.ptr) (h : list rst.Symbol) :
  is_Some (alter f q h !! p) ↔ is_Some (h !! p).
Proof. by rewrite !lookup_lt_is_Some, length_alter. Qed.

Lemma linkSymbols_is_Some (symbolIndex : gmap string rst.ptr) (occ otherOcc : Occurrence)
    (h : list rst.Symbol) (p : rst.ptr) :
  is_Some (linkSymbols symbolIndex occ otherOcc h !! p) ↔ is_Some (h !! p).
Proof.
  unfold linkSymbols.
  destruct (symbolIndex !! o_Symbol otherOcc); rewrite ?is_Some_alter;
    destruct (symbolIndex !! o_Symbol occ); try done;
    destruct (negb _); by rewrite ?is_Some_alter.
Qed.

(** What one pair adds to [dependence_on] of the object at [p]. *)
Lemma linkSymbols_dependsOn (symbolIndex : gmap string rst.ptr) (occ otherOcc : Occurrence)
    (h : list rst.Symbol) (p : rst.ptr) (x : string) :
  is_Some (h !! p) →
  dependsOn (linkSymbols symbolIndex occ otherOcc h) p x ↔
  dependsOn h p x ∨
  (symbolIndex !! o_Symbol occ = Some p ∧ IsLocalSymbol (o_Symbol otherOcc) = false ∧
   x = o_Symbol otherOcc).
Proof.
  intros [sym Hsym]. unfold linkSymbols.
  set (h1 := match symbolIndex !! o_Symbol occ with
             | Some q => if negb (IsLocalSymbol (o_Symbol otherOcc))
                         then alter (addDependenceOn (o_Symbol otherOcc)) q h else h
             | None => h
             end).
  assert (dependsOn h1 p x ↔
          dependsOn h p x ∨
          (symbolIndex !! o_Symbol occ = Some p ∧ IsLocalSymbol (o_Symbol otherOcc) = false ∧
           x = o_Symbol otherOcc)) as H1.
  { subst h1. destruct (symbolIndex !! o_Symbol occ) as [q|];
      [|split; [by left|by intros [?|[? _]]]].
    destruct (IsLocalSymbol (o_Symbol otherOcc)); simpl;
      [split; [by left|by intros [?|(_ & ? & _)]]|].
    rewrite dependsOn_alter. unfold dependsOn. rewrite Hsym.
    destruct (decide (q = p)) as [->|Hne].
    - split.
      + intros (? & [= <-] & Hx). simpl in Hx. apply appendUnique_elem in Hx.
        destruct Hx as [Hx| ->]; [left; eauto|by right].
      + intros [(? & [= <-] & Hx)|(_ & _ & ->)]; eexists; (split; [done|]); simpl;
          apply appendUnique_elem; auto.
    - split; [by left|]. intros [?|([= ?] & _)]; done. }
  rewrite <- H1.
  destruct (symbolIndex !! o_Symbol otherOcc) as [q|]; [|done].
  rewrite dependsOn_alter. unfold dependsOn.
  split.
  - intros (sym' & Hl & Hx). exists sym'. split; [done|]. by destruct (decide (q = p)).
  - intros (sym' & Hl & Hx). exists sym'. split; [done|]. by destruct (decide (q = p)).
Qed.

(** What one pair adds to [reference_by] of the object at [p]. *)
Lemma linkSymbols_referencedBy (symbolIndex : gmap string rst.ptr) (occ otherOcc : Occurrence)
    (h : list rst.Symbol) (p : rst.ptr) (x : string) :
  is_Some (h !! p) →
  referencedBy (linkSymbols symbolIndex occ otherOcc h) p x ↔
  referencedBy h p x ∨ (symbolIndex !! o_Symbol otherOcc = Some p ∧ x = o_Symbol occ).
Proof.
  intros Hp. unfold linkSymbols.
  set (h1 := match symbolIndex !! o_Symbol occ with
             | Some q => if negb (IsLocalSymbol (o_Symbol otherOcc))
                         then alter (addDependenceOn (o_Symbol otherOcc)) q h else h
             | None => h
             end).
  assert (is_Some (h1 !! p) ∧ (referencedBy h1 p x ↔ referencedBy h p x)) as [[sym1 Hsym1] H1].
  { subst h1. destruct (symbolIndex !! o_Symbol occ) as [q|]; [|done].
    destruct (negb _); [|done]. split; [by apply is_Some_alter|].
    rewrite referencedBy_alter. unfold referencedBy.
    split; intros (sym' & Hl & Hx); exists sym'; (split; [done|]);
      by destruct (decide (q = p)). }
  rewrite <- H1.
  destruct (symbolIndex !! o_Symbol otherOcc) as [q|];
    [|split; [by left|by intros [?|[? _]]]].
  rewrite referencedBy_alter. unfold referencedBy. rewrite Hsym1.
  destruct (decide (q = p)) as [->|Hne].
  - split.
    + intros (? & [= <-] & Hx). simpl in Hx. apply appendUnique_elem in Hx.
      destruct Hx as [Hx| ->]; [left; eauto|by right].
    + intros [(? & [= <-] & Hx)|(_ & ->)]; eexists; (split; [done|]); simpl;
        apply appendUnique_elem; auto.
  - split; [by left|]. intros [?|([= ?] & _)]; done.
Qed.

(** A fold whose steps each add to a property of the state adds what the
    steps add. *)
Lemma foldl_accumulates {St E : Type} (D V : St → Prop) (Q : E → Prop)
    (step : St → E → St) (l : list E) :
  (∀ h e, V h → V (step h e)) →
  (∀ h e, V h → (D (step h e) ↔ D h ∨ Q e)) →
  ∀ h, V h → V (foldl step h l) ∧ (D (foldl step h l) ↔ D h ∨ ∃ e, e ∈ l ∧ Q e).
Proof.
  intros HV HD. induction l as [|e l IH]; intros h Hh; simpl.
  - split; [done|]. split; [by left|]. intros [?|(e & He & _)]; [done|].
    by apply elem_of_nil in He.
  - destruct (IH (step h e) (HV _ _ Hh)) as [HV' HD']. split; [done|].
    rewrite HD', (HD _ _ Hh). split.
    + intros [[?|?]|(e' & ? & ?)]; [by left|right..].
      * exists e. split; [by left|done].
      * exists e'. split; [by right|done].
    + intros [?|(e' & [->|?]%elem_of_cons & ?)]; [by left; left|by left; right|].
      right. by exists e'.
Qed.

Lemma foldl_length {E : Type} (step : list rst.Symbol → E → list rst.Symbol) (l : list E) :
  (∀ h e, length (step h e) = length h) →
  ∀ h, length (foldl step h l) = length h.
Proof.
  intros Hstep. induction l as [|e l IH]; intros h; simpl; [done|].
  by rewrite IH, Hstep.
Qed.

Lemma crossReference_length (symbolIndex : gmap string rst.ptr) (occ otherOcc : Occurrence)
    (h : list rst.Symbol) :
  length (crossReference symbolIndex occ h otherOcc) = length h.
Proof.
  unfold crossReference, linkSymbols. destruct (inScope occ otherOcc); [|done].
  destruct (symbolIndex !! o_Symbol otherOcc); rewrite ?length_alter;
    destruct (symbolIndex !! o_Symbol occ); try done;
    destruct (negb _); by rewrite ?length_alter.
Qed.

Lemma crossReferenceDocument_length (symbolIndex : gmap string rst.ptr)
    (h : list rst.Symbol) (doc : scip.Document) :
  length (crossReferenceDocument symbolIndex h doc) = length h.
Proof.
  unfold crossReferenceDocument. apply foldl_length. intros h' occ.
  apply foldl_length. intros h'' otherOcc. apply crossReference_length.
Qed.

Lemma crossReferenceDocuments_is_Some (symbolIndex : gmap string rst.ptr)
    (docs : list scip.Document) (h : list rst.Symbol) (p : rst.ptr) :
  is_Some (foldl (crossReferenceDocument symbolIndex) h docs !! p) ↔ is_Some (h !! p).
Proof.
  rewrite !lookup_lt_is_Some, foldl_length; [done|].
  intros h' doc. apply crossReferenceDocument_length.
Qed.

Lemma crossReference_dependsOn (symbolIndex : gmap string rst.ptr) (occ otherOcc : Occurrence)
    (h : list rst.Symbol) (p : rst.ptr) (x : string) :
  is_Some (h !! p) →
  is_Some (crossReference symbolIndex occ h otherOcc !! p) ∧
  (dependsOn (crossReference symbolIndex occ h otherOcc) p x ↔
   dependsOn h p x ∨ addsDependence symbolIndex p x occ otherOcc).
Proof.
  intros Hp. unfold crossReference, addsDependence.
  destruct (inScope occ otherOcc).
  - split; [by apply linkSymbols_is_Some|].
    rewrite linkSymbols_dependsOn by done. tauto.
  - split; [done|]. split; [by left|]. by intros [?|[? _]].
Qed.

Lemma crossReference_referencedBy (symbolIndex : gmap string rst.ptr)
    (occ otherOcc : Occurrence) (h : list rst.Symbol) (p : rst.ptr) (x : string) :
  is_Some (h !! p) →
  is_Some (crossReference symbolIndex occ h otherOcc !! p) ∧
  (referencedBy (crossReference symbolIndex occ h otherOcc) p x ↔
   referencedBy h p x ∨ addsReference symbolIndex p x occ otherOcc).
Proof.
  intros Hp. unfold crossReference, addsReference.
  destruct (inScope occ otherOcc).
  - split; [by apply linkSymbols_is_Some|].
    rewrite linkSymbols_referencedBy by done. tauto.
  - split; [done|]. split; [by left|]. by intros [?|[? _]].
Qed.

(** The second pass adds to the object at [p] the targets of the scope uses
    of the id the index holds at [p], and nothing else. *)
Lemma secondPass_dependsOn (symbolIndex : gmap string rst.ptr) (docs : list scip.Document)
    (h : list rst.Symbol) (p : rst.ptr) (x : string) :
  is_Some (h !! p) →
  dependsOn (foldl (crossReferenceDocument symbolIndex) h docs) p x ↔
  dependsOn h p x ∨
  ∃ s, symbolIndex !! s = Some p ∧ scopeUse docs s x ∧ IsLocalSymbol x = false.
Proof.
  intros Hp.
  pose proof (foldl_accumulates
    (λ h', dependsOn h' p x) (λ h', is_Some (h' !! p))
    (λ doc, ∃ occ, occ ∈ d_Occurrences doc ∧
       ∃ otherOcc, otherOcc ∈ d_Occurrences doc ∧ addsDependence symbolIndex p x occ otherOcc)
    (crossReferenceDocument symbolIndex) docs) as Hdocs.
  destruct (Hdocs) with (h := h) as [_ ->]; try done.
  - intros h' doc Hh'. rewrite !lookup_lt_is_Some, crossReferenceDocument_length in *. done.
  - intros h' doc Hh'. unfold crossReferenceDocument.
    apply (foldl_accumulates
      (λ h', dependsOn h' p x) (λ h', is_Some (h' !! p))
      (λ occ, ∃ otherOcc, otherOcc ∈ d_Occurrences doc ∧
         addsDependence symbolIndex p x occ otherOcc)); [| |done].
    + intros h'' occ Hh''. rewrite !lookup_lt_is_Some in *.
      rewrite foldl_length; [done|]. intros ??. apply crossReference_length.
    + intros h'' occ Hh''.
      apply (foldl_accumulates
        (λ h', dependsOn h' p x) (λ h', is_Some (h' !! p))
        (addsDependence symbolIndex p x occ)); [| |done].
      * intros h3 otherOcc Hh3. by apply crossReference_dependsOn.
      * intros h3 otherOcc Hh3. by apply crossReference_dependsOn.
  - unfold scopeUse, addsDependence. split.
    + intros [?|(doc & Hdoc & occ & Hocc & otherOcc & Hother & Hin & Hix & Hloc & ->)];
        [by left|right].
      exists (o_Symbol occ). split; [done|]. split; [|done].
      exists doc, occ, otherOcc. done.
    + intros [?|(s & Hix & (doc & occ & otherOcc & Hdoc & Hocc & Hother & Hin & <- & <-) & Hloc)];
        [by left|right].
      exists doc. split; [done|]. exists occ. split; [done|]. exists otherOcc. done.
Qed.

Lemma secondPass_referencedBy (symbolIndex : gmap string rst.ptr) (docs : list scip.Document)
    (h : list rst.Symbol) (p : rst.ptr) (x : string) :
  is_Some (h !! p) →
  referencedBy (foldl (crossReferenceDocument symbolIndex) h docs) p x ↔
  referencedBy h p x ∨ ∃ o, symbolIndex !! o = Some p ∧ scopeUse docs x o.
Proof.
  intros Hp.
  pose proof (foldl_accumulates
    (λ h', referencedBy h' p x) (λ h', is_Some (h' !! p))
    (λ doc, ∃ occ, occ ∈ d_Occurrences doc ∧
       ∃ otherOcc, otherOcc ∈ d_Occurrences doc ∧ addsReference symbolIndex p x occ otherOcc)
    (crossReferenceDocument symbolIndex) docs) as Hdocs.
  destruct (Hdocs) with (h := h) as [_ ->]; try done.
  - intros h' doc Hh'. rewrite !lookup_lt_is_Some, crossReferenceDocument_length in *. done.
  - intros h' doc Hh'. unfold crossReferenceDocument.
    apply (foldl_accumulates
      (λ h', referencedBy h' p x) (λ h', is_Some (h' !! p))
      (λ occ, ∃ otherOcc, otherOcc ∈ d_Occurrences doc ∧
         addsReference symbolIndex p x occ otherOcc)); [| |done].
    + intros h'' occ Hh''. rewrite !lookup_lt_is_Some in *.
      rewrite foldl_length; [done|]. intros ??. apply crossReference_length.
    + intros h'' occ Hh''.
      apply (foldl_accumulates
        (λ h', referencedBy h' p x) (λ h', is_Some (h' !! p))
        (addsReference symbolIndex p x occ)); [| |done].
      * intros h3 otherOcc Hh3. by apply crossReference_referencedBy.
      * intros h3 otherOcc Hh3. by apply crossReference_referencedBy.
  - unfold scopeUse, addsReference. split.
    + intros [?|(doc & Hdoc & occ & Hocc & otherOcc & Hother & Hin & Hix & ->)];
        [by left|right].
      exists (o_Symbol otherOcc). split; [done|].
      exists doc, occ, otherOcc. done.
    + intros [?|(o & Hix & (doc & occ & otherOcc & Hdoc & Hocc & Hother & Hin & <- & <-))];
        [by left|right].
      exists doc. split; [done|]. exists occ. split; [done|]. exists otherOcc. done.
Qed.

End SecondPass.

(** ** Invariants of the first pass *)
Section FirstPassInvariants.
Context `{Bindings} `{Host}.

Lemma foldlM_invariant {A B : Type} (I : list B → A → Prop) (f : A → B → result A)
    (l : list B) (a a' : A) :
  I [] a →
  (∀ seen x a1 a2, I seen a1 → f a1 x = Ok a2 → I (seen ++ [x]) a2) →
  foldlM f a l = Ok a' → I l a'.
Proof.
  intros Hinit Hstep.
  assert (∀ seen a0, I seen a0 → foldlM f a0 l = Ok a' → I (seen ++ l) a') as Hgen.
  { induction l as [|x l IH]; intros seen a0 Ha0; simpl.
    - intros [= <-]. by rewrite app_nil_r.
    - destruct (f a0 x) as [a1|p] eqn:E; [|done]. simpl. intros Hrest.
      replace (seen ++ x :: l) with ((seen ++ [x]) ++ l) by (by rewrite <- app_assoc).
      apply (IH _ a1); [|done]. by apply (Hstep seen x a0). }
  apply (Hgen [] a Hinit).
Qed.

Lemma foldlM_Panicked {A B : Type} (f : A → B → result A) (l : list B) (a : A) (p : Panic) :
  foldlM f a l = Panicked p → ∃ a1 x, f a1 x = Panicked p.
Proof.
  revert a. induction l as [|x l IH]; intros a; simpl; [done|].
  destruct (f a x) as [a1|q] eqn:E; simpl; [apply IH|]. intros [= ->]. eauto.
Qed.

Lemma keptIds_snoc (seen : list SymbolInformation) (sym : SymbolInformation) :
  keptIds (seen ++ [sym]) =
    keptIds seen ++ (if IsLocalSymbol (si_Symbol sym) then [] else [si_Symbol sym]).
Proof.
  unfold keptIds. rewrite fmap_app, filter_app. f_equal. simpl.
  rewrite filter_cons. destruct (IsLocalSymbol (si_Symbol sym)) eqn:E.
  - by rewrite decide_False.
  - by rewrite decide_True.
Qed.

Lemma declareSymbol_step (occIndex : gmap string occInfo) (doc : scip.Document)
    (projectRoot : string) (b : builder) (seen : list SymbolInformation)
    (sym : SymbolInformation) (st st' : gmap string rst.ptr * builder) :
  declareInv b seen st →
  declareSymbol occIndex doc projectRoot st sym = Ok st' →
  declareInv b (seen ++ [sym]) st'.
Proof.
  destruct st as [syms b1]. unfold declareSymbol, declareInv. simpl.
  intros (Hdocs & Hext & Hkeep & Hix & Hedges & Hsyms).
  rewrite keptIds_snoc.
  destruct (IsLocalSymbol (si_Symbol sym)) eqn:Hlocal.
  { intros [= <-]. simpl. rewrite app_nil_r. done. }
  destruct (newSymbol occIndex doc projectRoot sym) as [rstSym|q] eqn:Hnew; [|done].
  simpl. intros [= <-]. simpl.
  apply newSymbol_Ok in Hnew as (Hid & Hdep & Href & _).
  split; [done|]. split; [|split; [|split; [|split]]].
  - intros p sym0 Hp. by apply lookup_app_l_Some, Hext.
  - intros id Hid'. rewrite elem_of_app, list_elem_of_singleton in Hid'.
    rewrite lookup_insert_ne; [apply Hkeep; tauto|].
    intros Heq. apply Hid'. by right.
  - intros id p. rewrite lookup_insert. destruct (decide (si_Symbol sym = id)) as [<-|Hne].
    + intros [= <-]. exists rstSym. split; [|done].
      apply lookup_snoc_Some. by right.
    + intros (sym0 & Hp & ? & ?)%Hix. exists sym0. split; [|done].
      by apply lookup_app_l_Some.
  - intros p sym0 [[_ Hp]|[_ <-]]%lookup_snoc_Some; [by apply (Hedges p)|done].
  - intros id p. rewrite !lookup_insert. destruct (decide (si_Symbol sym = id)); [done|].
    apply Hsyms.
Qed.

Lemma declareSymbols_inv (occIndex : gmap string occInfo) (doc : scip.Document)
    (projectRoot : string) (b : builder) (syms : list SymbolInformation)
    (st : gmap string rst.ptr * builder) :
  (∀ id p, symbolIndex b !! id = Some p →
     ∃ sym, heap b !! p = Some sym ∧ rst.Symbol_ sym = id ∧ IsLocalSymbol id = false) →
  (∀ p sym, heap b !! p = Some sym → rst.DependenceOn sym = [] ∧ rst.ReferenceBy sym = []) →
  foldlM (declareSymbol occIndex doc projectRoot) (∅, b) syms = Ok st →
  declareInv b syms st.
Proof.
  intros Hix Hedges. apply foldlM_invariant.
  - unfold declareInv. simpl. do 5 (split; [done|]).
    intros id p. by rewrite lookup_empty.
  - intros seen x a1 a2. apply declareSymbol_step.
Qed.

Lemma redeclared_snoc (seen : list scip.Document) (doc : scip.Document) (id : string) :
  redeclared seen id → redeclared (seen ++ [doc]) id.
Proof.
  intros (l1 & d1 & l2 & d2 & l3 & -> & ? & ?).
  exists l1, d1, l2, d2, (l3 ++ [doc]). split; [|done].
  by rewrite <- !app_assoc, <- !app_comm_cons, <- !app_assoc, <- app_comm_cons.
Qed.

Lemma indexDocument_step (projectRoot : string) (seen : list scip.Document)
    (doc : scip.Document) (b b' : builder) :
  firstPassInv seen b →
  indexDocument projectRoot b doc = Ok b' →
  firstPassInv (seen ++ [doc]) b'.
Proof.
  intros (Hix & Hedges & Hdecl & Hentries). unfold indexDocument.
  destruct (foldlM _ _ _) as [[syms b1]|q] eqn:Hfold; [|done].
  simpl. intros [= <-].
  apply declareSymbols_inv in Hfold as (Hdocs & Hext & Hkeep & Hix1 & Hedges1 & Hsyms);
    [|done..].
  simpl in *. fold (declaredIds doc) in Hkeep.
  unfold firstPassInv. simpl. split; [done|]. split; [done|]. split.
  - intros id p Hp. destruct (decide (id ∈ declaredIds doc)) as [Hin|Hout].
    + exists seen, doc, []. done.
    + rewrite (Hkeep id Hout) in Hp. apply Hdecl in Hp as (l1 & d1 & l2 & -> & ?).
      exists l1, d1, (l2 ++ [doc]). split; [|done].
      by rewrite <- app_assoc, <- app_comm_cons.
  - intros path d id p. rewrite Hdocs, lookup_insert.
    destruct (decide (d_RelativePath doc = path)) as [_|_].
    + intros [= <-]. simpl. intros Hp%Hsyms. split; [|by left].
      apply Hix1 in Hp as (sym & -> & _). done.
    + intros Hd Hp. destruct (Hentries path d id p Hd Hp) as [[sym Hsym] Hor].
      split; [by rewrite (Hext p sym Hsym)|].
      destruct Hor as [Hidx|Hre]; [|right; by apply redeclared_snoc].
      destruct (decide (id ∈ declaredIds doc)) as [Hin|Hout].
      * right. apply Hdecl in Hidx as (l1 & d1 & l2 & -> & ?).
        exists l1, d1, l2, doc, []. split; [|done].
        by rewrite <- app_assoc, <- app_comm_cons.
      * left. by rewrite (Hkeep id Hout).
Qed.

Lemma indexDocuments_inv (docs : list scip.Document) (projectRoot : string) (b : builder) :
  indexDocuments docs projectRoot = Ok b → firstPassInv docs b.
Proof.
  unfold indexDocuments. apply foldlM_invariant.
  - unfold firstPassInv, emptyBuilder. simpl. repeat split; intros *; by rewrite ?lookup_empty.
  - intros seen doc b1 b2. apply indexDocument_step.
Qed.

Lemma declaredApart_not_redeclared (docs : list scip.Document) (id : string) :
  declaredApart docs = true → ¬ redeclared docs id.
Proof.
  induction docs as [|doc docs IH]; simpl.
  - intros _ (l1 & d1 & l2 & d2 & l3 & Heq & _). by destruct l1.
  - intros [Hhead Htail]%andb_true_iff (l1 & d1 & l2 & d2 & l3 & Heq & H1 & H2).
    destruct l1 as [|d l1]; simpl in Heq; injection Heq as -> ->.
    + rewrite forallb_forall in Hhead.
      specialize (Hhead id (proj1 (list_elem_of_In _ _) H1)).
      rewrite forallb_forall in Hhead.
      assert (In d2 (l2 ++ d2 :: l3)) as Hd2 by (apply in_or_app; right; by left).
      specialize (Hhead d2 Hd2). apply negb_true_iff in Hhead.
      assert (existsb (String.eqb id) (declaredIds d2) = true) as Hex; [|congruence].
      apply existsb_exists. exists id. split; [by apply list_elem_of_In|].
      apply String.eqb_refl.
    + apply (IH Htail). by exists l1, d1, l2, d2, l3.
Qed.

End FirstPassInvariants.

(** ** The table the builder returns *)
Section Builder_correct.
Context `{Bindings} `{Host}.

Lemma runBuilder_Ok (docs : list scip.Document) (projectRoot : string) (b : builder) :
  runBuilder docs projectRoot = Ok b →
  ∃ b1, indexDocuments docs projectRoot = Ok b1 ∧
        documents b = documents b1 ∧ symbolIndex b = symbolIndex b1 ∧
        heap b = foldl (crossReferenceDocument (symbolIndex b1)) (heap b1) docs.
Proof.
  unfold runBuilder. destruct (indexDocuments docs projectRoot) as [b1|p]; [|done].
  simpl. intros [= <-]. by exists b1.
Qed.

(** The edges at [p] when [buildRST] returns: the scope uses of the id the
    index holds at [p]. *)
Lemma runBuilder_dependsOn (docs : list scip.Document) (projectRoot : string) (b : builder)
    (p : rst.ptr) (x : string) :
  runBuilder docs projectRoot = Ok b →
  dependsOn (heap b) p x ↔
  ∃ s, symbolIndex b !! s = Some p ∧ scopeUse docs s x ∧ IsLocalSymbol x = false.
Proof.
  intros (b1 & Hb1 & _ & -> & ->)%runBuilder_Ok.
  apply indexDocuments_inv in Hb1 as (Hix & Hedges & _).
  destruct (heap b1 !! p) as [sym|] eqn:Hp.
  - rewrite secondPass_dependsOn by (by rewrite Hp). split; [|by right].
    intros [(sym' & Hp' & Hx)|?]; [|done].
    rewrite Hp in Hp'. injection Hp' as <-.
    destruct (Hedges p sym Hp) as [Hdep _]. rewrite Hdep in Hx. by apply elem_of_nil in Hx.
  - split.
    + intros (sym & Hsym & _). exfalso.
      assert (is_Some (heap b1 !! p)) as [? ?]; [|congruence].
      apply (crossReferenceDocuments_is_Some (symbolIndex b1) docs). by rewrite Hsym.
    + intros (s & (sym & Hsym & _)%Hix & _). congruence.
Qed.

Lemma runBuilder_referencedBy (docs : list scip.Document) (projectRoot : string) (b : builder)
    (p : rst.ptr) (x : string) :
  runBuilder docs projectRoot = Ok b →
  referencedBy (heap b) p x ↔ ∃ o, symbolIndex b !! o = Some p ∧ scopeUse docs x o.
Proof.
  intros (b1 & Hb1 & _ & -> & ->)%runBuilder_Ok.
  apply indexDocuments_inv in Hb1 as (Hix & Hedges & _).
  destruct (heap b1 !! p) as [sym|] eqn:Hp.
  - rewrite secondPass_referencedBy by (by rewrite Hp). split; [|by right].
    intros [(sym' & Hp' & Hx)|?]; [|done].
    rewrite Hp in Hp'. injection Hp' as <-.
    destruct (Hedges p sym Hp) as [_ Href]. rewrite Href in Hx. by apply elem_of_nil in Hx.
  - split.
    + intros (sym & Hsym & _). exfalso.
      assert (is_Some (heap b1 !! p)) as [? ?]; [|congruence].
      apply (crossReferenceDocuments_is_Some (symbolIndex b1) docs). by rewrite Hsym.
    + intros (s & (sym & Hsym & _)%Hix & _). congruence.
Qed.

(** The index is injective: an object is indexed under the id it carries. *)
Lemma runBuilder_index_inj (docs : list scip.Document) (projectRoot : string) (b : builder)
    (s s' : string) (p : rst.ptr) :
  runBuilder docs projectRoot = Ok b →
  symbolIndex b !! s = Some p → symbolIndex b !! s' = Some p →
  s = s' ∧ IsLocalSymbol s = false.
Proof.
  intros (b1 & Hb1 & _ & -> & _)%runBuilder_Ok Hs Hs'.
  apply indexDocuments_inv in Hb1 as (Hix & _).
  apply Hix in Hs as (sym & Hp & <- & ?). apply Hix in Hs' as (sym' & Hp' & <- & _).
  split; [congruence|done].
Qed.

(** With every id declared by one document only, the symbol entries of the
    table are the objects of the index. *)
Lemma runBuilder_entries_indexed (docs : list scip.Document) (projectRoot : string)
    (b : builder) (path id : string) (d : rst.Document rst.ptr) (p : rst.ptr) :
  runBuilder docs projectRoot = Ok b →
  declaredApart docs = true →
  documents b !! path = Some d → rst.Symbols d !! id = Some p →
  symbolIndex b !! id = Some p.
Proof.
  intros (b1 & Hb1 & -> & -> & _)%runBuilder_Ok Hapart Hd Hp.
  apply indexDocuments_inv in Hb1 as (_ & _ & _ & Hentries).
  destruct (Hentries path d id p Hd Hp) as [_ [?|Hre]]; [done|].
  by apply declaredApart_not_redeclared in Hre.
Qed.

Lemma buildRST_Ok (docs : list scip.Document) (repoID projectRoot : string)
    (t : rst.RST rst.ptr * list rst.Symbol) :
  buildRST docs repoID projectRoot = Ok t →
  ∃ b, runBuilder docs projectRoot = Ok b ∧ rst.Documents t.1 = documents b ∧ t.2 = heap b.
Proof.
  unfold buildRST. destruct docs as [|doc0 docs]; [done|].
  destruct (runBuilder _ _) as [b|p]; [|done]. simpl. intros [= <-]. by exists b.
Qed.

Lemma builtRST_entry (docs : list scip.Document) (repoID projectRoot : string)
    (t : rst.RST rst.Symbol) (path id : string) (sym : rst.Symbol) :
  builtRST docs repoID projectRoot = Ok t →
  entry t path id = Some sym →
  ∃ b d p, runBuilder docs projectRoot = Ok b ∧ documents b !! path = Some d ∧
           rst.Symbols d !! id = Some p ∧ heap b !! p = Some sym.
Proof.
  unfold builtRST. destruct (buildRST docs repoID projectRoot) as [[r h]|q] eqn:Hb; [|done].
  simpl. intros [= <-]. apply buildRST_Ok in Hb as (b & Hrun & Hdocs & Hheap). simpl in *.
  unfold entry, rst.deref. simpl. rewrite lookup_fmap, Hdocs.
  destruct (documents b !! path) as [d|] eqn:Hd; [|done]. simpl.
  rewrite lookup_omap. destruct (rst.Symbols d !! id) as [p|] eqn:Hp; [|done]. simpl.
  intros Hsym. exists b, d, p. by rewrite <- Hheap.
Qed.

(** C2 (amended).  When [buildRST] returns, [dependence_on] of the object
    the index holds for S lists exactly the non-local ids O that an
    occurrence in the scope of an occurrence of S names, whether or not the
    index holds O; [reference_by] of the object the index holds for O lists
    exactly the ids S that have an occurrence whose scope holds an occurrence
    of O, whether or not the index holds S.  An object the index does not hold
    has no edges.  Every listed id is the non-local id of an occurrence of
    the group. *)
Theorem cross_reference_edges
    (docs : list scip.Document) (projectRoot : string) (b : builder) :
  runBuilder docs projectRoot = Ok b →
  (∀ (p : rst.ptr) (o : string),
     dependsOn (heap b) p o ↔
     ∃ s, symbolIndex b !! s = Some p ∧ scopeUse docs s o ∧ IsLocalSymbol o = false) ∧
  (∀ (p : rst.ptr) (s : string),
     referencedBy (heap b) p s ↔ ∃ o, symbolIndex b !! o = Some p ∧ scopeUse docs s o) ∧
  (∀ (p : rst.ptr) (x : string),
     dependsOn (heap b) p x ∨ referencedBy (heap b) p x →
     IsLocalSymbol x = false ∧
     ∃ doc occ, doc ∈ docs ∧ occ ∈ d_Occurrences doc ∧ o_Symbol occ = x).
Proof.
  intros Hrun. split; [|split].
  - intros p o. by apply (runBuilder_dependsOn docs projectRoot).
  - intros p s. by apply (runBuilder_referencedBy docs projectRoot).
  - intros p x [Hd|Hr].
    + apply (runBuilder_dependsOn _ _ _ _ _ Hrun) in Hd
        as (s & _ & (doc & occ & otherOcc & ? & ? & ? & ? & ? & ?) & ?).
      split; [done|]. by exists doc, otherOcc.
    + apply (runBuilder_referencedBy _ _ _ _ _ Hrun) in Hr
        as (o & _ & (doc & occ & otherOcc & ? & ? & ? & Hin & <- & ?)).
      split; [|by exists doc, occ].
      unfold inScope in Hin. apply andb_true_iff in Hin as [Hloc _].
      by apply negb_true_iff in Hloc.
Qed.

End Builder_correct.

(** ** The call of the builder in [parseMain] *)
Section CallSite.
Context `{Bindings} `{Host}.

Lemma ofSlice_Panicked (o : option string) (p : Panic) :
  ofSlice o = Panicked p → p = slice_bounds_out_of_range.
Proof. destruct o; [done|]. by intros [= <-]. Qed.

Lemma firstCodeBlock_Panicked (docs : list string) (p : Panic) :
  firstCodeBlock docs = Some (Panicked p) → p = slice_bounds_out_of_range.
Proof.
  induction docs as [|doc docs IH]; simpl; [done|].
  destruct (_ && _); [|done]. intros [= Hp]. by apply ofSlice_Panicked in Hp.
Qed.

Lemma buildSignature_Panicked (sym : SymbolInformation) (p : Panic) :
  buildSignature sym = Panicked p → p = slice_bounds_out_of_range.
Proof.
  unfold buildSignature.
  assert (match firstCodeBlock (si_Documentation sym) with
          | Some content => content
          | None =>
              Ok (kindPrefix (si_Kind sym) +:+
                  (if String.eqb (si_DisplayName sym) ""
                   then extractSymbolName (si_Symbol sym) else si_DisplayName sym))
          end = Panicked p → p = slice_bounds_out_of_range) as Hrest.
  { destruct (firstCodeBlock _) as [content|] eqn:E; [|done].
    intros ->. by apply firstCodeBlock_Panicked in E. }
  destruct (si_SignatureDocumentation sym) as [[|c text]|]; done.
Qed.

Lemma treeSitterExtractCode_Panicked (sourceFile : string) (line : Z) (lang : string)
    (p : Panic) :
  treeSitterExtractCode sourceFile line lang = Panicked p → p = slice_bounds_out_of_range.
Proof.
  unfold treeSitterExtractCode.
  destruct (ReadFile sourceFile) as [sourceCode|]; [|done].
  destruct (Parse sourceCode) as [root|]; [|done].
  destruct (dfsWalk _ _ _) as [n|]; [|done]. apply ofSlice_Panicked.
Qed.

Lemma newSymbol_Panicked (occIndex : gmap string occInfo) (doc : scip.Document)
    (projectRoot : string) (sym : SymbolInformation) (p : Panic) :
  newSymbol occIndex doc projectRoot sym = Panicked p → p = slice_bounds_out_of_range.
Proof.
  unfold newSymbol. destruct (buildSignature sym) as [signature|q] eqn:Hsig; simpl.
  - destruct (_ && _ && _ && _); [|done].
    destruct (treeSitterExtractCode _ _ _) as [code|q] eqn:Hcode; simpl; [done|].
    intros [= <-]. by apply treeSitterExtractCode_Panicked in Hcode.
  - intros [= <-]. by apply buildSignature_Panicked in Hsig.
Qed.

Lemma indexDocument_Panicked (projectRoot : string) (b : builder) (doc : scip.Document)
    (p : Panic) :
  indexDocument projectRoot b doc = Panicked p → p = slice_bounds_out_of_range.
Proof.
  unfold indexDocument. destruct (foldlM _ _ _) as [[syms b1]|q] eqn:Hfold; simpl; [done|].
  intros [= <-]. apply foldlM_Panicked in Hfold as ([syms b1] & sym & Hstep).
  unfold declareSymbol in Hstep. destruct (IsLocalSymbol _); [done|].
  destruct (newSymbol _ _ _ _) as [rstSym|q'] eqn:Hnew; simpl in Hstep; [done|].
  injection Hstep as <-. by apply newSymbol_Panicked in Hnew.
Qed.

Lemma runBuilder_Panicked (docs : list scip.Document) (projectRoot : string) (p : Panic) :
  runBuilder docs projectRoot = Panicked p → p = slice_bounds_out_of_range.
Proof.
  unfold runBuilder, indexDocuments.
  destruct (foldlM _ _ _) as [b|q] eqn:Hfold; simpl; [done|].
  intros [= <-]. apply foldlM_Panicked in Hfold as (b1 & doc & Hstep).
  by apply indexDocument_Panicked in Hstep.
Qed.

(** A documentation string that is a Go fence with nothing inside passes both
    tests of [buildSignature], and the slice [doc[6:5]] panics: this is the
    panic of the first pass. *)
Example buildSignature_empty_fence :
  buildSignature
    {| si_Symbol := Examples.idF; si_Kind := SymbolInformation_Function;
       si_DisplayName := "F"; si_Documentation := ["```go" +:+ nl +:+ "```"];
       si_SignatureDocumentation := None |}
  = Panicked slice_bounds_out_of_range.
Proof. reflexivity. Qed.

(** Past its first statement the builder does not index out of range. *)
Lemma buildRST_cons (doc0 : scip.Document) (docs : list scip.Document)
    (repoID projectRoot : string) :
  buildRST (doc0 :: docs) repoID projectRoot ≠ Panicked index_out_of_range.
Proof.
  unfold buildRST. destruct (runBuilder _ _) as [b|p] eqn:Hrun; simpl; [done|].
  intros [= ->]. by apply runBuilder_Panicked in Hrun.
Qed.

(** Every group of the language map has a document. *)
Lemma groupByLanguage_nonempty (indexDocs : list scip.Document) (lang : string)
    (docs : list scip.Document) :
  groupByLanguage indexDocs !! lang = Some docs → docs ≠ [].
Proof.
  unfold groupByLanguage.
  assert (∀ langDocs : gmap string (list scip.Document),
            (∀ l g, langDocs !! l = Some g → g ≠ []) →
            ∀ l g,
              foldl (λ (langDocs : gmap string (list scip.Document)) (doc : scip.Document),
                       let lang := d_Language doc in
                       let lang := if String.eqb lang "" then "unknown" else lang in
                       <[lang := default [] (langDocs !! lang) ++ [doc]]> langDocs)
                    langDocs indexDocs !! l = Some g → g ≠ []) as Hgen.
  { induction indexDocs as [|doc rest IH]; intros langDocs Hne l g; simpl; [apply Hne|].
    apply IH. intros l' g'. rewrite lookup_insert. case_decide.
    - intros [= <-]. by destruct (default [] _).
    - apply Hne. }
  apply Hgen. intros l g. by rewrite lookup_empty.
Qed.

(** C10.  [buildRST] panics with an index out of range on an empty slice:
    its first statement reads [docs[0]].  A group of the language map of
    [parseMain] is never empty, so the call of [buildRST] on a group, and with
    it the loop body of [parseMain], never panics that way; the table it
    returns carries the language of the first document of the group. *)
Theorem buildRST_called_on_nonempty_groups
    (indexDocs : list scip.Document) (lang : string) (docs : list scip.Document)
    (repoID projectRoot : string) :
  groupByLanguage indexDocs !! lang = Some docs →
  buildRST [] repoID projectRoot = Panicked index_out_of_range ∧
  docs ≠ [] ∧
  buildRST docs repoID projectRoot ≠ Panicked index_out_of_range ∧
  processLanguage repoID projectRoot lang docs ≠ Panicked index_out_of_range ∧
  (∀ t, buildRST docs repoID projectRoot = Ok t →
        Some (rst.Language (rst.Metadata_ t.1)) = d_Language <$> docs !! 0%nat).
Proof.
  intros Hgroup%groupByLanguage_nonempty. split; [done|]. split; [done|].
  destruct docs as [|doc0 docs]; [done|].
  pose proof (buildRST_cons doc0 docs repoID projectRoot) as Hcons.
  split; [done|]. split.
  - unfold processLanguage. destruct (buildRST _ _ _) as [t|p]; [done|].
    simpl. congruence.
  - intros t. unfold buildRST. destruct (runBuilder _ _); [|done].
    simpl. by intros [= <-].
Qed.

End CallSite.

(** ** The builder on the example inputs *)
Section BuilderExamples.
Import Examples.

Lemma entry_None_forall (t : rst.RST rst.Symbol) (id : string) :
  bool_decide (map_Forall (λ _ d, rst.Symbols d !! id = None) (rst.Documents t)) = true →
  ∀ path, entry t path id = None.
Proof.
  intros HF%bool_decide_eq_true path. unfold entry.
  destruct (rst.Documents t !! path) as [d|] eqn:E; [|done]. simpl.
  by apply (HF path d).
Qed.

(** C1, as stated, fails: [lib.go] and [main.go] both declare [A], the index
    keeps the object of [main.go], and the entry of [lib.go] never learns
    that [B] refers to [A]. *)
Lemma symmetry_fails_for_redeclared_id :
  ∃ t symA symB,
    @builtRST scipBindings noFiles [docLib; docMain] "m" "" = Ok t ∧
    entry t "lib.go" idA = Some symA ∧
    entry t "main.go" idB = Some symB ∧
    idA ∈ rst.DependenceOn symB ∧ idB ∉ rst.ReferenceBy symA.
Proof.
  eexists _, _, _. split; [vm_compute; reflexivity|].
  split; [vm_compute; reflexivity|]. split; [vm_compute; reflexivity|].
  split; [by apply list_elem_of_singleton|apply not_elem_of_nil].
Qed.

(** C2, as stated, fails: [G] is declared nowhere, yet the scope of [F]
    uses it and [dependence_on] of [F] lists it. *)
Lemma dependence_on_keeps_dangling_id :
  ∃ t symF,
    @builtRST scipBindings noFiles [docF] "m" "" = Ok t ∧
    entry t "a.go" idF = Some symF ∧
    idG ∈ rst.DependenceOn symF ∧
    ∀ path, entry t path idG = None.
Proof.
  eexists _, _. split; [vm_compute; reflexivity|].
  split; [vm_compute; reflexivity|].
  split; [by apply list_elem_of_singleton|].
  apply entry_None_forall. vm_compute. reflexivity.
Qed.

(** The edge theorem at [docF]: the object of [F], at place 0 of the heap,
    depends on [G]. *)
Lemma cross_reference_edges_witness :
  ∃ b,
    @runBuilder scipBindings noFiles [docF] "" = Ok b ∧
    (dependsOn (heap b) 0%nat idG ↔
     ∃ s, symbolIndex b !! s = Some 0%nat ∧ @scopeUse scipBindings [docF] s idG ∧
          @IsLocalSymbol scipBindings idG = false).
Proof.
  eexists. split; [vm_compute; reflexivity|].
  apply (@cross_reference_edges scipBindings noFiles [docF] "").
  vm_compute. reflexivity.
Defined.

(** The call-site theorem at the group "go" of two documents. *)
Lemma buildRST_called_on_nonempty_groups_witness :
  groupByLanguage [docF; docMain] !! "go" = Some [docF; docMain] ∧
  @buildRST scipBindings noFiles [docF; docMain] "m" "" ≠ Panicked index_out_of_range.
Proof.
  split; [vm_compute; reflexivity|].
  apply (@buildRST_called_on_nonempty_groups scipBindings noFiles
           [docF; docMain] "go" [docF; docMain] "m" "").
  vm_compute. reflexivity.
Defined.

End BuilderExamples.

(** ** Queries *)
Section QueryFacts.
Import QueryExamples.

(** What [getSymbolDetails] returns is taken from an entry of the file whose
    extracted name passes its test, except for the line. *)
Lemma getSymbolDetails_found `{MapRange} (r : rst.RST rst.Symbol)
    (filePath symbolName : string) (d : SymbolDetails) :
  getSymbolDetails r filePath symbolName = inr d →
  ∃ symKey sym,
    entry r filePath symKey = Some sym ∧
    cliNameMatches (extractSymbolName symKey) symbolName = true ∧
    sd_Name d = extractSymbolName symKey ∧ sd_Kind d = rst.Kind sym ∧
    sd_FilePath d = filePath ∧ sd_Line d = 1 ∧
    sd_Dependencies d = rst.DependenceOn sym ∧ sd_References d = rst.ReferenceBy sym.
Proof.
  unfold getSymbolDetails, entry.
  destruct (rst.Documents r !! filePath) as [doc|]; [|done]. simpl.
  destruct (find _ _) as [[symKey sym]|] eqn:Hfind; [|done].
  intros [= <-]. apply find_some in Hfind as [Hin Hmatch].
  exists symKey, sym. split; [|done].
  apply list_elem_of_In in Hin. rewrite mapRange_perm in Hin.
  by apply elem_of_map_to_list in Hin.
Qed.

(** C3, checked on the code: neither query tests all three forms.  For the
    candidate "Foo()" and the query "Foo" the contract holds by its second
    form, and [getSymbolDetails] finds no symbol; for the candidate that ends
    in "Outer.Inner#" and the query "Inner" the contract holds by its third
    form, and [loadSymbolDetail] finds no symbol.  Each query finds the
    candidate the other one misses. *)
Theorem name_matching_forms_by_query :
  specNameMatches idCall "Foo" = true ∧
  @getSymbolDetails rangeInOrder (tableOf (symbolAt idCall "Function" 3 [] [])) "a.go" "Foo"
    = inl (symbol_not_found "Foo") ∧
  (∃ d, @loadSymbolDetail rangeInOrder (tableOf (symbolAt idCall "Function" 3 [] []))
          "a.go" "Foo" 0 = tui.symbolDetailMsg d) ∧
  specNameMatches idNested "Inner" = true ∧
  @loadSymbolDetail rangeInOrder (tableOf (symbolAt idNested "Struct" 7 [] [])) "a.go" "Inner" 0
    = tui.errMsg (symbol_not_found "Inner") ∧
  (∃ d, @getSymbolDetails rangeInOrder (tableOf (symbolAt idNested "Struct" 7 [] []))
          "a.go" "Inner" = inr d).
Proof.
  split; [reflexivity|]. split; [vm_compute; reflexivity|].
  split; [eexists; vm_compute; reflexivity|].
  split; [reflexivity|]. split; [vm_compute; reflexivity|].
  eexists; vm_compute; reflexivity.
Qed.

(** The tests of the two queries against the contract: each is one form
    short. *)
Lemma query_tests_and_contract (candidate query : string) :
  specNameMatches candidate query =
    cliNameMatches (extractSymbolName candidate) query ||
    tuiNameMatches (extractSymbolName candidate) query.
Proof.
  unfold specNameMatches, cliNameMatches, tuiNameMatches.
  destruct (String.eqb _ query), (String.eqb _ (query +:+ "()")),
    (Strings.HasSuffix _ _); done.
Qed.

(** C4, checked on the code: for the function [F], stored with line 42,
    [getSymbolDetails] returns its kind, its dependencies and its references
    as stored, and the line 1. *)
Theorem getSymbolDetails_line_is_one :
  entry (tableOf symF) "a.go" idF = Some symF ∧ rst.Line symF = 42 ∧
  @getSymbolDetails rangeInOrder (tableOf symF) "a.go" "F" =
    inr {| sd_Name := "F"; sd_Kind := "Function"; sd_FilePath := "a.go"; sd_Line := 1;
           sd_Dependencies := [idG]; sd_References := [] |}.
Proof. split; [vm_compute; reflexivity|]. split; [reflexivity|]. vm_compute. reflexivity. Qed.

End QueryFacts.

(** ** Jump and back in detail mode *)
Section JumpAndBack.
Import tui browser BrowserExamples.

Lemma jumpToSymbol_Ok `{Bubbles} (m m1 : model) (name : string) (cmd : option Cmd)
    (X : symbolDetail) :
  m_symbol m = Some X →
  jumpToSymbol m name = Ok (m1, cmd) →
  m_symbolStack m1 = m_symbolStack m ++ [toJump X] ∧ m_symbol m1 = Some X ∧
  m_mode m1 = m_mode m ∧
  ∃ repo, cmd = Some (loadSymbolDetailCmd (m_rstPath m) repo "" name 0).
Proof.
  unfold jumpToSymbol. intros HX. rewrite HX. simpl.
  destruct (asRepoItem _) as [repo|p]; [|done]. simpl. intros [= <- <-]. simpl.
  do 3 (split; [done|]). by exists repo.
Qed.

(** A key of detail mode that returns a command is a jump. *)
Lemma updateSymbolMode_jump `{Bubbles} (m m1 : model) (key : string) (cmd : Cmd) :
  updateSymbolMode m (KeyMsg key) = Ok (m1, Some cmd) →
  ∃ name, jumpToSymbol m name = Ok (m1, Some cmd).
Proof.
  unfold updateSymbolMode.
  repeat (match goal with
          | |- context [if ?c then _ else _] => destruct c
          | |- context [match last ?l with _ => _ end] => destruct (last l)
          end; try done).
  - destruct (asRefItem _) as [item|p]; [|done]. simpl. eauto.
  - destruct (asRefItem _) as [item|p]; [|done]. simpl. eauto.
Qed.

Lemma updateSymbolMode_back `{Bubbles} (m : model) (stack : list symbolJump)
    (prev : symbolJump) :
  m_symbolStack m = stack ++ [prev] →
  ∃ m2, updateSymbolMode m (KeyMsg "h") = Ok (m2, None) ∧
        m_symbol m2 = Some (ofJump prev) ∧ m_symbolStack m2 = stack ∧
        m_mode m2 = m_mode m.
Proof.
  intros Hstack. unfold updateSymbolMode. simpl.
  rewrite Hstack, last_snoc, removelast_last. eexists. split; [done|]. done.
Qed.

(** In detail mode the reply of a load, a detail or an error, changes
    nothing. *)
Lemma updateSymbolMode_ignores_reply `{Bubbles} (m : model) (d : symbolDetail)
    (e : queryError) :
  updateSymbolMode m (symbolDetailMsg d) = Ok (m, None) ∧
  updateSymbolMode m (errMsg e) = Ok (m, None).
Proof. done. Qed.

(** C8, as stated, fails: back after a jump from the detail of [F] restores a
    detail whose [symbolKey] is empty, not the key the detail had. *)
Lemma back_loses_symbolKey :
  ∃ m1 cmd m2,
    @updateSymbolMode plainWidgets showingF (KeyMsg "enter") = Ok (m1, Some cmd) ∧
    @updateSymbolMode plainWidgets m1 (KeyMsg "h") = Ok (m2, None) ∧
    m_symbol showingF = Some detailF ∧
    m_symbol m2 ≠ Some detailF ∧
    (symbolKey <$> m_symbol m2) = Some "" ∧ symbolKey detailF = "scip-go gomod m v1 `".
Proof.
  eexists _, _, _. split; [vm_compute; reflexivity|]. split; [vm_compute; reflexivity|].
  split; [reflexivity|]. split; [|split; reflexivity].
  vm_compute. discriminate.
Qed.

(** C8 (amended).  In detail mode showing X, a key that starts a jump pushes
    onto the stack the name, signature, line, file path, dependencies,
    references and code of X.  The back key that follows pops the stack and
    shows a detail with these seven fields as X has them, byte for byte, and
    an empty [symbolKey]; the stack is again what it was before the jump, the
    mode is unchanged, and no command is returned, so nothing is read or
    deserialized. *)
Theorem jump_then_back_restores_saved_fields `{Bubbles}
    (m m1 m2 : model) (X : symbolDetail) (key : string) (cmd : Cmd) (cmd2 : option Cmd) :
  m_symbol m = Some X →
  updateSymbolMode m (KeyMsg key) = Ok (m1, Some cmd) →
  updateSymbolMode m1 (KeyMsg "h") = Ok (m2, cmd2) →
  m_symbolStack m1 = m_symbolStack m ++ [toJump X] ∧
  (∃ Y, m_symbol m2 = Some Y ∧
        name Y = name X ∧ signature Y = signature X ∧ filePath Y = filePath X ∧
        line Y = line X ∧ deps Y = deps X ∧ refs Y = refs X ∧ code Y = code X ∧
        symbolKey Y = "") ∧
  m_symbolStack m2 = m_symbolStack m ∧
  m_mode m2 = m_mode m ∧
  cmd2 = None.
Proof.
  intros HX [target Hjump]%updateSymbolMode_jump Hback.
  destruct (jumpToSymbol_Ok _ _ _ _ _ HX Hjump) as (Hstack & _ & Hmode & _).
  destruct (updateSymbolMode_back m1 _ _ Hstack) as (m2' & Hback' & Hsym & Hstack2 & Hmode2).
  rewrite Hback' in Hback. injection Hback as <- <-.
  split; [done|]. split; [|by rewrite Hmode2, Hmode].
  exists (ofJump (toJump X)). by destruct X.
Qed.

(** The jump theorem at the browser showing [detailF]. *)
Lemma jump_then_back_restores_saved_fields_witness :
  ∃ m1 cmd m2,
    m_symbol showingF = Some detailF ∧
    @updateSymbolMode plainWidgets showingF (KeyMsg "enter") = Ok (m1, Some cmd) ∧
    @updateSymbolMode plainWidgets m1 (KeyMsg "h") = Ok (m2, None) ∧
    (m_symbolStack m1 = m_symbolStack showingF ++ [toJump detailF] ∧
     (∃ Y, m_symbol m2 = Some Y ∧
           name Y = name detailF ∧ signature Y = signature detailF ∧
           filePath Y = filePath detailF ∧ line Y = line detailF ∧
           deps Y = deps detailF ∧ refs Y = refs detailF ∧ code Y = code detailF ∧
           symbolKey Y = "") ∧
     m_symbolStack m2 = m_symbolStack showingF ∧
     m_mode m2 = m_mode showingF ∧
     (None : option Cmd) = None).
Proof.
  eexists _, _, _. split; [reflexivity|]. split; [vm_compute; reflexivity|].
  split; [vm_compute; reflexivity|].
  eapply (@jump_then_back_restores_saved_fields plainWidgets showingF _ _ detailF "enter");
    [reflexivity|vm_compute; reflexivity|vm_compute; reflexivity].
Defined.

End JumpAndBack.

(** * Further properties *)

(** ** The codec on every id *)
Section CodecMore.
Import Strings StringFacts.

Lemma ContainsByte_app (s t : string) (c : ascii) :
  ContainsByte (s +:+ t) c = ContainsByte s c || ContainsByte t c.
Proof.
  induction s as [|d s IH]; str_simpl; [done|]. by rewrite IH, orb_assoc.
Qed.

Lemma ContainsByte_take (n : nat) (s : string) (c : ascii) :
  ContainsByte s c = false → ContainsByte (take n s) c = false.
Proof.
  intros Hs. rewrite <- (take_drop n s), ContainsByte_app in Hs.
  by apply orb_false_iff in Hs as [? _].
Qed.

Lemma ContainsByte_drop (n : nat) (s : string) (c : ascii) :
  ContainsByte s c = false → ContainsByte (drop n s) c = false.
Proof.
  intros Hs. rewrite <- (take_drop n s), ContainsByte_app in Hs.
  by apply orb_false_iff in Hs as [_ ?].
Qed.

Lemma ContainsByte_TrimPrefix (s p : string) (c : ascii) :
  ContainsByte s c = false → ContainsByte (TrimPrefix s p) c = false.
Proof. unfold TrimPrefix. destruct (HasPrefix s p); [apply ContainsByte_drop|done]. Qed.

Lemma ContainsByte_TrimSuffix (s suffix : string) (c : ascii) :
  ContainsByte s c = false → ContainsByte (TrimSuffix s suffix) c = false.
Proof. unfold TrimSuffix. destruct (HasSuffix s suffix); [apply ContainsByte_take|done]. Qed.

(** An id with a backtick splits at its last backtick. *)
Lemma last_tick_split (id : string) (c : ascii) :
  ContainsByte id c = true →
  ∃ pre post, id = pre +:+ String c post ∧ ContainsByte post c = false.
Proof.
  induction id as [|d id IH]; simpl; [done|].
  destruct (ContainsByte id c) eqn:E.
  - intros _. destruct (IH eq_refl) as (pre & post & -> & Hpost).
    by exists (String d pre), post.
  - rewrite orb_false_r. intros ->%Ascii.eqb_eq. by exists "", id.
Qed.

Lemma extractSymbolKey_after_tick (pre post : string) :
  ContainsByte post "`" = false →
  extractSymbolKey (pre +:+ String "`" post) = pre +:+ "`".
Proof.
  intros Hpost. unfold extractSymbolKey.
  rewrite (LastIndex_app pre post "`" Hpost). unfold len.
  destruct (Z.of_nat (String.length pre) =? -1) eqn:E; [apply Z.eqb_eq in E; lia|].
  replace (Z.to_nat (Z.of_nat (String.length pre) + 1))
    with (String.length (pre +:+ "`")) by (rewrite length_app; simpl; lia).
  replace (pre +:+ String "`" post) with ((pre +:+ "`") +:+ post)
    by (by rewrite app_assoc).
  by rewrite take_app_length.
Qed.

(** The key of an id is the id up to and with its last backtick, or the whole
    id when it has none.  Key and trimmed rest split the id: the key is a
    prefix of the id, the name is the trimmed text after the key, and taking
    the key twice is taking it once. *)
Theorem extractSymbolKey_spec (id : string) :
  (ContainsByte id "`" = false → extractSymbolKey id = id) ∧
  (ContainsByte id "`" = true →
   ∃ pre post,
     id = pre +:+ "`" +:+ post ∧ ContainsByte post "`" = false ∧
     extractSymbolKey id = pre +:+ "`" ∧
     extractSymbolName id = trimDescriptor post) ∧
  HasPrefix id (extractSymbolKey id) = true ∧
  extractSymbolKey (extractSymbolKey id) = extractSymbolKey id.
Proof.
  destruct (ContainsByte id "`") eqn:E.
  - destruct (last_tick_split id "`" E) as (pre & post & -> & Hpost).
    rewrite (extractSymbolKey_after_tick pre post Hpost).
    split; [done|]. split.
    + intros _. exists pre, post. split; [done|]. split; [done|]. split; [done|].
      exact (extractSymbolName_after_tick pre post Hpost).
    + split.
      * replace (pre +:+ String "`" post) with ((pre +:+ "`") +:+ post)
          by (by rewrite app_assoc).
        apply HasPrefix_app.
      * exact (extractSymbolKey_after_tick pre "" eq_refl).
  - assert (extractSymbolKey id = id) as Hid.
    { unfold extractSymbolKey. apply LastIndex_none in E. by rewrite E. }
    rewrite !Hid. split; [done|]. split; [done|]. split; [|done].
    rewrite <- (app_empty_r id) at 1. apply HasPrefix_app.
Qed.

(** The extracted name has no backtick whenever the id has one, and
    extracting a name from an extracted name changes nothing: a name shown by
    the browser can be looked up as it is shown. *)
Theorem extractSymbolName_idempotent (id : string) :
  (ContainsByte id "`" = true → ContainsByte (extractSymbolName id) "`" = false) ∧
  extractSymbolName (extractSymbolName id) = extractSymbolName id.
Proof.
  destruct (ContainsByte id "`") eqn:E.
  - destruct (last_tick_split id "`" E) as (pre & post & -> & Hpost).
    rewrite (extractSymbolName_after_tick pre post Hpost).
    assert (ContainsByte
              (TrimSuffix (TrimSuffix (TrimSuffix (TrimPrefix post "/") "#") ".") "()") "`"
            = false) as Hname.
    { by apply ContainsByte_TrimSuffix, ContainsByte_TrimSuffix, ContainsByte_TrimSuffix,
        ContainsByte_TrimPrefix. }
    split; [done|].
    apply LastIndex_none in Hname. unfold extractSymbolName at 1. by rewrite Hname.
  - split; [done|].
    assert (extractSymbolName id = id) as Hid.
    { unfold extractSymbolName. apply LastIndex_none in E. by rewrite E. }
    by rewrite !Hid.
Qed.

End CodecMore.

(** ** File names: what the writer produces and what the browser lists *)
Section FileNamesMore.
Import Strings StringFacts.

Lemma writerByte_plain (c : ascii) :
  writerByte c ≠ "/"%char ∧ writerByte c ≠ "."%char ∧
  writerByte c ≠ ":"%char ∧ writerByte c ≠ "-"%char.
Proof.
  destruct (Ascii.eqb_spec c "/") as [->|H1]; [done|].
  destruct (Ascii.eqb_spec c ".") as [->|H2]; [done|].
  destruct (Ascii.eqb_spec c ":") as [->|H3]; [done|].
  destruct (Ascii.eqb_spec c "-") as [->|H4]; [done|].
  unfold writerByte, subst_byte.
  apply Ascii.eqb_neq in H1 as E1. apply Ascii.eqb_neq in H2 as E2.
  apply Ascii.eqb_neq in H3 as E3. apply Ascii.eqb_neq in H4 as E4.
  repeat (first [rewrite E1|rewrite E2|rewrite E3|rewrite E4]; simpl).
  done.
Qed.

Lemma length_stripSchemes (repoID : string) :
  (String.length (stripSchemes repoID) ≤ String.length repoID)%nat.
Proof.
  unfold stripSchemes.
  pose proof (length_TrimPrefix repoID "https://") as [L1 _].
  pose proof (length_TrimPrefix (TrimPrefix repoID "https://") "http://") as [L2 _].
  pose proof (length_TrimPrefix (TrimPrefix (TrimPrefix repoID "https://") "http://") "git@")
    as [L3 _].
  lia.
Qed.

Lemma sanitizeRepoID_free (repoID : string) (c : ascii) :
  (∀ d, writerByte d ≠ c) → ContainsByte (sanitizeRepoID repoID) c = false.
Proof. intros Hc. rewrite sanitizeRepoID_bytes. by apply ContainsByte_map_bytes. Qed.

(** The sanitized id is free of the four bytes the writer replaces, whatever
    the id, and is not longer than the id.  The name of the written file
    therefore has a path separator only when the language tag has one. *)
Theorem sanitizeRepoID_plain (repoID : string) :
  ContainsByte (sanitizeRepoID repoID) "/" = false ∧
  ContainsByte (sanitizeRepoID repoID) "." = false ∧
  ContainsByte (sanitizeRepoID repoID) ":" = false ∧
  ContainsByte (sanitizeRepoID repoID) "-" = false ∧
  (String.length (sanitizeRepoID repoID) ≤ String.length repoID)%nat ∧
  (∀ lang, ContainsByte (outputFileName repoID lang) "/" = ContainsByte lang "/").
Proof.
  rewrite sanitizeRepoID_bytes.
  assert (∀ c, (∀ d, writerByte d ≠ c) →
               ContainsByte (map_bytes writerByte (stripSchemes repoID)) c = false) as Hfree.
  { intros c Hc. by apply ContainsByte_map_bytes. }
  assert (ContainsByte (map_bytes writerByte (stripSchemes repoID)) "/" = false) as Hslash.
  { apply Hfree. intros d. apply writerByte_plain. }
  split; [done|]. split; [apply Hfree; intros d; apply writerByte_plain|].
  split; [apply Hfree; intros d; apply writerByte_plain|].
  split; [apply Hfree; intros d; apply writerByte_plain|].
  split; [rewrite length_map_bytes; apply length_stripSchemes|].
  intros lang. unfold outputFileName. rewrite sanitizeRepoID_bytes.
  rewrite !ContainsByte_app, Hslash. simpl. by rewrite orb_false_r.
Qed.

Lemma app_inj_l (s x y : string) : s +:+ x = s +:+ y → x = y.
Proof. induction s as [|c s IH]; str_simpl; [done|]. intros [= ?]. by apply IH. Qed.

Lemma outputFileName_inj (repoID lang1 lang2 : string) :
  outputFileName repoID lang1 = outputFileName repoID lang2 → lang1 = lang2.
Proof.
  unfold outputFileName. intros Heq%app_inj_l%app_inj_l. by apply (app_inj_r _ _ ".rst").
Qed.

Lemma map_bytes_id (f : ascii → ascii) (s : string) :
  (∀ c, ContainsByte s c = true → f c = c) → map_bytes f s = s.
Proof.
  induction s as [|d s IH]; simpl; [done|]. intros Hf. f_equal.
  - apply Hf. by rewrite Ascii.eqb_refl.
  - apply IH. intros c Hc. apply Hf. by rewrite Hc, orb_true_r.
Qed.

(** The byte a repository name of the browser holds for a byte of a file
    name, read again by [repoToRSTFile]. *)
Lemma relist_byte (c : ascii) :
  c ≠ "."%char → c ≠ "/"%char → readerByte (subst_byte "_" "." c) = c.
Proof.
  intros H1 H2. unfold readerByte, subst_byte.
  destruct (Ascii.eqb_spec c "_") as [->|H3]; [done|].
  apply Ascii.eqb_neq in H1 as E1. apply Ascii.eqb_neq in H2 as E2.
  by rewrite E1, E2.
Qed.

Lemma relist_stem (stem : string) :
  ContainsByte stem "." = false → ContainsByte stem "/" = false →
  repoToRSTFile (rstFileToRepoName (stem +:+ ".go.rst")) = stem +:+ ".go.rst".
Proof.
  intros Hdot Hslash. unfold rstFileToRepoName.
  rewrite TrimSuffix_app, repoToRSTFile_bytes, ReplaceAll_map, map_bytes_compose.
  f_equal. apply map_bytes_id. intros c Hc. apply relist_byte; intros ->; congruence.
Qed.

(** The browser names a repository after a file of the index directory and
    computes the file to read from that name.  For a file the writer wrote,
    the file it reads is the file it listed exactly when the language of the
    group is "go"; for any other language it reads a file of another name. *)
Theorem browser_rereads_listed_file (repoID lang : string) :
  repoToRSTFile (rstFileToRepoName (outputFileName repoID lang)) = outputFileName repoID lang
  ↔ lang = "go".
Proof.
  split.
  - rewrite repoToRSTFile_bytes. unfold outputFileName. intros Heq.
    apply (first_dot_inj _ _ "go.rst" (lang +:+ ".rst")) in Heq as [_ Hl].
    + symmetry. by apply (app_inj_r _ _ ".rst").
    + apply ContainsByte_map_bytes, readerByte_not_dot.
    + apply sanitizeRepoID_free. intros d. apply writerByte_plain.
  - intros ->. unfold outputFileName.
    apply relist_stem; apply sanitizeRepoID_free; intros d; apply writerByte_plain.
Qed.

End FileNamesMore.

(** ** Repository id detection *)
Section DetectRepoIDFacts.
Context `{Bindings}.
Import Strings StringFacts.

Lemma cutByte_Some (s before after : string) (sep : ascii) :
  cutByte s sep = Some (before, after) →
  s = before +:+ String sep after ∧ ContainsByte before sep = false.
Proof.
  revert before. induction s as [|c s IH]; intros before; simpl; [done|].
  destruct (Ascii.eqb_spec c sep) as [->|Hne].
  - by intros [= <- <-].
  - destruct (cutByte s sep) as [[b a]|]; [|done]. intros [= <- <-].
    destruct (IH b eq_refl) as [-> Hb]. split; [done|]. simpl.
    rewrite Hb, orb_false_r. by apply Ascii.eqb_neq.
Qed.

Lemma cutByte_None (s : string) (sep : ascii) :
  cutByte s sep = None → ContainsByte s sep = false.
Proof.
  induction s as [|c s IH]; simpl; [done|].
  destruct (Ascii.eqb c sep); [done|].
  destruct (cutByte s sep) as [[b a]|]; [done|]. intros _. by rewrite IH.
Qed.

Lemma cutByte_app (before after : string) (sep : ascii) :
  ContainsByte before sep = false →
  cutByte (before +:+ String sep after) sep = Some (before, after).
Proof.
  induction before as [|c before IH]; str_simpl.
  - intros _. by rewrite Ascii.eqb_refl.
  - intros [Hc Hb]%orb_false_iff. by rewrite Hc, (IH Hb).
Qed.

Lemma moduleOf_no_space (symbol module : string) :
  moduleOf symbol = Some module → ContainsByte module " " = false.
Proof.
  unfold moduleOf. destruct (_ || _); [done|]. simpl.
  destruct (cutByte symbol " ") as [[f1 r1]|] eqn:E1; [|done].
  destruct (cutByte r1 " ") as [[f2 r2]|] eqn:E2; [|done].
  destruct (cutByte r2 " ") as [[f3 r3]|] eqn:E3.
  - intros [= <-]. by apply cutByte_Some in E3 as [_ ?].
  - intros [= <-]. by apply cutByte_None in E3.
Qed.

Lemma detectInSymbols_no_space (syms : list SymbolInformation) (module : string) :
  detectInSymbols syms = Some module → ContainsByte module " " = false.
Proof.
  induction syms as [|sym syms IH]; simpl; [done|].
  destruct (moduleOf (si_Symbol sym)) as [m|] eqn:E; [|done].
  intros [= <-]. by apply moduleOf_no_space in E.
Qed.

Lemma detectInDocuments_flat (docs : list scip.Document) :
  detectInDocuments docs = detectInSymbols (flat_map d_Symbols docs).
Proof.
  induction docs as [|doc docs IH]; simpl; [done|]. rewrite IH.
  induction (d_Symbols doc) as [|sym syms IHs]; simpl; [done|].
  by destruct (moduleOf (si_Symbol sym)).
Qed.

Lemma moduleOf_standard (tool manager module rest : string) :
  ContainsByte tool " " = false → ContainsByte manager " " = false →
  ContainsByte module " " = false →
  IsLocalSymbol (tool +:+ " " +:+ manager +:+ " " +:+ module +:+ " " +:+ rest) = false →
  moduleOf (tool +:+ " " +:+ manager +:+ " " +:+ module +:+ " " +:+ rest) = Some module.
Proof.
  intros Ht Hm Hmod Hlocal. unfold moduleOf. rewrite Hlocal, orb_false_r.
  assert (String.eqb (tool +:+ " " +:+ manager +:+ " " +:+ module +:+ " " +:+ rest) "" = false)
    as ->.
  { apply String.eqb_neq. by destruct tool. }
  rewrite ?String_app_cons, ?String_app_nil. simpl.
  rewrite (cutByte_app tool _ " " Ht), (cutByte_app manager _ " " Hm).
  by rewrite (cutByte_app module _ " " Hmod).
Qed.

(** The detected repository id holds no space.  When every declared symbol
    before [sym], in the order of the documents, is empty or local, and the
    id of [sym] is not local and is four fields or more separated by single
    spaces, the detected id is its third field.  [parseMain] never builds with
    an empty id: an id given on the command line is used as it is, and a
    failed or empty detection is the error. *)
Theorem detectRepoID_third_field (docs : list scip.Document) :
  ContainsByte (detectRepoID docs) " " = false ∧
  (∀ skipped sym later tool manager module rest,
     flat_map d_Symbols docs = skipped ++ sym :: later →
     Forall (λ s, si_Symbol s = "" ∨ IsLocalSymbol (si_Symbol s) = true) skipped →
     si_Symbol sym = tool +:+ " " +:+ manager +:+ " " +:+ module +:+ " " +:+ rest →
     ContainsByte tool " " = false → ContainsByte manager " " = false →
     ContainsByte module " " = false →
     IsLocalSymbol (si_Symbol sym) = false →
     detectRepoID docs = module) ∧
  (∀ repoID r, resolveRepoID repoID docs = Some r →
     r ≠ "" ∧ (repoID ≠ "" → r = repoID) ∧ (repoID = "" → r = detectRepoID docs)).
Proof.
  split; [|split].
  - unfold detectRepoID. rewrite detectInDocuments_flat.
    destruct (detectInSymbols _) as [m|] eqn:E; [|done].
    by apply detectInSymbols_no_space in E.
  - intros skipped sym later tool manager module rest Hflat Hskip Hid Ht Hm Hmod Hlocal.
    unfold detectRepoID. rewrite detectInDocuments_flat, Hflat.
    clear Hflat. induction Hskip as [|s skipped Hs _ IH]; simpl.
    + rewrite Hid in *. by rewrite moduleOf_standard.
    + assert (moduleOf (si_Symbol s) = None) as ->; [|done].
      unfold moduleOf. destruct Hs as [-> | ->]; [done|by rewrite orb_true_r].
  - intros repoID r. unfold resolveRepoID.
    destruct (String.eqb_spec repoID "") as [->|Hne].
    + destruct (String.eqb_spec (detectRepoID docs) "") as [|Hd]; [done|].
      intros [= <-]. done.
    + intros [= <-]. done.
Qed.

End DetectRepoIDFacts.

(** ** Project root and signatures *)
Section SignatureFacts.
Import Strings StringFacts.

Lemma HasPrefix_app_app (p s q : string) : HasPrefix (p +:+ s) (p +:+ q) = HasPrefix s q.
Proof. induction p as [|c p IH]; str_simpl; [done|]. by rewrite Ascii.eqb_refl. Qed.

Lemma HasPrefix_shorter (s p q : string) :
  HasPrefix s (p +:+ q) = true → HasPrefix s p = true.
Proof.
  revert s. induction p as [|c p IH]; intros s; str_simpl; [done|].
  destruct s as [|d s]; [done|]. destruct (Ascii.eqb c d); [apply IH|done].
Qed.

(** A file URL with an empty authority or with the authority "localhost"
    gives its absolute path; a URL with one slash after the scheme loses that
    slash; a string that does not start with "file:/" is returned as it is;
    and the result is always the end of the URL. *)
Theorem stripFilePrefix_forms (url : string) :
  stripFilePrefix ("file://" +:+ "/" +:+ url) = "/" +:+ url ∧
  stripFilePrefix ("file://localhost/" +:+ url) = "/" +:+ url ∧
  (HasPrefix url "/" = false → stripFilePrefix ("file:/" +:+ url) = url) ∧
  (HasPrefix url "file:/" = false → stripFilePrefix url = url) ∧
  (∃ scheme, url = scheme +:+ stripFilePrefix url).
Proof.
  split; [reflexivity|]. split; [reflexivity|]. split; [|split].
  - intros Hslash.
    assert (∀ q, HasPrefix url (String "/" q) = false) as Hq.
    { intros q. destruct url as [|c url]; [done|]. revert Hslash.
      change (HasPrefix (String c url) "/") with (if Ascii.eqb "/" c then true else false).
      change (HasPrefix (String c url) (String "/" q))
        with (if Ascii.eqb "/" c then HasPrefix url q else false).
      by destruct (Ascii.eqb "/" c). }
    unfold stripFilePrefix.
    change "file:///" with ("file:/" +:+ "//").
    change "file://localhost/" with ("file:/" +:+ "/localhost/").
    change "file://" with ("file:/" +:+ "/").
    rewrite !HasPrefix_app_app, !Hq.
    rewrite (HasPrefix_app "file:/" url).
    apply (drop_app_length "file:/").
  - intros Hp. unfold stripFilePrefix.
    assert (∀ p, HasPrefix url ("file:/" +:+ p) = false) as Hlonger.
    { intros p. destruct (HasPrefix url ("file:/" +:+ p)) eqn:E; [|done].
      apply HasPrefix_shorter in E. congruence. }
    rewrite (Hlonger "//" : HasPrefix url "file:///" = false).
    rewrite (Hlonger "/localhost/" : HasPrefix url "file://localhost/" = false).
    by rewrite (Hlonger "/" : HasPrefix url "file://" = false), Hp.
  - unfold stripFilePrefix.
    repeat match goal with |- context [if ?c then _ else _] => destruct c end;
      first [by exists "" | eexists; symmetry; apply take_drop].
Qed.

Lemma isGoFence_goFence (body : string) : isGoFence (goFence body) = true.
Proof.
  unfold isGoFence, goFence. apply andb_true_iff. split.
  - rewrite <- app_assoc. apply HasPrefix_app.
  - replace ("```go" +:+ nl +:+ body +:+ nl +:+ "```")
      with (("```go" +:+ nl +:+ body) +:+ (nl +:+ "```")) by (by rewrite !app_assoc).
    apply HasSuffix_app.
Qed.

Lemma slice_goFence (body : string) :
  slice (goFence body) 6 (len (goFence body) - 4) = Some body.
Proof.
  unfold goFence.
  replace ("```go" +:+ nl +:+ body +:+ nl +:+ "```")
    with (("```go" +:+ nl) +:+ body +:+ (nl +:+ "```")) by (by rewrite !app_assoc).
  pose proof (slice_exact ("```go" +:+ nl) body (nl +:+ "```")) as Hs.
  replace (len (("```go" +:+ nl) +:+ body +:+ nl +:+ "```") - 4)
    with (len ("```go" +:+ nl) + len body); [done|].
  unfold len. rewrite !length_app. simpl. lia.
Qed.

Lemma firstCodeBlock_cons (d : string) (docs : list string) :
  firstCodeBlock (d :: docs) =
    if isGoFence d then Some (ofSlice (slice d 6 (len d - 4))) else firstCodeBlock docs.
Proof. reflexivity. Qed.

Lemma firstCodeBlock_skip (before after : list string) :
  Forall (λ d, isGoFence d = false) before →
  firstCodeBlock (before ++ after) = firstCodeBlock after.
Proof.
  induction 1 as [|d before Hd _ IH]; [done|].
  by rewrite <- app_comm_cons, firstCodeBlock_cons, Hd.
Qed.

Lemma firstCodeBlock_None (docs : list string) :
  firstCodeBlock docs = None ↔ Forall (λ d, isGoFence d = false) docs.
Proof.
  induction docs as [|d docs IH]; [by split|].
  rewrite firstCodeBlock_cons. destruct (isGoFence d) eqn:E.
  - split; [done|]. intros Hall. inversion Hall; congruence.
  - rewrite IH. split; [by constructor|]. by inversion 1.
Qed.

(** A fenced string too short to hold both markers apart is the empty
    fence. *)
Lemma short_fence (doc : string) :
  isGoFence doc = true → slice doc 6 (len doc - 4) = None → doc = emptyFence.
Proof.
  unfold isGoFence. intros [Hp Hs]%andb_true_iff Hslice.
  apply HasPrefix_inv in Hp.
  remember (drop (String.length ("```go" +:+ nl)) doc) as x eqn:Hx. clear Hx. subst doc.
  destruct x as [|a [|b [|c [|d x]]]]; try done.
  - unfold HasSuffix in Hs. apply andb_true_iff in Hs as [_ Hs].
    apply String.eqb_eq in Hs. vm_compute in Hs. by injection Hs as -> -> ->.
  - exfalso. unfold slice, len in Hslice. rewrite !length_app in Hslice.
    revert Hslice. simpl String.length.
    destruct (_ && _ && _) eqn:E; [done|]. intros _.
    rewrite !andb_false_iff, !Z.leb_gt in E. lia.
Qed.

Lemma firstCodeBlock_Panicked_inv (docs : list string) (p : Panic) :
  firstCodeBlock docs = Some (Panicked p) →
  ∃ before after,
    docs = before ++ emptyFence :: after ∧ Forall (λ d, isGoFence d = false) before.
Proof.
  induction docs as [|d docs IH]; [done|].
  rewrite firstCodeBlock_cons. destruct (isGoFence d) eqn:E.
  - intros [= Hs]. destruct (slice d 6 (len d - 4)) eqn:Hsl; [done|].
    exists [], docs. split; [|done]. simpl. f_equal. by apply short_fence.
  - intros (before & after & -> & Hb)%IH. exists (d :: before), after.
    split; [done|by constructor].
Qed.

(** The precedence of [buildSignature]: a non-empty signature text wins; else
    the first documentation string that is a Go fence gives its inner text,
    byte for byte; else the signature is the prefix of the kind and the
    display name, or the extracted name when there is no display name.  It
    panics exactly when there is no signature text and the first fenced
    documentation string is the empty fence. *)
Theorem buildSignature_precedence (sym : SymbolInformation) :
  (∀ text, si_SignatureDocumentation sym = Some text → text ≠ "" →
           buildSignature sym = Ok text) ∧
  (si_SignatureDocumentation sym = None ∨ si_SignatureDocumentation sym = Some "" →
   (∀ before body after,
      si_Documentation sym = before ++ goFence body :: after →
      Forall (λ d, isGoFence d = false) before →
      buildSignature sym = Ok body) ∧
   (Forall (λ d, isGoFence d = false) (si_Documentation sym) →
    buildSignature sym =
      Ok (kindPrefix (si_Kind sym) +:+
          (if String.eqb (si_DisplayName sym) ""
           then extractSymbolName (si_Symbol sym) else si_DisplayName sym)))) ∧
  (∀ p, buildSignature sym = Panicked p ↔
        p = slice_bounds_out_of_range ∧
        (si_SignatureDocumentation sym = None ∨ si_SignatureDocumentation sym = Some "") ∧
        ∃ before after,
          si_Documentation sym = before ++ emptyFence :: after ∧
          Forall (λ d, isGoFence d = false) before).
Proof.
  unfold buildSignature. split; [|split].
  - intros text -> Htext. by destruct text.
  - intros Hsig.
    assert (match si_SignatureDocumentation sym with
            | Some (String c text) => Ok (String c text)
            | _ =>
                match firstCodeBlock (si_Documentation sym) with
                | Some content => content
                | None =>
                    Ok (kindPrefix (si_Kind sym) +:+
                        (if String.eqb (si_DisplayName sym) ""
                         then extractSymbolName (si_Symbol sym) else si_DisplayName sym))
                end
            end =
            match firstCodeBlock (si_Documentation sym) with
            | Some content => content
            | None =>
                Ok (kindPrefix (si_Kind sym) +:+
                    (if String.eqb (si_DisplayName sym) ""
                     then extractSymbolName (si_Symbol sym) else si_DisplayName sym))
            end) as -> by (by destruct Hsig as [-> | ->]).
    split.
    + intros before body after -> Hbefore. rewrite firstCodeBlock_skip by done.
      by rewrite firstCodeBlock_cons, isGoFence_goFence, slice_goFence.
    + intros Hnone%firstCodeBlock_None. by rewrite Hnone.
  - intros p. split.
    + destruct (si_SignatureDocumentation sym) as [[|c text]|] eqn:Hsig; [|done|].
      all: destruct (firstCodeBlock (si_Documentation sym)) as [content|] eqn:Hfirst; [|done].
      all: intros ->; split; [by apply firstCodeBlock_Panicked in Hfirst|].
      all: split; [tauto|].
      all: by apply (firstCodeBlock_Panicked_inv _ p).
    + intros (-> & Hsig & before & after & Hdocs & Hbefore).
      assert (firstCodeBlock (si_Documentation sym)
              = Some (Panicked slice_bounds_out_of_range)) as Hfirst.
      { rewrite Hdocs, firstCodeBlock_skip by done. reflexivity. }
      rewrite Hfirst. by destruct Hsig as [-> | ->].
Qed.

End SignatureFacts.

(** ** Language groups *)
Section Groups.
Context `{Bindings} `{Host}.

Lemma groupByLanguage_foldl (docs : list scip.Document)
    (langDocs : gmap string (list scip.Document)) (lang : string) :
  foldl (λ (langDocs : gmap string (list scip.Document)) (doc : scip.Document),
           let lang := d_Language doc in
           let lang := if String.eqb lang "" then "unknown" else lang in
           <[lang := default [] (langDocs !! lang) ++ [doc]]> langDocs)
        langDocs docs !! lang =
    match filter (λ doc, groupKey doc = lang) docs with
    | [] => langDocs !! lang
    | g => Some (default [] (langDocs !! lang) ++ g)
    end.
Proof.
  revert langDocs. induction docs as [|doc docs IH]; intros langDocs; [done|].
  simpl. rewrite IH, filter_cons. fold (groupKey doc).
  destruct (decide (groupKey doc = lang)) as [<-|Hne].
  - rewrite lookup_insert_eq. simpl.
    destruct (filter _ docs) as [|d g]; [done|]. by rewrite <- app_assoc.
  - by rewrite lookup_insert_ne.
Qed.

Lemma groupByLanguage_lookup (docs : list scip.Document) (lang : string) :
  groupByLanguage docs !! lang =
    match filter (λ doc, groupKey doc = lang) docs with
    | [] => None
    | g => Some g
    end.
Proof.
  unfold groupByLanguage. rewrite groupByLanguage_foldl, lookup_empty. done.
Qed.

(** The language map of [parseMain] holds, under each key, the documents
    filed under that key in their input order, and no key without a
    document; every document is in the group of its key and in no other.
    Documents without a language and documents of the language "unknown"
    share a group. *)
Theorem groupByLanguage_filter (docs : list scip.Document) (lang : string) :
  groupByLanguage docs !! lang =
    match filter (λ doc, groupKey doc = lang) docs with
    | [] => None
    | g => Some g
    end ∧
  (∀ doc, doc ∈ docs →
     ∃ g, groupByLanguage docs !! groupKey doc = Some g ∧ doc ∈ g ∧
          ∀ lang' g', groupByLanguage docs !! lang' = Some g' → doc ∈ g' →
                      groupKey doc = lang') ∧
  (∀ doc, d_Language doc = "" ∨ d_Language doc = "unknown" ↔ groupKey doc = "unknown").
Proof.
  split; [apply groupByLanguage_lookup|]. split.
  - intros doc Hdoc.
    assert (doc ∈ filter (λ d, groupKey d = groupKey doc) docs) as Hin
      by (by apply list_elem_of_filter).
    rewrite groupByLanguage_lookup.
    destruct (filter (λ d, groupKey d = groupKey doc) docs) as [|d g] eqn:E;
      [by apply elem_of_nil in Hin|].
    exists (d :: g). split; [done|]. split; [done|].
    intros lang' g'. rewrite groupByLanguage_lookup.
    destruct (filter (λ d, groupKey d = lang') docs) as [|d' g''] eqn:E'; [done|].
    intros [= <-] Hin'. rewrite <- E' in Hin'.
    by apply list_elem_of_filter in Hin' as [? _].
  - intros doc. unfold groupKey. destruct (String.eqb_spec (d_Language doc) "") as [->|Hne].
    + split; [done|by left].
    + split; [by intros [?|?]|by right].
Qed.

(** The loop body of [parseMain] names the file after the key of the group
    and stamps the table with the repository id and with the language of the
    first document of the group: the key itself, except in the group
    "unknown", where it is empty or "unknown". *)
Theorem processLanguage_metadata (indexDocs : list scip.Document) (lang : string)
    (docs : list scip.Document) (repoID projectRoot : string) (fileName : string)
    (t : rst.RST rst.ptr * list rst.Symbol) :
  groupByLanguage indexDocs !! lang = Some docs →
  processLanguage repoID projectRoot lang docs = Ok (fileName, t) →
  fileName = outputFileName repoID lang ∧
  rst.Repo (rst.Metadata_ t.1) = repoID ∧
  (lang ≠ "unknown" → rst.Language (rst.Metadata_ t.1) = lang) ∧
  (lang = "unknown" →
   rst.Language (rst.Metadata_ t.1) = "" ∨ rst.Language (rst.Metadata_ t.1) = "unknown").
Proof.
  rewrite groupByLanguage_lookup. intros Hgroup. unfold processLanguage, buildRST.
  destruct docs as [|doc0 docs]; [done|].
  destruct (runBuilder _ _) as [b|p]; [|done]. simpl. intros [= <- <-]. simpl.
  split; [done|]. split; [done|].
  assert (groupKey doc0 = lang) as Hkey.
  { destruct (filter _ indexDocs) as [|d g] eqn:E; [done|]. injection Hgroup as -> ->.
    assert (doc0 ∈ filter (λ doc, groupKey doc = lang) indexDocs) as Hin
      by (rewrite E; by left).
    by apply list_elem_of_filter in Hin as [? _]. }
  unfold groupKey in Hkey.
  destruct (String.eqb_spec (d_Language doc0) "") as [He|Hne].
  - subst lang. split; [done|]. intros _. by left.
  - subst lang. split; [done|]. intros ->. by right.
Qed.

End Groups.

Lemma processLanguage_metadata_witness :
  ∃ t,
    groupByLanguage [Examples.docF; Examples.docMain] !! "go"
      = Some [Examples.docF; Examples.docMain] ∧
    @processLanguage scipBindings noFiles "m" "" "go" [Examples.docF; Examples.docMain]
      = Ok ("m.go.rst", t) ∧
    rst.Language (rst.Metadata_ t.1) = "go".
Proof.
  eexists. split; [vm_compute; reflexivity|]. split; [vm_compute; reflexivity|].
  eapply (@processLanguage_metadata scipBindings noFiles
            [Examples.docF; Examples.docMain] "go" [Examples.docF; Examples.docMain]
            "m" "" "m.go.rst");
    [vm_compute; reflexivity|vm_compute; reflexivity|done].
Defined.


(** ** More invariants of the builder *)
Section BuilderMore.
Context `{Bindings} `{Host}.

Lemma foldl_preserves {St E : Type} (P : St → Prop) (step : St → E → St) (l : list E) :
  (∀ h e, P h → P (step h e)) → ∀ h, P h → P (foldl step h l).
Proof.
  intros Hstep. induction l as [|e l IH]; intros h Hh; simpl; [done|].
  apply IH, Hstep, Hh.
Qed.

Lemma declareSymbols_dom (occIndex : gmap string occInfo) (doc : scip.Document)
    (projectRoot : string) (b : builder) (syms : list SymbolInformation)
    (st : gmap string rst.ptr * builder) :
  foldlM (declareSymbol occIndex doc projectRoot) (∅, b) syms = Ok st →
  ∀ id, is_Some (st.1 !! id) ↔ id ∈ keptIds syms.
Proof.
  apply (foldlM_invariant
           (λ seen (st : gmap string rst.ptr * builder),
              ∀ id, is_Some (st.1 !! id) ↔ id ∈ keptIds seen)).
  - intros id. simpl. rewrite lookup_empty. split; [by intros [? ?]|].
    by intros ?%elem_of_nil.
  - intros seen sym [syms1 b1] st2 Hinv. unfold declareSymbol.
    intros Hstep id. rewrite keptIds_snoc.
    destruct (IsLocalSymbol (si_Symbol sym)) eqn:Hlocal.
    + injection Hstep as <-. rewrite app_nil_r. apply Hinv.
    + destruct (newSymbol _ _ _ _) as [rstSym|q]; [|done]. simpl in Hstep.
      injection Hstep as <-. simpl. rewrite elem_of_app, list_elem_of_singleton.
      rewrite lookup_insert. destruct (decide (si_Symbol sym = id)) as [->|Hne].
      * split; [by right|by eexists].
      * rewrite (Hinv id). simpl. split; [by left|]. intros [?|?]; [done|congruence].
Qed.

Lemma lastWithPath_snoc (seen : list scip.Document) (doc : scip.Document) (path : string) :
  lastWithPath (seen ++ [doc]) path =
    if decide (d_RelativePath doc = path) then Some doc else lastWithPath seen path.
Proof.
  unfold lastWithPath. rewrite filter_app, filter_cons, filter_nil.
  destruct (decide (d_RelativePath doc = path)).
  - apply last_snoc.
  - by rewrite app_nil_r.
Qed.

Lemma indexDocument_more (projectRoot : string) (seen : list scip.Document)
    (doc : scip.Document) (b b' : builder) :
  firstPassInv seen b ∧ entriesKeyed b ∧ documentsOf seen b →
  indexDocument projectRoot b doc = Ok b' →
  firstPassInv (seen ++ [doc]) b' ∧ entriesKeyed b' ∧ documentsOf (seen ++ [doc]) b'.
Proof.
  intros (Hinv & Hkeyed & Hdocs) Hstep.
  split; [by apply (indexDocument_step projectRoot seen doc b)|].
  destruct Hinv as (Hix & Hedges & _). revert Hstep. unfold indexDocument.
  destruct (foldlM _ _ _) as [[syms b1]|q] eqn:Hfold; [|done].
  simpl. intros [= <-].
  pose proof (declareSymbols_dom _ _ _ _ _ _ Hfold) as Hdom.
  apply declareSymbols_inv in Hfold as (Hsame & Hext & _ & Hix1 & _ & Hsyms); [|done..].
  simpl in *. split.
  - intros path d id p. simpl. rewrite Hsame, lookup_insert.
    destruct (decide (d_RelativePath doc = path)) as [<-|_].
    + intros [= <-]. simpl. intros Hp. split; [done|].
      apply Hsyms, Hix1 in Hp as (sym & ? & ? & _). by exists sym.
    + intros Hd Hp. destruct (Hkeyed path d id p Hd Hp) as [? (sym & Hsym & ?)].
      split; [done|]. exists sym. split; [by apply Hext|done].
  - intros path. rewrite lastWithPath_snoc. simpl. rewrite Hsame, lookup_insert.
    destruct (decide (d_RelativePath doc = path)) as [Heq|_].
    + eexists. split; [done|]. simpl. split; [done|]. apply Hdom.
    + apply Hdocs.
Qed.

Lemma indexDocuments_more (docs : list scip.Document) (projectRoot : string) (b : builder) :
  indexDocuments docs projectRoot = Ok b →
  firstPassInv docs b ∧ entriesKeyed b ∧ documentsOf docs b.
Proof.
  unfold indexDocuments.
  apply (foldlM_invariant
           (λ seen b, firstPassInv seen b ∧ entriesKeyed b ∧ documentsOf seen b)).
  - split; [|split].
    + unfold firstPassInv, emptyBuilder. simpl.
      repeat split; intros *; by rewrite ?lookup_empty.
    + intros path d id p. simpl. by rewrite lookup_empty.
    + intros path. simpl. by rewrite lookup_empty.
  - intros seen doc b1 b2. apply indexDocument_more.
Qed.

(** The second pass leaves the ids the objects carry as they are. *)
Lemma crossReference_ids (symbolIndex : gmap string rst.ptr) (occ otherOcc : Occurrence)
    (h : list rst.Symbol) :
  rst.Symbol_ <$> crossReference symbolIndex occ h otherOcc = rst.Symbol_ <$> h.
Proof.
  assert (∀ (f : rst.Symbol → rst.Symbol) q (l : list rst.Symbol),
            (∀ s, rst.Symbol_ (f s) = rst.Symbol_ s) →
            rst.Symbol_ <$> alter f q l = rst.Symbol_ <$> l) as Halter.
  { intros f q l Hf. apply list_eq. intros i. rewrite !list_lookup_fmap.
    destruct (decide (q = i)) as [->|Hne].
    - rewrite list_lookup_alter_eq. destruct (l !! i); simpl; [by rewrite Hf|done].
    - by rewrite list_lookup_alter_ne. }
  unfold crossReference, linkSymbols. destruct (inScope occ otherOcc); [|done].
  destruct (symbolIndex !! o_Symbol otherOcc); rewrite ?Halter by done;
    destruct (symbolIndex !! o_Symbol occ); try done;
    destruct (negb _); by rewrite ?Halter.
Qed.

Lemma secondPass_ids (symbolIndex : gmap string rst.ptr) (docs : list scip.Document)
    (h : list rst.Symbol) :
  rst.Symbol_ <$> foldl (crossReferenceDocument symbolIndex) h docs = rst.Symbol_ <$> h.
Proof.
  apply (foldl_preserves (λ h', rst.Symbol_ <$> h' = rst.Symbol_ <$> h)); [|done].
  intros h1 doc <-. unfold crossReferenceDocument.
  apply (foldl_preserves (λ h', rst.Symbol_ <$> h' = rst.Symbol_ <$> h1)); [|done].
  intros h2 occ <-.
  apply (foldl_preserves (λ h', rst.Symbol_ <$> h' = rst.Symbol_ <$> h2)); [|done].
  intros h3 otherOcc <-. apply crossReference_ids.
Qed.

Lemma NoDup_appendUnique (l : list string) (x : string) :
  NoDup l → NoDup (appendUnique l x).
Proof.
  intros Hl. unfold appendUnique. destruct (existsb (String.eqb x) l) eqn:E; [done|].
  apply NoDup_app. split; [done|]. split; [|apply NoDup_singleton].
  intros y Hy ->%list_elem_of_singleton.
  assert (existsb (String.eqb x) l = true) as Hex; [|congruence].
  apply existsb_exists. exists x. split; [by apply list_elem_of_In|apply String.eqb_refl].
Qed.

Lemma crossReference_NoDup (symbolIndex : gmap string rst.ptr) (occ otherOcc : Occurrence)
    (h : list rst.Symbol) :
  edgeListsNoDup h → edgeListsNoDup (crossReference symbolIndex occ h otherOcc).
Proof.
  assert (∀ (f : rst.Symbol → rst.Symbol) q (l : list rst.Symbol),
            (∀ s, NoDup (rst.DependenceOn s) ∧ NoDup (rst.ReferenceBy s) →
                  NoDup (rst.DependenceOn (f s)) ∧ NoDup (rst.ReferenceBy (f s))) →
            edgeListsNoDup l → edgeListsNoDup (alter f q l)) as Halter.
  { intros f q l Hf Hl p sym. destruct (decide (q = p)) as [->|Hne].
    - rewrite list_lookup_alter_eq. intros (s & Hs & ->)%fmap_Some. by apply Hf, (Hl p).
    - rewrite list_lookup_alter_ne by done. apply Hl. }
  assert (∀ x s, NoDup (rst.DependenceOn s) ∧ NoDup (rst.ReferenceBy s) →
                 NoDup (rst.DependenceOn (addDependenceOn x s)) ∧
                 NoDup (rst.ReferenceBy (addDependenceOn x s))) as Hdep.
  { intros x s [? ?]. split; [by apply NoDup_appendUnique|done]. }
  assert (∀ x s, NoDup (rst.DependenceOn s) ∧ NoDup (rst.ReferenceBy s) →
                 NoDup (rst.DependenceOn (addReferenceBy x s)) ∧
                 NoDup (rst.ReferenceBy (addReferenceBy x s))) as Href.
  { intros x s [? ?]. split; [done|by apply NoDup_appendUnique]. }
  intros Hh. unfold crossReference, linkSymbols. destruct (inScope occ otherOcc); [|done].
  destruct (symbolIndex !! o_Symbol otherOcc); [apply Halter; [apply Href|]|];
    destruct (symbolIndex !! o_Symbol occ); try done;
    destruct (negb _); try done; apply Halter; auto.
Qed.

Lemma secondPass_NoDup (symbolIndex : gmap string rst.ptr) (docs : list scip.Document)
    (h : list rst.Symbol) :
  edgeListsNoDup h → edgeListsNoDup (foldl (crossReferenceDocument symbolIndex) h docs).
Proof.
  apply foldl_preserves. intros h1 doc Hh1. unfold crossReferenceDocument.
  revert Hh1. apply foldl_preserves. intros h2 occ. apply foldl_preserves.
  intros h3 otherOcc. apply crossReference_NoDup.
Qed.

(** The state of the builder when it returns, read through the invariants of
    both passes. *)
Lemma runBuilder_more (docs : list scip.Document) (projectRoot : string) (b : builder) :
  runBuilder docs projectRoot = Ok b →
  (∀ id p, symbolIndex b !! id = Some p →
     ∃ sym, heap b !! p = Some sym ∧ rst.Symbol_ sym = id ∧ IsLocalSymbol id = false) ∧
  entriesKeyed b ∧ documentsOf docs b ∧ edgeListsNoDup (heap b) ∧
  (∀ path d id p, documents b !! path = Some d → rst.Symbols d !! id = Some p →
     IsLocalSymbol id = false).
Proof.
  intros (b1 & Hb1 & Hd & Hi & Hh)%runBuilder_Ok.
  apply indexDocuments_more in Hb1 as ((Hix & Hedges & Hdecl & Hentries) & Hkeyed & Hdocs).
  pose proof (secondPass_ids (symbolIndex b1) docs (heap b1)) as Hids. rewrite <- Hh in Hids.
  assert (∀ p sym1, heap b1 !! p = Some sym1 →
                    ∃ sym, heap b !! p = Some sym ∧ rst.Symbol_ sym = rst.Symbol_ sym1)
    as Hsame.
  { intros p sym1 Hp. pose proof (f_equal (λ l, l !! p) Hids) as Hl. simpl in Hl.
    rewrite !list_lookup_fmap, Hp in Hl. simpl in Hl.
    apply fmap_Some in Hl as (sym & ? & ?). by exists sym. }
  split; [|split; [|split; [|split]]].
  - intros id p. rewrite Hi. intros (sym1 & Hp & <- & ?)%Hix.
    destruct (Hsame p sym1 Hp) as (sym & ? & ?). by exists sym.
  - intros path d id p. rewrite Hd. intros Hdoc Hp.
    destruct (Hkeyed path d id p Hdoc Hp) as [? (sym1 & Hs1 & <-)]. split; [done|].
    destruct (Hsame p sym1 Hs1) as (sym & ? & ?). by exists sym.
  - intros path. specialize (Hdocs path). by rewrite Hd.
  - rewrite Hh. apply secondPass_NoDup. intros p sym Hp.
    destruct (Hedges p sym Hp) as [-> ->]. split; apply NoDup_nil_2.
  - intros path d id p. rewrite Hd. intros Hdoc Hp.
    destruct (Hentries path d id p Hdoc Hp) as [_ [Hidx|Hre]].
    + by apply Hix in Hidx as (? & _ & _ & ?).
    + destruct Hre as (l1 & d1 & l2 & d2 & l3 & _ & Hin & _).
      unfold declaredIds in Hin. by apply list_elem_of_filter in Hin as [? _].
Qed.

(** No local id is the key of an entry or listed in an edge list, whatever
    the input: local declarations are skipped, the scopes of local symbols
    are skipped, and a local use is never listed. *)
Theorem table_has_no_local_id (docs : list scip.Document) (repoID projectRoot : string)
    (t : rst.RST rst.Symbol) (path id : string) (sym : rst.Symbol) :
  builtRST docs repoID projectRoot = Ok t →
  entry t path id = Some sym →
  IsLocalSymbol id = false ∧
  (∀ x, x ∈ rst.DependenceOn sym ∨ x ∈ rst.ReferenceBy sym → IsLocalSymbol x = false).
Proof.
  intros Ht He.
  destruct (builtRST_entry _ _ _ _ _ _ _ Ht He) as (b & d & p & Hrun & Hd & Hp & Hsym).
  destruct (runBuilder_more _ _ _ Hrun) as (_ & _ & _ & _ & Hlocal).
  split; [by apply (Hlocal path d id p)|].
  intros x [Hx|Hx].
  - assert (dependsOn (heap b) p x) as Hdep by (by exists sym).
    by apply (runBuilder_dependsOn docs projectRoot b p x Hrun) in Hdep as (_ & _ & _ & ?).
  - assert (referencedBy (heap b) p x) as Href by (by exists sym).
    apply (runBuilder_referencedBy docs projectRoot b p x Hrun) in Href
      as (o & _ & (doc & occ & otherOcc & _ & _ & _ & Hin & <- & _)).
    unfold inScope in Hin. apply andb_true_iff in Hin as [Hloc _].
    by apply negb_true_iff in Hloc.
Qed.

(** An entry holds the object that carries its id, in the document of its
    path; its two edge lists have no repetition and do not list the id of the
    entry itself. *)
Theorem edge_lists_are_sets (docs : list scip.Document) (repoID projectRoot : string)
    (t : rst.RST rst.Symbol) (path id : string) (sym : rst.Symbol) :
  builtRST docs repoID projectRoot = Ok t →
  entry t path id = Some sym →
  rst.Symbol_ sym = id ∧
  NoDup (rst.DependenceOn sym) ∧ NoDup (rst.ReferenceBy sym) ∧
  (id ∉ rst.DependenceOn sym) ∧ (id ∉ rst.ReferenceBy sym).
Proof.
  intros Ht He.
  destruct (builtRST_entry _ _ _ _ _ _ _ Ht He) as (b & d & p & Hrun & Hd & Hp & Hsym).
  destruct (runBuilder_more _ _ _ Hrun) as (Hix & Hkeyed & _ & Hnodup & _).
  destruct (Hkeyed path d id p Hd Hp) as [_ (sym' & Hsym' & Hid)].
  rewrite Hsym in Hsym'. injection Hsym' as <-.
  destruct (Hnodup p sym Hsym) as [? ?].
  assert (∀ s o, scopeUse docs s o → s ≠ o) as Hdistinct.
  { intros s o (doc & occ & otherOcc & _ & _ & _ & Hin & <- & <-).
    unfold inScope in Hin. apply andb_true_iff in Hin as [_ Hin].
    destruct (o_EnclosingRange occ) as [|? [|? [|? ?]]]; try done.
    apply andb_true_iff in Hin as [Hne _]. apply negb_true_iff, String.eqb_neq in Hne.
    congruence. }
  assert (∀ s, symbolIndex b !! s = Some p → s = id) as Hown.
  { intros s (sym' & Hsym' & <- & _)%Hix. congruence. }
  split; [done|]. split; [done|]. split; [done|]. split.
  - intros Hin. assert (dependsOn (heap b) p id) as Hdep by (by exists sym).
    apply (runBuilder_dependsOn docs projectRoot b p id Hrun) in Hdep as (s & Hs & Huse & _).
    apply Hown in Hs as ->. by apply Hdistinct in Huse.
  - intros Hin. assert (referencedBy (heap b) p id) as Href by (by exists sym).
    apply (runBuilder_referencedBy docs projectRoot b p id Hrun) in Href as (o & Ho & Huse).
    apply Hown in Ho as ->. by apply Hdistinct in Huse.
Qed.

(** The table has a document for a path exactly when an input document has
    that path; it is filed under its own path and holds an entry for exactly
    the non-local ids that the last input document of that path declares.  An
    earlier document of the same path is replaced. *)
Theorem table_documents (docs : list scip.Document) (repoID projectRoot : string)
    (t : rst.RST rst.Symbol) (path : string) :
  builtRST docs repoID projectRoot = Ok t →
  match lastWithPath docs path with
  | Some doc =>
      ∃ d, rst.Documents t !! path = Some d ∧ rst.RelativePath d = path ∧
           ∀ id, is_Some (rst.Symbols d !! id) ↔ id ∈ declaredIds doc
  | None => rst.Documents t !! path = None
  end.
Proof.
  unfold builtRST. destruct (buildRST docs repoID projectRoot) as [[r h]|q] eqn:Hb; [|done].
  simpl. intros [= <-]. apply buildRST_Ok in Hb as (b & Hrun & Hdocs & Hheap). simpl in *.
  destruct (runBuilder_more _ _ _ Hrun) as (_ & Hkeyed & Hof & _).
  specialize (Hof path). unfold rst.deref. simpl. rewrite lookup_fmap, Hdocs.
  destruct (lastWithPath docs path) as [doc|]; [|by rewrite Hof].
  destruct Hof as (d & Hd & Hpath & Hdom). rewrite Hd. simpl. eexists.
  split; [done|]. simpl. split; [done|].
  intros id. rewrite <- Hdom, lookup_omap. split.
  - intros [sym Hs]. destruct (rst.Symbols d !! id); [by eexists|done].
  - intros [p Hp]. rewrite Hp. simpl.
    destruct (Hkeyed path d id p Hd Hp) as [_ (sym & Hsym & _)].
    rewrite Hheap, Hsym. by eexists.
Qed.

End BuilderMore.

Lemma table_has_no_local_id_witness :
  ∃ t sym,
    @builtRST scipBindings noFiles [Examples.docMain] "m" "" = Ok t ∧
    entry t "main.go" Examples.idB = Some sym ∧
    @IsLocalSymbol scipBindings Examples.idB = false ∧
    (∀ x, x ∈ rst.DependenceOn sym ∨ x ∈ rst.ReferenceBy sym →
          @IsLocalSymbol scipBindings x = false).
Proof.
  eexists _, _. split; [vm_compute; reflexivity|]. split; [vm_compute; reflexivity|].
  eapply (@table_has_no_local_id scipBindings noFiles [Examples.docMain] "m" "" _
            "main.go" Examples.idB);
    vm_compute; reflexivity.
Defined.

Lemma edge_lists_are_sets_witness :
  ∃ t sym,
    @builtRST scipBindings noFiles [Examples.docMain] "m" "" = Ok t ∧
    entry t "main.go" Examples.idB = Some sym ∧
    rst.Symbol_ sym = Examples.idB ∧
    NoDup (rst.DependenceOn sym) ∧ NoDup (rst.ReferenceBy sym) ∧
    (Examples.idB ∉ rst.DependenceOn sym) ∧ (Examples.idB ∉ rst.ReferenceBy sym).
Proof.
  eexists _, _. split; [vm_compute; reflexivity|]. split; [vm_compute; reflexivity|].
  eapply (@edge_lists_are_sets scipBindings noFiles [Examples.docMain] "m" "" _
            "main.go" Examples.idB);
    vm_compute; reflexivity.
Defined.

Lemma table_documents_witness :
  ∃ t,
    @builtRST scipBindings noFiles [Examples.docLib; Examples.docMain] "m" "" = Ok t ∧
    (∃ d, rst.Documents t !! "main.go" = Some d ∧ rst.RelativePath d = "main.go" ∧
          ∀ id, is_Some (rst.Symbols d !! id) ↔
                id ∈ @declaredIds scipBindings Examples.docMain) ∧
    rst.Documents t !! "other.go" = None.
Proof.
  eexists. split; [vm_compute; reflexivity|]. split.
  - apply (@table_documents scipBindings noFiles [Examples.docLib; Examples.docMain]
             "m" "" _ "main.go"). vm_compute; reflexivity.
  - apply (@table_documents scipBindings noFiles [Examples.docLib; Examples.docMain]
             "m" "" _ "other.go"). vm_compute; reflexivity.
Defined.

(** ** The fields of an entry *)
Section EntryFields.
Context `{Bindings} `{Host}.

Lemma sameFields_refl (s : rst.Symbol) : sameFields s s.
Proof. by repeat split. Qed.

Lemma sameFields_trans (s1 s2 s3 : rst.Symbol) :
  sameFields s1 s2 → sameFields s2 s3 → sameFields s1 s3.
Proof.
  unfold sameFields. intros (?&?&?&?&?&?) (?&?&?&?&?&?). repeat split; congruence.
Qed.

Lemma fieldsKept_refl (h : list rst.Symbol) : fieldsKept h h.
Proof. intros p sym0 Hp. exists sym0. split; [done|apply sameFields_refl]. Qed.

Lemma fieldsKept_alter (f : rst.Symbol → rst.Symbol) (q : nat) (h h' : list rst.Symbol) :
  (∀ s, sameFields (f s) s) → fieldsKept h h' → fieldsKept h (alter f q h').
Proof.
  intros Hf Hh p sym0 Hp. destruct (Hh p sym0 Hp) as (sym & Hsym & Hsame).
  destruct (decide (q = p)) as [->|Hne].
  - exists (f sym). rewrite list_lookup_alter_eq, Hsym. split; [done|].
    by apply (sameFields_trans _ sym).
  - exists sym. by rewrite list_lookup_alter_ne.
Qed.

Lemma crossReference_fields (symbolIndex : gmap string rst.ptr) (occ otherOcc : Occurrence)
    (h h' : list rst.Symbol) :
  fieldsKept h h' → fieldsKept h (crossReference symbolIndex occ h' otherOcc).
Proof.
  intros Hh. unfold crossReference, linkSymbols. destruct (inScope occ otherOcc); [|done].
  destruct (symbolIndex !! o_Symbol otherOcc);
    [apply fieldsKept_alter; [by intros s; repeat split|]|];
    destruct (symbolIndex !! o_Symbol occ); try done;
    destruct (negb _); try done; apply fieldsKept_alter; try done;
    by intros s; repeat split.
Qed.

Lemma secondPass_fields (symbolIndex : gmap string rst.ptr) (docs : list scip.Document)
    (h : list rst.Symbol) :
  fieldsKept h (foldl (crossReferenceDocument symbolIndex) h docs).
Proof.
  apply (foldl_preserves (fieldsKept h)); [|apply fieldsKept_refl].
  intros h1 doc. unfold crossReferenceDocument. apply foldl_preserves.
  intros h2 occ. apply foldl_preserves. intros h3 otherOcc. apply crossReference_fields.
Qed.

Lemma lastDeclaring_snoc (seen : list SymbolInformation) (sym : SymbolInformation)
    (id : string) :
  lastDeclaring (seen ++ [sym]) id =
    if decide (si_Symbol sym = id) then Some sym else lastDeclaring seen id.
Proof.
  unfold lastDeclaring. rewrite filter_app, filter_cons, filter_nil.
  destruct (decide (si_Symbol sym = id)).
  - apply last_snoc.
  - by rewrite app_nil_r.
Qed.

Lemma declareSymbols_made (occIndex : gmap string occInfo) (doc : scip.Document)
    (projectRoot : string) (b : builder) (syms : list SymbolInformation)
    (st : gmap string rst.ptr * builder) :
  foldlM (declareSymbol occIndex doc projectRoot) (∅, b) syms = Ok st →
  ∀ id p, st.1 !! id = Some p →
    IsLocalSymbol id = false ∧
    ∃ si sym0, lastDeclaring syms id = Some si ∧
               newSymbol occIndex doc projectRoot si = Ok sym0 ∧
               heap st.2 !! p = Some sym0.
Proof.
  apply (foldlM_invariant
           (λ seen (st : gmap string rst.ptr * builder),
              ∀ id p, st.1 !! id = Some p →
                IsLocalSymbol id = false ∧
                ∃ si sym0, lastDeclaring seen id = Some si ∧
                           newSymbol occIndex doc projectRoot si = Ok sym0 ∧
                           heap st.2 !! p = Some sym0)).
  - intros id p. simpl. by rewrite lookup_empty.
  - intros seen sym [syms1 b1] st2 Hinv. unfold declareSymbol.
    destruct (IsLocalSymbol (si_Symbol sym)) eqn:Hlocal.
    + intros [= <-] id p Hp. destruct (Hinv id p Hp) as (Hid & si & sym0 & Hlast & Hnew & Hh).
      split; [done|]. exists si, sym0. rewrite lastDeclaring_snoc.
      destruct (decide (si_Symbol sym = id)) as [Heq|_]; [congruence|done].
    + destruct (newSymbol occIndex doc projectRoot sym) as [rstSym|q] eqn:Hnew; [|done].
      simpl. intros [= <-] id p. simpl. rewrite lookup_insert, lastDeclaring_snoc.
      destruct (decide (si_Symbol sym = id)) as [<-|Hne].
      * intros [= <-]. split; [done|]. exists sym, rstSym. split; [done|]. split; [done|].
        apply lookup_snoc_Some. by right.
      * intros Hp. destruct (Hinv id p Hp) as (Hid & si & sym0 & Hlast & Hnew0 & Hh).
        split; [done|]. exists si, sym0. split; [done|]. split; [done|].
        by apply lookup_app_l_Some.
Qed.

Lemma indexDocument_made (projectRoot : string) (seen : list scip.Document)
    (doc : scip.Document) (b b' : builder) :
  firstPassInv seen b ∧ entriesMade projectRoot seen b →
  indexDocument projectRoot b doc = Ok b' →
  firstPassInv (seen ++ [doc]) b' ∧ entriesMade projectRoot (seen ++ [doc]) b'.
Proof.
  intros (Hinv & Hmade) Hstep.
  split; [by apply (indexDocument_step projectRoot seen doc b)|].
  destruct Hinv as (Hix & Hedges & _). revert Hstep. unfold indexDocument.
  destruct (foldlM _ _ _) as [[syms b1]|q] eqn:Hfold; [|done].
  simpl. intros [= <-].
  pose proof (declareSymbols_made _ _ _ _ _ _ Hfold) as Hnew.
  apply declareSymbols_inv in Hfold as (Hsame & Hext & _); [|done..].
  simpl in *. intros path d id p. simpl. rewrite Hsame, lookup_insert, lastWithPath_snoc.
  destruct (decide (d_RelativePath doc = path)) as [_|_].
  - intros [= <-]. simpl. intros Hp.
    destruct (Hnew id p Hp) as (_ & si & sym0 & Hlast & Hmk & Hh).
    exists doc, sym0. split; [done|]. split; [by exists si|done].
  - intros Hd Hp. destruct (Hmade path d id p Hd Hp) as (doc0 & sym0 & ? & ? & Hh).
    exists doc0, sym0. split; [done|]. split; [done|]. by apply Hext.
Qed.

Lemma runBuilder_made (docs : list scip.Document) (projectRoot : string) (b : builder) :
  runBuilder docs projectRoot = Ok b →
  ∀ path d id p,
    documents b !! path = Some d → rst.Symbols d !! id = Some p →
    ∃ doc sym0 sym, lastWithPath docs path = Some doc ∧ madeFrom projectRoot doc id sym0 ∧
                    heap b !! p = Some sym ∧ sameFields sym sym0.
Proof.
  intros (b1 & Hb1 & Hd & Hi & Hh)%runBuilder_Ok.
  assert (firstPassInv docs b1 ∧ entriesMade projectRoot docs b1) as [_ Hmade].
  { revert Hb1. unfold indexDocuments.
    apply (foldlM_invariant (λ seen b, firstPassInv seen b ∧ entriesMade projectRoot seen b)).
    - split.
      + unfold firstPassInv, emptyBuilder. simpl.
        repeat split; intros *; by rewrite ?lookup_empty.
      + intros path d id p. simpl. by rewrite lookup_empty.
    - intros seen doc b2 b3. apply indexDocument_made. }
  intros path d id p. rewrite Hd. intros Hdoc Hp.
  destruct (Hmade path d id p Hdoc Hp) as (doc & sym0 & Hlast & Hmk & Hheap).
  destruct (secondPass_fields (symbolIndex b1) docs (heap b1) p sym0 Hheap)
    as (sym & Hsym & Hsame).
  exists doc, sym0, sym. rewrite Hh. done.
Qed.

(** What [newSymbol] puts into the fields of the object. *)
Lemma newSymbol_fields (occIndex : gmap string occInfo) (doc : scip.Document)
    (projectRoot : string) (si : SymbolInformation) (s : rst.Symbol) :
  newSymbol occIndex doc projectRoot si = Ok s →
  buildSignature si = Ok (rst.Signature s) ∧
  rst.Documentation s = "" ∧
  (rst.Code s ≠ "" →
   projectRoot ≠ "" ∧ d_RelativePath doc ≠ "" ∧ 0 < rst.Line s ∧
   isCodeExtractableKind (rst.Kind s) = true ∧
   treeSitterExtractCode
     (if filepath_IsAbs (d_RelativePath doc) then d_RelativePath doc
      else filepath_Join projectRoot (d_RelativePath doc))
     (rst.Line s) (d_Language doc) = Ok (rst.Code s)).
Proof.
  unfold newSymbol. destruct (buildSignature si) as [signature|p]; [|done]. simpl.
  set (s0 := attachOccurrence occIndex _).
  assert (rst.Signature s0 = signature ∧ rst.Documentation s0 = "" ∧ rst.Code s0 = "")
    as (Hsig & Hdoc & Hcode).
  { subst s0. unfold attachOccurrence. simpl.
    destruct (occIndex !! si_Symbol si) as [info|]; [|done]. simpl.
    by destruct (_ || _). }
  destruct (negb (String.eqb projectRoot "")) eqn:Hroot; simpl;
    [|intros [= <-]; rewrite Hsig; done].
  destruct (rst.Line s0 >? 0) eqn:Hline; simpl; [|intros [= <-]; rewrite Hsig; done].
  destruct (negb (String.eqb (d_RelativePath doc) "")) eqn:Hpath; simpl;
    [|intros [= <-]; rewrite Hsig; done].
  destruct (isCodeExtractableKind (rst.Kind s0)) eqn:Hkind; simpl;
    [|intros [= <-]; rewrite Hsig; done].
  destruct (treeSitterExtractCode _ _ _) as [code|p] eqn:Hx; [|done]. simpl.
  apply negb_true_iff, String.eqb_neq in Hroot, Hpath. apply Z.gtb_lt in Hline.
  destruct (String.eqb_spec code "") as [->|Hne]; simpl; intros [= <-].
  - rewrite Hsig. done.
  - simpl. rewrite Hsig. done.
Qed.

(** The fields of an entry other than its edge lists are the ones the first
    pass gave to the object built for the last declaration of the id in the
    last input document of the path: the second pass changes edge lists
    only, and an earlier declaration of the id in that document, or an
    earlier document of the path, leaves no trace. *)
Theorem entry_made_from_last_declaration
    (docs : list scip.Document) (repoID projectRoot : string) (t : rst.RST rst.Symbol)
    (path id : string) (sym : rst.Symbol) :
  builtRST docs repoID projectRoot = Ok t →
  entry t path id = Some sym →
  ∃ doc si sym0,
    lastWithPath docs path = Some doc ∧ lastDeclaring (d_Symbols doc) id = Some si ∧
    newSymbol (buildOccIndex (d_Occurrences doc)) doc projectRoot si = Ok sym0 ∧
    sameFields sym sym0.
Proof.
  intros Ht He.
  destruct (builtRST_entry _ _ _ _ _ _ _ Ht He) as (b & d & p & Hrun & Hd & Hp & Hsym).
  destruct (runBuilder_made _ _ _ Hrun path d id p Hd Hp)
    as (doc & sym0 & sym' & Hlast & (si & Hsi & Hnew) & Hsym' & Hsame).
  rewrite Hsym in Hsym'. injection Hsym' as <-. by exists doc, si, sym0.
Qed.

(** The documentation of an entry is always empty.  Its line and kind come
    from the first occurrence of its id in its own document that has a range
    (line 0 without one); its code is filled only with a project root, a
    path, a positive line and a kind that denotes a function, and is then
    what the extractor returns for that line of the file. *)
Theorem entry_line_and_code
    (docs : list scip.Document) (repoID projectRoot : string) (t : rst.RST rst.Symbol)
    (path id : string) (sym : rst.Symbol) :
  builtRST docs repoID projectRoot = Ok t →
  entry t path id = Some sym →
  ∃ doc,
    lastWithPath docs path = Some doc ∧
    rst.Documentation sym = "" ∧
    rst.Line sym =
      match buildOccIndex (d_Occurrences doc) !! id with
      | Some info => line info
      | None => 0
      end ∧
    (rst.Code sym ≠ "" →
     projectRoot ≠ "" ∧ path ≠ "" ∧ 0 < rst.Line sym ∧
     isCodeExtractableKind (rst.Kind sym) = true ∧
     treeSitterExtractCode
       (if filepath_IsAbs path then path else filepath_Join projectRoot path)
       (rst.Line sym) (d_Language doc) = Ok (rst.Code sym)).
Proof.
  intros Ht He.
  destruct (builtRST_entry _ _ _ _ _ _ _ Ht He) as (b & d & p & Hrun & Hd & Hp & Hsym).
  destruct (runBuilder_made _ _ _ Hrun path d id p Hd Hp)
    as (doc & sym0 & sym' & Hlast & (si & Hsi & Hnew) & Hsym' & Hsame).
  rewrite Hsym in Hsym'. injection Hsym' as <-.
  destruct Hsame as (_ & Hkind & _ & Hdoc & Hline & Hcode).
  assert (si_Symbol si = id ∧ d_RelativePath doc = path) as [Hid Hpath].
  { split.
    - unfold lastDeclaring in Hsi. apply last_Some in Hsi as [l' Hl'].
      assert (si ∈ filter (λ si, si_Symbol si = id) (d_Symbols doc)) as Hin
        by (rewrite Hl'; apply elem_of_app; right; by left).
      by apply list_elem_of_filter in Hin as [? _].
    - unfold lastWithPath in Hlast. apply last_Some in Hlast as [l' Hl'].
      assert (doc ∈ filter (λ doc, d_RelativePath doc = path) docs) as Hin
        by (rewrite Hl'; apply elem_of_app; right; by left).
      by apply list_elem_of_filter in Hin as [? _]. }
  exists doc. split; [done|].
  pose proof (newSymbol_fields _ _ _ _ _ Hnew) as (_ & Hdoc0 & Hcode0).
  apply newSymbol_Ok in Hnew as (_ & _ & _ & Hocc). rewrite Hid in Hocc.
  rewrite Hdoc, Hline, Hcode, Hkind, <- Hpath. split; [done|]. split; [|done].
  destruct (buildOccIndex (d_Occurrences doc) !! id); by destruct Hocc.
Qed.

End EntryFields.

Lemma entry_made_from_last_declaration_witness :
  ∃ t sym,
    @builtRST scipBindings noFiles [Examples.docLib; Examples.docMain] "m" "" = Ok t ∧
    entry t "main.go" Examples.idB = Some sym ∧
    ∃ doc si sym0,
      lastWithPath [Examples.docLib; Examples.docMain] "main.go" = Some doc ∧
      lastDeclaring (d_Symbols doc) Examples.idB = Some si ∧
      @newSymbol noFiles (@buildOccIndex scipBindings (d_Occurrences doc)) doc "" si
        = Ok sym0 ∧
      sameFields sym sym0.
Proof.
  eexists _, _. split; [vm_compute; reflexivity|]. split; [vm_compute; reflexivity|].
  eapply (@entry_made_from_last_declaration scipBindings noFiles
            [Examples.docLib; Examples.docMain] "m" "" _ "main.go" Examples.idB);
    vm_compute; reflexivity.
Defined.

Lemma entry_line_and_code_witness :
  ∃ t sym,
    @builtRST scipBindings ExtractorExamples.oneFile [CodeExamples.docTs] "m" "/p" = Ok t ∧
    entry t "a.ts" CodeExamples.idClosure = Some sym ∧
    rst.Line sym = 5 ∧ rst.Code sym = "6789ab" ∧
    ∃ doc,
      lastWithPath [CodeExamples.docTs] "a.ts" = Some doc ∧
      rst.Documentation sym = "" ∧
      rst.Line sym =
        match @buildOccIndex scipBindings (d_Occurrences doc) !! CodeExamples.idClosure with
        | Some info => line info
        | None => 0
        end ∧
      (rst.Code sym ≠ "" →
       "/p" ≠ "" ∧ "a.ts" ≠ "" ∧ 0 < rst.Line sym ∧
       isCodeExtractableKind (rst.Kind sym) = true ∧
       @treeSitterExtractCode ExtractorExamples.oneFile
         (if @filepath_IsAbs ExtractorExamples.oneFile "a.ts" then "a.ts"
          else @filepath_Join ExtractorExamples.oneFile "/p" "a.ts")
         (rst.Line sym) (d_Language doc) = Ok (rst.Code sym)).
Proof.
  eexists _, _. split; [vm_compute; reflexivity|]. split; [vm_compute; reflexivity|].
  split; [vm_compute; reflexivity|]. split; [vm_compute; reflexivity|].
  eapply (@entry_line_and_code scipBindings ExtractorExamples.oneFile
            [CodeExamples.docTs] "m" "/p" _ "a.ts" CodeExamples.idClosure);
    vm_compute; reflexivity.
Defined.

(** ** The answers of the queries *)
Section QueryAnswers.
Context `{MapRange}.

Lemma elem_of_mapRange {V : Type} (m : gmap string V) (k : string) (v : V) :
  (k, v) ∈ mapRange m ↔ m !! k = Some v.
Proof. rewrite mapRange_perm. apply elem_of_map_to_list. Qed.

Lemma find_unique {A : Type} (P : A → bool) (l : list A) (a : A) :
  a ∈ l → P a = true → (∀ b, b ∈ l → P b = true → b = a) → find P l = Some a.
Proof.
  intros Hin Ha Huniq. destruct (find P l) as [b|] eqn:Hfind.
  - apply find_some in Hfind as [Hb HPb]. f_equal. apply Huniq; [|done].
    by apply list_elem_of_In.
  - apply list_elem_of_In in Hin. pose proof (find_none _ _ Hfind a Hin). congruence.
Qed.

(** [getSymbolDetails] reports a missing file exactly when the table has no
    document under the path, and a missing symbol exactly when no key of the
    document passes its test.  When one key only passes the test, the answer
    is made of the entry under that key, whatever the order in which the map
    is visited. *)
Theorem getSymbolDetails_answers (r : rst.RST rst.Symbol) (filePath symbolName : string) :
  match rst.Documents r !! filePath with
  | None => getSymbolDetails r filePath symbolName = inl (file_not_found filePath)
  | Some doc =>
      (getSymbolDetails r filePath symbolName = inl (symbol_not_found symbolName) ↔
       ∀ symKey, is_Some (rst.Symbols doc !! symKey) →
                 cliNameMatches (extractSymbolName symKey) symbolName = false) ∧
      (∀ symKey sym,
         rst.Symbols doc !! symKey = Some sym →
         cliNameMatches (extractSymbolName symKey) symbolName = true →
         (∀ k, is_Some (rst.Symbols doc !! k) →
               cliNameMatches (extractSymbolName k) symbolName = true → k = symKey) →
         getSymbolDetails r filePath symbolName = inr (detailsOf filePath symKey sym))
  end.
Proof.
  unfold getSymbolDetails. destruct (rst.Documents r !! filePath) as [doc|]; [|done].
  split; [split|].
  - destruct (find _ _) as [[k s]|] eqn:Hfind; [done|]. intros _ symKey [sym Hsym].
    apply elem_of_mapRange, list_elem_of_In in Hsym.
    apply (find_none _ _ Hfind (symKey, sym) Hsym).
  - intros Hnone. destruct (find _ _) as [[k s]|] eqn:Hfind; [|done].
    apply find_some in Hfind as [Hin Hmatch]. simpl in Hmatch.
    apply list_elem_of_In, elem_of_mapRange in Hin.
    rewrite Hnone in Hmatch by (by eexists). done.
  - intros symKey sym Hsym Hmatch Huniq.
    rewrite (find_unique _ _ (symKey, sym)); [done|by apply elem_of_mapRange|done|].
    intros [k s] Hin Hk. simpl in Hk. apply elem_of_mapRange in Hin.
    assert (k = symKey) as -> by (apply Huniq; [by eexists|done]). congruence.
Qed.

Lemma findSymbol_Some (doc : rst.Document rst.Symbol) (symbolName : string) (line : Z)
    (key : string) (sym : rst.Symbol) :
  findSymbol doc symbolName line = Some (key, sym) →
  rst.Symbols doc !! key = Some sym ∧
  tuiNameMatches (extractSymbolName key) symbolName = true ∧
  (line = 0 ∨ rst.Line sym = line).
Proof.
  unfold findSymbol. intros [Hin Htest]%find_some. simpl in Htest.
  apply list_elem_of_In, elem_of_mapRange in Hin.
  apply andb_true_iff in Htest as [Hname Hline]. split; [done|]. split; [done|].
  apply orb_true_iff in Hline as [?%Z.eqb_eq|?%Z.eqb_eq]; [by left|by right].
Qed.

Lemma findSymbol_None (doc : rst.Document rst.Symbol) (symbolName : string) (line : Z)
    (key : string) (sym : rst.Symbol) :
  findSymbol doc symbolName line = None →
  rst.Symbols doc !! key = Some sym →
  tuiNameMatches (extractSymbolName key) symbolName = true →
  ¬ (line = 0 ∨ rst.Line sym = line).
Proof.
  unfold findSymbol. intros Hnone Hsym Hname Hline.
  apply elem_of_mapRange, list_elem_of_In in Hsym.
  pose proof (find_none _ _ Hnone (key, sym) Hsym) as Htest. simpl in Htest.
  rewrite Hname in Htest. simpl in Htest. apply orb_false_iff in Htest as [H0 Hl].
  apply Z.eqb_neq in H0, Hl. by destruct Hline.
Qed.

Lemma findDocument_Some (docs : list (string * rst.Document rst.Symbol))
    (filePath symbolName : string) (line : Z) (path : string) (sym : rst.Symbol) :
  findDocument docs filePath symbolName line = Some (path, sym) →
  ∃ doc key, (path, doc) ∈ docs ∧ (filePath = "" ∨ path = filePath) ∧
             findSymbol doc symbolName line = Some (key, sym).
Proof.
  induction docs as [|[path0 doc0] docs IH]; simpl; [done|].
  assert (findDocument docs filePath symbolName line = Some (path, sym) →
          ∃ doc key, (path, doc) ∈ (path0, doc0) :: docs ∧
                     (filePath = "" ∨ path = filePath) ∧
                     findSymbol doc symbolName line = Some (key, sym)) as Hrest.
  { intros (doc & key & ? & ? & ?)%IH. exists doc, key. split; [by right|done]. }
  destruct (String.eqb_spec filePath "") as [Hf|Hf]; simpl.
  - destruct (findSymbol doc0 symbolName line) as [[key s]|] eqn:Hfind; [|done].
    intros [= <- <-]. exists doc0, key. split; [by left|]. split; [by left|done].
  - destruct (String.eqb_spec path0 filePath) as [Hp|Hp]; simpl; [|done].
    destruct (findSymbol doc0 symbolName line) as [[key s]|] eqn:Hfind; [|done].
    intros [= <- <-]. exists doc0, key. split; [by left|]. split; [by right|done].
Qed.

Lemma findDocument_None (docs : list (string * rst.Document rst.Symbol))
    (filePath symbolName : string) (line : Z) (path : string)
    (doc : rst.Document rst.Symbol) :
  findDocument docs filePath symbolName line = None →
  (path, doc) ∈ docs → filePath = "" ∨ path = filePath →
  findSymbol doc symbolName line = None.
Proof.
  induction docs as [|[path0 doc0] docs IH]; simpl; [by intros _ ?%elem_of_nil|].
  intros Hnone [[= -> ->]|Hin]%elem_of_cons Hpath.
  - destruct (String.eqb_spec filePath "") as [Hf|Hf]; simpl in Hnone.
    + by destruct (findSymbol doc0 symbolName line) as [[? ?]|].
    + destruct Hpath as [?|<-]; [done|]. rewrite String.eqb_refl in Hnone. simpl in Hnone.
      by destruct (findSymbol doc0 symbolName line) as [[? ?]|].
  - apply IH; [|done..].
    destruct (negb (String.eqb filePath "") && negb (String.eqb path0 filePath)); [done|].
    by destruct (findSymbol doc0 symbolName line) as [[? ?]|].
Qed.

(** What the loader finds, and when it finds nothing. *)
Lemma loadSymbolDetail_found (r : rst.RST rst.Symbol) (filePath symbolName : string)
    (line : Z) :
  match loadSymbolDetail r filePath symbolName line with
  | tui.symbolDetailMsg d =>
      ∃ path key sym, accepts r filePath symbolName line path key sym ∧
                      d = detailOf symbolName path sym
  | tui.errMsg e =>
      e = symbol_not_found symbolName ∧
      ∀ path key sym, ¬ accepts r filePath symbolName line path key sym
  | _ => False
  end.
Proof.
  unfold loadSymbolDetail.
  destruct (findDocument _ _ _ _) as [[foundPath foundSym]|] eqn:Hfind.
  - apply findDocument_Some in Hfind as (doc & key & Hdoc & Hpath & Hsym).
    apply elem_of_mapRange in Hdoc. apply findSymbol_Some in Hsym as (Hsym & Hname & Hline).
    exists foundPath, key, foundSym. split; [|done]. unfold accepts, entry.
    rewrite Hdoc. simpl. done.
  - split; [done|]. intros path key sym (Hentry & Hpath & Hname & Hline).
    unfold entry in Hentry. destruct (rst.Documents r !! path) as [doc|] eqn:Hdoc; [|done].
    simpl in Hentry. apply elem_of_mapRange in Hdoc.
    pose proof (findDocument_None _ _ _ _ _ _ Hfind Hdoc Hpath) as Hnone.
    by apply (findSymbol_None _ _ _ _ _ Hnone Hentry Hname).
Qed.

(** [loadSymbolDetail] answers with a detail or with the error "symbol not
    found", never otherwise.  It reports the error exactly when no entry of
    the table is under a key whose extracted name is the name asked for, or
    that name followed by "()", in the file asked for (in any file, for the
    empty path) and on the line asked for (on any line, for line 0).  A
    detail is made of such an entry; it carries the name asked for, the path
    of the file the entry was found in, and the part of the id the object
    carries up to its last backtick. *)
Theorem loadSymbolDetail_answers (r : rst.RST rst.Symbol) (filePath symbolName : string)
    (line : Z) :
  (loadSymbolDetail r filePath symbolName line = tui.errMsg (symbol_not_found symbolName) ↔
   ∀ path key sym, ¬ accepts r filePath symbolName line path key sym) ∧
  (∀ msg, loadSymbolDetail r filePath symbolName line = msg →
     msg = tui.errMsg (symbol_not_found symbolName) ∨
     ∃ path key sym, accepts r filePath symbolName line path key sym ∧
                     msg = tui.symbolDetailMsg (detailOf symbolName path sym)).
Proof.
  pose proof (loadSymbolDetail_found r filePath symbolName line) as Hfound.
  destruct (loadSymbolDetail r filePath symbolName line) as [| |d|e]; try done.
  - destruct Hfound as (path & key & sym & Hacc & ->). split.
    + split; [done|]. intros Hnone. by destruct (Hnone path key sym).
    + intros msg <-. right. by exists path, key, sym.
  - destruct Hfound as [-> Hnone]. split; [done|]. intros msg <-. by left.
Qed.

(** Every name that [getSymbolsFromRST] lists for a file is one for which
    [getSymbolDetails] finds a symbol in that file: one whose extracted name
    is the listed name, or ends in a dot and the listed name.  The listing
    has one item for each entry of the file. *)
Theorem listed_name_has_details (r : rst.RST rst.Symbol) (filePath : string)
    (infos : list SymbolInfo) :
  getSymbolsFromRST r filePath = inr infos →
  (∃ doc, rst.Documents r !! filePath = Some doc ∧
          infos ≡ₚ symbolInfoOf <$> map_to_list (rst.Symbols doc)) ∧
  ∀ info, info ∈ infos →
    ∃ d, getSymbolDetails r filePath (sy_Name info) = inr d ∧
         cliNameMatches (sd_Name d) (sy_Name info) = true.
Proof.
  unfold getSymbolsFromRST, getSymbolDetails.
  destruct (rst.Documents r !! filePath) as [doc|]; [|done]. intros [= <-]. split.
  - exists doc. split; [done|]. by rewrite mapRange_perm.
  - intros info ([key sym] & -> & Hin)%list_elem_of_fmap. simpl.
    destruct (find _ _) as [[k s]|] eqn:Hfind.
    + apply find_some in Hfind as [_ Hmatch]. by eexists.
    + apply list_elem_of_In in Hin. pose proof (find_none _ _ Hfind _ Hin) as Hno.
      simpl in Hno. unfold cliNameMatches in Hno. by rewrite String.eqb_refl in Hno.
Qed.

(** A jump asks for the extracted name of an id of an edge list, in any file
    and on any line.  When the table has an entry under that id, the jump
    finds a symbol; it need not be that entry. *)
Theorem jump_target_found (r : rst.RST rst.Symbol) (path id : string) (sym : rst.Symbol) :
  entry r path id = Some sym →
  ∃ path' key sym',
    loadSymbolDetail r "" (extractSymbolName id) 0 =
      tui.symbolDetailMsg (detailOf (extractSymbolName id) path' sym') ∧
    entry r path' key = Some sym' ∧
    tuiNameMatches (extractSymbolName key) (extractSymbolName id) = true.
Proof.
  intros Hentry.
  pose proof (loadSymbolDetail_found r "" (extractSymbolName id) 0) as Hfound.
  destruct (loadSymbolDetail r "" (extractSymbolName id) 0) as [| |d|e]; try done.
  - destruct Hfound as (path' & key & sym' & (He & _ & Hname & _) & ->).
    by exists path', key, sym'.
  - destruct Hfound as [_ Hnone]. destruct (Hnone path id sym).
    split; [done|]. split; [by left|]. split; [|by left].
    unfold tuiNameMatches. by rewrite String.eqb_refl.
Qed.

End QueryAnswers.

Lemma listed_name_has_details_witness :
  ∃ infos,
    @getSymbolsFromRST QueryExamples.rangeInOrder
      (QueryExamples.tableOf QueryExamples.symF) "a.go" = inr infos ∧
    ∀ info, info ∈ infos →
      ∃ d, @getSymbolDetails QueryExamples.rangeInOrder
             (QueryExamples.tableOf QueryExamples.symF) "a.go" (sy_Name info) = inr d ∧
           cliNameMatches (sd_Name d) (sy_Name info) = true.
Proof.
  eexists. split; [vm_compute; reflexivity|].
  eapply (@listed_name_has_details QueryExamples.rangeInOrder
            (QueryExamples.tableOf QueryExamples.symF) "a.go").
  vm_compute; reflexivity.
Defined.

Lemma jump_target_found_witness :
  entry (QueryExamples.tableOf QueryExamples.symF) "a.go" QueryExamples.idF
    = Some QueryExamples.symF ∧
  ∃ path' key sym',
    @loadSymbolDetail QueryExamples.rangeInOrder (QueryExamples.tableOf QueryExamples.symF)
      "" (extractSymbolName QueryExamples.idF) 0 =
      tui.symbolDetailMsg (detailOf (extractSymbolName QueryExamples.idF) path' sym') ∧
    entry (QueryExamples.tableOf QueryExamples.symF) path' key = Some sym' ∧
    tuiNameMatches (extractSymbolName key) (extractSymbolName QueryExamples.idF) = true.
Proof.
  split; [vm_compute; reflexivity|].
  apply (@jump_target_found QueryExamples.rangeInOrder
           (QueryExamples.tableOf QueryExamples.symF) "a.go" QueryExamples.idF
           QueryExamples.symF).
  vm_compute; reflexivity.
Defined.

(** ** Detail mode of the browser *)
Section DetailMode.
Import tui browser.
Context `{Bubbles}.

Lemma jumpToSymbol_keeps (m m1 : model) (name : string) (cmd : option Cmd) :
  jumpToSymbol m name = Ok (m1, cmd) →
  m_mode m1 = m_mode m ∧ m_repos m1 = m_repos m ∧ m_files m1 = m_files m ∧
  m_symbols m1 = m_symbols m ∧ m_rstPath m1 = m_rstPath m.
Proof.
  unfold jumpToSymbol. destruct (m_symbol m); simpl;
    (destruct (asRepoItem _) as [repo|p]; [|done]); simpl; by intros [= <- <-].
Qed.

Lemma scrollList_keeps (m : model) (delta : Z) :
  m_mode (scrollList m delta) = m_mode m ∧ m_repos (scrollList m delta) = m_repos m ∧
  m_files (scrollList m delta) = m_files m ∧ m_symbols (scrollList m delta) = m_symbols m ∧
  m_rstPath (scrollList m delta) = m_rstPath m.
Proof. unfold scrollList. by destruct (m_active m =? 1), (m_active m =? 2). Qed.

(** Detail mode is left on the keys "q" and "esc", and on "h" when the jump
    stack is empty, and on nothing else.  Leaving clears the detail and the
    stack, puts the focus on the symbols column and starts no command.  No
    message changes the three lists of the panes or the index directory, so
    the panes are found as they were left. *)
Theorem detail_mode_exit (m m' : model) (msg : Msg) (cmd : option Cmd) :
  updateSymbolMode m msg = Ok (m', cmd) →
  let leaves :=
    msg = KeyMsg "q" ∨ msg = KeyMsg "esc" ∨ (msg = KeyMsg "h" ∧ m_symbolStack m = []) in
  (leaves →
   m_mode m' = modeThreePane ∧ m_symbol m' = None ∧ m_symbolStack m' = [] ∧
   m_active m' = 2 ∧ cmd = None) ∧
  (¬ leaves → m_mode m' = m_mode m) ∧
  m_repos m' = m_repos m ∧ m_files m' = m_files m ∧ m_symbols m' = m_symbols m ∧
  m_rstPath m' = m_rstPath m.
Proof.
  intros Hupd leaves. subst leaves.
  destruct msg as [w h|key|d|e]; simpl in Hupd;
    try (injection Hupd as <- <-; simpl; split; [by intros [?|[?|[? _]]]|done]).
  destruct (String.eqb_spec key "q") as [->|Hq].
  { injection Hupd as <- <-. simpl. split; [done|]. split; [|done].
    intros Hn. destruct Hn. by left. }
  destruct (String.eqb_spec key "esc") as [->|Hesc].
  { injection Hupd as <- <-. simpl. split; [done|]. split; [|done].
    intros Hn. destruct Hn. right. by left. }
  simpl in Hupd.
  destruct (String.eqb_spec key "h") as [->|Hh].
  { destruct (last (m_symbolStack m)) as [prev|] eqn:Hlast; injection Hupd as <- <-; simpl.
    - split; [|done]. intros [?|[?|[_ Hnil]]]; [done..|]. by rewrite Hnil in Hlast.
    - apply last_None in Hlast. split; [done|]. split; [|done].
      intros Hn. destruct Hn. right. right. done. }
  assert (¬ (KeyMsg key = KeyMsg "q" ∨ KeyMsg key = KeyMsg "esc" ∨
             KeyMsg key = KeyMsg "h" ∧ m_symbolStack m = [])) as Hstay.
  { intros [[= ?]|[[= ?]|[[= ?] _]]]; done. }
  assert (m_mode m' = m_mode m ∧ m_repos m' = m_repos m ∧ m_files m' = m_files m ∧
          m_symbols m' = m_symbols m ∧ m_rstPath m' = m_rstPath m) as (? & ? & ? & ? & ?);
    [|done].
  revert Hupd.
  repeat match goal with
         | |- context [String.eqb key ?s] => destruct (String.eqb key s); simpl
         | |- context [m_active m =? ?n] => destruct (m_active m =? n); simpl
         | |- context [0 <? ?n] => destruct (0 <? n); simpl
         end;
    try (by intros [= <- <-]);
    try (intros [= <- <-]; apply scrollList_keeps);
    (destruct (asRefItem _) as [item|p]; [|done]); simpl; apply jumpToSymbol_keeps.
Qed.

(** [scrollList] on a pane with a list that is not empty selects the index
    moved by [delta] and brought back into the list: never below 0, never
    past the last item.  Nothing but that list is changed. *)
Theorem scrollList_selects_in_range (m : model) (delta : Z) :
  m_active m = 1 ∨ m_active m = 2 →
  let l := if m_active m =? 1 then m_deps m else m_refs m in
  let n := Z.of_nat (length (list_Items l)) in
  n ≠ 0 →
  ∃ l', (l' = l ∨ l' = list_SetSize (list_Width l) (list_Height l) l) ∧
        let i := Z.max 0 (Z.min (list_Index l + delta) (n - 1)) in
        0 ≤ i < n ∧
        scrollList m delta =
          (if m_active m =? 1 then set_deps else set_refs) (list_Select i l') m.
Proof.
  intros Hactive l n Hn.
  assert (∀ l0 : list_Model,
            Z.of_nat (length (list_Items l0)) ≠ 0 →
            let n0 := Z.of_nat (length (list_Items l0)) in
            let i := Z.max 0 (Z.min (list_Index l0 + delta) (n0 - 1)) in
            (if list_Index l0 + delta <? 0 then 0
             else if n0 <=? list_Index l0 + delta then n0 - 1
                  else list_Index l0 + delta) = i ∧ 0 ≤ i < n0) as Hclamp.
  { intros l0 Hl0 n0 i. subst i n0.
    destruct (Z.ltb_spec (list_Index l0 + delta) 0);
      [|destruct (Z.leb_spec (Z.of_nat (length (list_Items l0))) (list_Index l0 + delta))];
      lia. }
  destruct (Hclamp l Hn) as [Heq Hrange]. fold n in Heq, Hrange.
  set (i := Z.max 0 (Z.min (list_Index l + delta) (n - 1))) in *.
  assert (∃ l', (l' = l ∨ l' = list_SetSize (list_Width l) (list_Height l) l) ∧
                (if i <=? list_Height l ÷ 2
                 then list_SetSize (list_Width l) (list_Height l) l
                 else if n - list_Height l ÷ 2 <=? i
                      then list_SetSize (list_Width l) (list_Height l) l
                      else l) = l') as (l' & Hl' & Hsize).
  { destruct (i <=? _); [eexists; split; [by right|done]|].
    destruct (_ <=? i); eexists; split; try done; [by right|by left]. }
  exists l'. split; [done|]. split; [done|].
  unfold scrollList. subst l n.
  destruct Hactive as [Ha|Ha]; rewrite Ha in *; simpl in *.
  - apply Z.eqb_neq in Hn. rewrite Hn, Heq. fold i. by rewrite Hsize.
  - apply Z.eqb_neq in Hn. rewrite Hn, Heq. fold i. by rewrite Hsize.
Qed.

End DetailMode.

Lemma detail_mode_exit_witness :
  ∃ m',
    @browser.updateSymbolMode BrowserExamples.plainWidgets BrowserExamples.showingF
      (tui.KeyMsg "h") = Ok (m', None) ∧
    browser.m_mode m' = browser.modeThreePane ∧ browser.m_symbol m' = None ∧
    browser.m_symbolStack m' = [] ∧ browser.m_active m' = 2.
Proof.
  eexists. split; [vm_compute; reflexivity|].
  destruct (@detail_mode_exit BrowserExamples.plainWidgets BrowserExamples.showingF _
              (tui.KeyMsg "h") None ltac:(vm_compute; reflexivity))
    as [Hleave _].
  destruct Hleave as (? & ? & ? & ? & _); [right; right; split; reflexivity|done].
Defined.

Lemma scrollList_selects_in_range_witness :
  ∃ l',
    @browser.scrollList BrowserExamples.plainWidgets BrowserExamples.showingF 1 =
      browser.set_deps (@browser.list_Select BrowserExamples.plainWidgets 0 l')
        BrowserExamples.showingF.
Proof.
  destruct (@scrollList_selects_in_range BrowserExamples.plainWidgets
              BrowserExamples.showingF 1 (or_introl eq_refl)
              ltac:(vm_compute; discriminate))
    as (l' & _ & _ & Hscroll).
  exists l'. exact Hscroll.
Defined.

(** ** Edges and language groups *)
Section GroupEdges.
Context `{Bindings} `{Host}.

(** The table of a language group takes its edges from the documents of that
    group only: an id is in [dependence_on] of an entry only if a document
    filed under the same language key holds a scope of the entry's id that
    uses it, and in [reference_by] only if such a document holds a scope of
    that id that uses the entry's id.  A use in a document of another
    language leaves no edge. *)
Theorem edges_stay_in_language_group (indexDocs : list scip.Document) (lang : string)
    (docs : list scip.Document) (repoID projectRoot fileName : string)
    (t : rst.RST rst.ptr * list rst.Symbol) (path id : string) (sym : rst.Symbol) :
  groupByLanguage indexDocs !! lang = Some docs →
  processLanguage repoID projectRoot lang docs = Ok (fileName, t) →
  entry (rst.deref t.2 t.1) path id = Some sym →
  let group := filter (λ doc, groupKey doc = lang) indexDocs in
  (∀ x, x ∈ rst.DependenceOn sym → scopeUse group id x) ∧
  (∀ x, x ∈ rst.ReferenceBy sym → scopeUse group x id).
Proof.
  rewrite groupByLanguage_lookup. intros Hgroup Hproc He group.
  assert (docs = group) as ->.
  { subst group. destruct (filter _ indexDocs); [done|]. by injection Hgroup as <-. }
  assert (builtRST group repoID projectRoot = Ok (rst.deref t.2 t.1)) as Ht.
  { unfold builtRST. unfold processLanguage in Hproc.
    destruct (buildRST group repoID projectRoot) as [t0|q]; [|done].
    simpl in Hproc. by injection Hproc as _ <-. }
  destruct (builtRST_entry _ _ _ _ _ _ _ Ht He) as (b & d & p & Hrun & Hd & Hp & Hsym).
  destruct (runBuilder_more _ _ _ Hrun) as (Hix & Hkeyed & _).
  destruct (Hkeyed path d id p Hd Hp) as [_ (sym' & Hsym' & Hid)].
  rewrite Hsym in Hsym'. injection Hsym' as <-.
  assert (∀ s, symbolIndex b !! s = Some p → s = id) as Hown.
  { intros s (sym' & Hsym' & <- & _)%Hix. congruence. }
  split.
  - intros x Hx. assert (dependsOn (heap b) p x) as Hdep by (by exists sym).
    apply (runBuilder_dependsOn group projectRoot b p x Hrun) in Hdep as (s & Hs & Huse & _).
    by apply Hown in Hs as ->.
  - intros x Hx. assert (referencedBy (heap b) p x) as Href by (by exists sym).
    apply (runBuilder_referencedBy group projectRoot b p x Hrun) in Href as (o & Ho & Huse).
    by apply Hown in Ho as ->.
Qed.

End GroupEdges.

Lemma edges_stay_in_language_group_witness :
  ∃ t sym,
    groupByLanguage [Examples.docMain; CodeExamples.docTs] !! "go" = Some [Examples.docMain] ∧
    @processLanguage scipBindings noFiles "m" "" "go" [Examples.docMain]
      = Ok ("m.go.rst", t) ∧
    entry (rst.deref t.2 t.1) "main.go" Examples.idB = Some sym ∧
    (∀ x, x ∈ rst.DependenceOn sym →
          @scopeUse scipBindings
            (filter (λ doc, groupKey doc = "go") [Examples.docMain; CodeExamples.docTs])
            Examples.idB x) ∧
    (∀ x, x ∈ rst.ReferenceBy sym →
          @scopeUse scipBindings
            (filter (λ doc, groupKey doc = "go") [Examples.docMain; CodeExamples.docTs])
            x Examples.idB).
Proof.
  eexists _, _. split; [vm_compute; reflexivity|]. split; [vm_compute; reflexivity|].
  split; [vm_compute; reflexivity|].
  eapply (@edges_stay_in_language_group scipBindings noFiles
            [Examples.docMain; CodeExamples.docTs] "go" [Examples.docMain] "m" ""
            "m.go.rst" _ "main.go" Examples.idB);
    vm_compute; reflexivity.
Defined.

(** ** The lists of the browser *)
Section StringOrder.

Lemma ascii_compare_Lt (a b : ascii) :
  Ascii.compare a b = Lt ↔ (N_of_ascii a < N_of_ascii b)%N.
Proof. unfold Ascii.compare. by rewrite N.compare_lt_iff. Qed.

Lemma ascii_compare_Eq (a b : ascii) : Ascii.compare a b = Eq ↔ a = b.
Proof.
  split; [apply Ascii.compare_eq_iff|]. intros ->. unfold Ascii.compare.
  apply N.compare_refl.
Qed.

Lemma ascii_compare_Gt (a b : ascii) :
  Ascii.compare a b = Gt ↔ (N_of_ascii b < N_of_ascii a)%N.
Proof. unfold Ascii.compare. by rewrite N.compare_gt_iff. Qed.

(** Go's [<] on strings is asymmetric and negatively transitive, and two
    strings neither of which is less than the other are equal. *)
Lemma string_compare_neg_trans (a b c : string) :
  String.compare a c = Lt → String.compare a b = Lt ∨ String.compare b c = Lt.
Proof.
  revert b c. induction a as [|x a IH]; intros [|y b] [|z c]; simpl; try done; auto.
  destruct (Ascii.compare x z) eqn:Hxz; [|intros _|done].
  - apply ascii_compare_Eq in Hxz as <-.
    destruct (Ascii.compare x y) eqn:Hxy; [|by left|].
    + rewrite Ascii.compare_antisym, Hxy. simpl. apply IH.
    + intros _. right. rewrite Ascii.compare_antisym, Hxy. done.
  - destruct (Ascii.compare x y) eqn:Hxy; [|by left|].
    + apply ascii_compare_Eq in Hxy as <-. rewrite Hxz. by right.
    + right. pose proof (proj1 (ascii_compare_Lt _ _) Hxz).
      pose proof (proj1 (ascii_compare_Gt _ _) Hxy).
      assert (Ascii.compare y z = Lt) as -> by (apply ascii_compare_Lt; lia). done.
Qed.

Lemma string_ltb_asym (a b : string) : String.ltb a b = true → String.ltb b a = false.
Proof.
  unfold String.ltb. rewrite (String.compare_antisym b a).
  by destruct (String.compare a b).
Qed.

Lemma string_ltb_neg_trans (a b c : string) :
  String.ltb a c = true → String.ltb a b = true ∨ String.ltb b c = true.
Proof.
  unfold String.ltb. pose proof (string_compare_neg_trans a b c) as Hneg.
  destruct (String.compare a c); try done. intros _.
  destruct (Hneg eq_refl) as [->| ->]; auto.
Qed.

Lemma string_ltb_total (a b : string) :
  String.ltb a b = false → String.ltb b a = false → a = b.
Proof.
  unfold String.ltb. rewrite (String.compare_antisym b a).
  destruct (String.compare a b) eqn:E; try done. intros _ _.
  by apply String.compare_eq_iff.
Qed.

End StringOrder.

Section BrowserLists.
Import browser.

Lemma loadFiles_listed `{MapRange} `{SortSlice} (r : rst.RST rst.Symbol) (item : Item) :
  item ∈ loadFiles r ↔ ∃ path, item = fileItem path ∧ is_Some (rst.Documents r !! path).
Proof.
  unfold loadFiles. rewrite sortSlice_perm, list_elem_of_fmap. split.
  - intros ([path doc] & -> & Hin). apply elem_of_mapRange in Hin.
    exists path. split; [done|by eexists].
  - intros (path & -> & [doc Hdoc]). exists (path, doc). split; [done|].
    by apply elem_of_mapRange.
Qed.

Lemma loadFiles_sorted `{MapRange} `{SortSlice} (r : rst.RST rst.Symbol) :
  StronglySorted (λ a b, lessByName b a = false) (loadFiles r).
Proof.
  apply sortSlice_sorted.
  - intros [] []; simpl; try done. intros _ _. apply string_ltb_asym.
  - intros a b c _ ([path doc] & -> & _)%list_elem_of_fmap _.
    destruct a, c; simpl; try done. apply string_ltb_neg_trans.
Qed.

(** The file list of the browser does not depend on the order in which the
    map of documents is visited, nor on how the sort orders equal items: it
    is the paths of the documents of the table, each once, in ascending
    order of their bytes. *)
Theorem loadFiles_consistent_order (range1 range2 : MapRange) (sort1 sort2 : SortSlice)
    (r : rst.RST rst.Symbol) :
  @loadFiles range1 sort1 r = @loadFiles range2 sort2 r ∧
  NoDup (@loadFiles range1 sort1 r) ∧
  StronglySorted (λ a b, lessByName b a = false) (@loadFiles range1 sort1 r) ∧
  ∀ item, item ∈ @loadFiles range1 sort1 r ↔
          ∃ path, item = fileItem path ∧ is_Some (rst.Documents r !! path).
Proof.
  split; [|split; [|split; [apply loadFiles_sorted|]]].
  - apply (StronglySorted_unique_strong (λ a b, lessByName b a = false)).
    + intros x1 x2 (p1 & -> & _)%loadFiles_listed (p2 & -> & _)%loadFiles_listed.
      simpl. intros H1 H2. f_equal. by apply string_ltb_total.
    + apply loadFiles_sorted.
    + apply loadFiles_sorted.
    + unfold loadFiles. rewrite !sortSlice_perm, !mapRange_perm. done.
  - unfold loadFiles. rewrite sortSlice_perm, mapRange_perm.
    apply (NoDup_fmap_2_strong fileItemOf).
    + intros [p1 d1] [p2 d2] Hin1 Hin2 [= ->].
      apply elem_of_map_to_list in Hin1, Hin2. congruence.
    + apply NoDup_map_to_list.
  - apply loadFiles_listed.
Qed.

(** The symbol list of a file has one item for each entry of the file, in
    ascending order of line.  The detail loader, asked for a listed item by
    its name and line in that file, finds a symbol: an entry of that file
    (of any file, if the path is empty) under a key with the extracted name
    of the item or that name followed by "()", and on the line of the item
    unless that line is 0. *)
Theorem listed_symbol_opens `{MapRange} `{SortSlice} (r : rst.RST rst.Symbol)
    (filePath : string) (items : list Item) :
  loadSymbols r filePath = inr items →
  (∃ doc, rst.Documents r !! filePath = Some doc ∧
          items ≡ₚ symbolItemOf <$> map_to_list (rst.Symbols doc)) ∧
  StronglySorted (λ a b, lessByLine b a = false) items ∧
  ∀ name signature line, symbolItem name signature line ∈ items →
    ∃ path key sym,
      loadSymbolDetail r filePath name line = tui.symbolDetailMsg (detailOf name path sym) ∧
      accepts r filePath name line path key sym.
Proof.
  unfold loadSymbols. destruct (rst.Documents r !! filePath) as [doc|] eqn:Hdoc; [|done].
  intros [= <-]. split; [|split].
  - exists doc. split; [done|]. by rewrite sortSlice_perm, mapRange_perm.
  - apply sortSlice_sorted.
    + intros [] []; simpl; try done. intros _ _ ?%Z.ltb_lt. apply Z.ltb_ge. lia.
    + intros a b c _ ([key sym] & -> & _)%list_elem_of_fmap _.
      destruct a, c; simpl; try done. rewrite !Z.ltb_lt. lia.
  - intros name signature line. rewrite sortSlice_perm.
    intros ([key sym] & [= -> -> ->] & Hin%elem_of_mapRange)%list_elem_of_fmap.
    pose proof (loadSymbolDetail_found r filePath (extractSymbolName key) (rst.Line sym))
      as Hfound.
    destruct (loadSymbolDetail r filePath _ _) as [| |d|e]; try done.
    + destruct Hfound as (path & key' & sym' & Hacc & ->). by exists path, key', sym'.
    + destruct Hfound as [_ Hnone]. destruct (Hnone filePath key sym).
      split; [by unfold entry; rewrite Hdoc|]. split; [by right|]. split; [|by right].
      unfold tuiNameMatches. by rewrite String.eqb_refl.
Qed.

End BrowserLists.

Lemma listed_symbol_opens_witness :
  ∃ items,
    @loadSymbols QueryExamples.rangeInOrder SortExamples.sortByInsertion
      (QueryExamples.tableOf QueryExamples.symF) "a.go" = inr items ∧
    browser.symbolItem "F" "" 42 ∈ items ∧
    ∀ name signature line, browser.symbolItem name signature line ∈ items →
      ∃ path key sym,
        @loadSymbolDetail QueryExamples.rangeInOrder
          (QueryExamples.tableOf QueryExamples.symF) "a.go" name line
          = tui.symbolDetailMsg (detailOf name path sym) ∧
        accepts (QueryExamples.tableOf QueryExamples.symF) "a.go" name line path key sym.
Proof.
  eexists. split; [vm_compute; reflexivity|]. split; [by left|].
  eapply (@listed_symbol_opens QueryExamples.rangeInOrder SortExamples.sortByInsertion
            (QueryExamples.tableOf QueryExamples.symF) "a.go").
  vm_compute; reflexivity.
Defined.

(** ** When the builder returns *)
Section BuilderReturns.
Context `{Bindings} `{Host}.

(** A loop whose body fails or not by the element alone runs to its end
    exactly when the body succeeds on every element. *)
Lemma foldlM_Ok_iff {A B : Type} (f : A → B → result A) (P : B → Prop) (l : list B) (a : A) :
  (∀ a0 x, x ∈ l → (∃ a1, f a0 x = Ok a1) ↔ P x) →
  (∃ a', foldlM f a l = Ok a') ↔ Forall P l.
Proof.
  revert a. induction l as [|x l IH]; intros a Hf; simpl.
  - split; [constructor|by eexists].
  - assert (∀ a0 y, y ∈ l → (∃ a1, f a0 y = Ok a1) ↔ P y) as Hf'
      by (intros a0 y Hy; apply Hf; by right).
    rewrite Forall_cons, <- (Hf a x) by (by left). split.
    + intros [a' Hfold]. destruct (f a x) as [a1|p] eqn:E; [|done]. simpl in Hfold.
      split; [by eexists|]. apply (IH a1 Hf'). by eexists.
    + intros [[a1 E] Hl]. rewrite E. simpl. by apply (IH a1 Hf').
Qed.

Lemma indexDocument_Ok_iff (projectRoot : string) (b : builder) (doc : scip.Document) :
  (∃ b', indexDocument projectRoot b doc = Ok b') ↔
  Forall (λ si, IsLocalSymbol (si_Symbol si) = false →
                ∃ s, newSymbol (buildOccIndex (d_Occurrences doc)) doc projectRoot si = Ok s)
         (d_Symbols doc).
Proof.
  rewrite <- (foldlM_Ok_iff (declareSymbol (buildOccIndex (d_Occurrences doc)) doc projectRoot)
                _ (d_Symbols doc) (∅, b)).
  - unfold indexDocument. split.
    + intros [b' Hb']. destruct (foldlM _ _ _) as [st|p]; [by eexists|done].
    + intros [[syms b1] ->]. simpl. by eexists.
  - intros [syms b1] si _. unfold declareSymbol.
    destruct (IsLocalSymbol (si_Symbol si)).
    + split; [done|]. intros _. by eexists.
    + destruct (newSymbol _ _ _ _) as [s|p]; simpl.
      * split; [intros _ _; by eexists|intros _; by eexists].
      * split; [by intros [? ?]|]. intros Hs. by destruct (Hs eq_refl).
Qed.

Lemma newSymbol_without_root (occIndex : gmap string occInfo) (doc : scip.Document)
    (si : SymbolInformation) :
  (∃ s, newSymbol occIndex doc "" si = Ok s) ↔ ∃ signature, buildSignature si = Ok signature.
Proof.
  unfold newSymbol. destruct (buildSignature si) as [signature|p]; simpl.
  - split; intros _; by eexists.
  - split; by intros [? ?].
Qed.

(** [buildRST] returns exactly when it is given a document and an object
    can be built for every declaration of a non-local id; otherwise it
    panics.  Without a project root no file is read, and an object can be
    built exactly when [buildSignature] returns. *)
Theorem buildRST_returns_iff (docs : list scip.Document) (repoID projectRoot : string) :
  ((∃ t, buildRST docs repoID projectRoot = Ok t) ↔
   docs ≠ [] ∧ declarationsBuilt docs projectRoot) ∧
  (projectRoot = "" →
   (∃ t, buildRST docs repoID projectRoot = Ok t) ↔ docs ≠ [] ∧ signaturesBuilt docs).
Proof.
  assert ((∃ t, buildRST docs repoID projectRoot = Ok t) ↔
          docs ≠ [] ∧ declarationsBuilt docs projectRoot) as Hiff.
  { assert ((∃ b, indexDocuments docs projectRoot = Ok b) ↔
            declarationsBuilt docs projectRoot) as Hindex.
    { unfold indexDocuments.
      rewrite (foldlM_Ok_iff (indexDocument projectRoot)
                 (λ doc, Forall (λ si, IsLocalSymbol (si_Symbol si) = false →
                                       ∃ s, newSymbol (buildOccIndex (d_Occurrences doc)) doc
                                              projectRoot si = Ok s)
                                (d_Symbols doc)));
        [|intros b doc _; apply indexDocument_Ok_iff].
      unfold declarationsBuilt. rewrite Forall_forall. split.
      - intros Hall doc si Hdoc Hsi. specialize (Hall doc Hdoc).
        rewrite Forall_forall in Hall. by apply Hall.
      - intros Hall doc Hdoc. rewrite Forall_forall. intros si Hsi. by apply Hall. }
    rewrite <- Hindex. unfold buildRST, runBuilder. destruct docs as [|doc0 docs].
    - split; [by intros [? ?]|by intros [? _]].
    - split.
      + intros [t Ht]. split; [done|].
        destruct (indexDocuments _ _) as [b|p]; [by eexists|done].
      + intros [_ [b ->]]. simpl. by eexists. }
  split; [done|]. intros ->. rewrite Hiff. unfold declarationsBuilt, signaturesBuilt.
  split; intros [Hne Hall]; (split; [done|]); intros doc si Hdoc Hsi Hlocal;
    apply (newSymbol_without_root (buildOccIndex (d_Occurrences doc)) doc si);
    by apply (Hall doc si).
Qed.

End BuilderReturns.

(** ** The reply to a jump *)
Section JumpReply.
Import tui browser.
Context `{Bubbles}.

(** A jump starts a load and stays in detail mode, and detail mode has no
    case for the reply of a load: whether the reply is the detail of the
    target or an error, the browser goes on showing the symbol the jump
    started from, which the jump has pushed on the stack. *)
Theorem jump_reply_is_dropped (m m1 : model) (key : string) (cmd : Cmd) (X : symbolDetail)
    (reply : Msg) :
  m_symbol m = Some X →
  updateSymbolMode m (KeyMsg key) = Ok (m1, Some cmd) →
  (∃ d, reply = symbolDetailMsg d) ∨ (∃ e, reply = errMsg e) →
  updateSymbolMode m1 reply = Ok (m1, None) ∧
  m_symbol m1 = Some X ∧ m_mode m1 = m_mode m ∧
  m_symbolStack m1 = m_symbolStack m ++ [toJump X] ∧
  ∃ repo name, cmd = loadSymbolDetailCmd (m_rstPath m) repo "" name 0.
Proof.
  intros HX Hkey Hreply.
  apply updateSymbolMode_jump in Hkey as [name Hjump].
  destruct (jumpToSymbol_Ok m m1 name (Some cmd) X HX Hjump)
    as (Hstack & Hsym & Hmode & repo & [= ->]).
  split; [by destruct Hreply as [[d ->]|[e ->]]|].
  do 3 (split; [done|]). by exists repo, name.
Qed.

End JumpReply.

Lemma jump_reply_is_dropped_witness :
  ∃ m1 cmd,
    browser.m_symbol BrowserExamples.showingF = Some BrowserExamples.detailF ∧
    @browser.updateSymbolMode BrowserExamples.plainWidgets BrowserExamples.showingF
      (tui.KeyMsg "enter") = Ok (m1, Some cmd) ∧
    @browser.updateSymbolMode BrowserExamples.plainWidgets m1
      (tui.errMsg (symbol_not_found "G")) = Ok (m1, None) ∧
    browser.m_symbol m1 = Some BrowserExamples.detailF.
Proof.
  eexists _, _. split; [reflexivity|]. split; [vm_compute; reflexivity|].
  destruct (@jump_reply_is_dropped BrowserExamples.plainWidgets BrowserExamples.showingF
              _ "enter" _ BrowserExamples.detailF (tui.errMsg (symbol_not_found "G"))
              eq_refl ltac:(vm_compute; reflexivity)
              (or_intror (ex_intro _ (symbol_not_found "G") eq_refl)))
    as (Hdrop & Hsym & _).
  split; [exact Hdrop|exact Hsym].
Defined.

(** ** Symmetry of the edges *)
Section Symmetry.
Context `{Bindings} `{Host}.

Lemma declaredAfter_snoc (seen : list scip.Document) (doc : scip.Document)
    (path id : string) :
  declaredAfter (seen ++ [doc]) path id =
    if String.eqb (d_RelativePath doc) path then false
    else declaredAfter seen path id || existsb (String.eqb id) (declaredIds doc).
Proof. unfold declaredAfter. by rewrite foldl_snoc. Qed.

Lemma indexDocument_current (projectRoot : string) (seen : list scip.Document)
    (doc : scip.Document) (b b' : builder) :
  firstPassInv seen b ∧ entriesCurrent seen b →
  indexDocument projectRoot b doc = Ok b' →
  firstPassInv (seen ++ [doc]) b' ∧ entriesCurrent (seen ++ [doc]) b'.
Proof.
  intros (Hinv & Hcur) Hstep.
  split; [by apply (indexDocument_step projectRoot seen doc b)|].
  destruct Hinv as (Hix & Hedges & _). revert Hstep. unfold indexDocument.
  destruct (foldlM _ _ _) as [[syms b1]|q] eqn:Hfold; [|done].
  simpl. intros [= <-].
  apply declareSymbols_inv in Hfold as (Hsame & _ & Hkeep & _ & _ & Hsyms); [|done..].
  simpl in *. intros path d id p. simpl. rewrite Hsame, lookup_insert, declaredAfter_snoc.
  destruct (decide (d_RelativePath doc = path)) as [Heq|Hne].
  - intros [= <-]. simpl. intros Hp. left. by apply Hsyms.
  - apply String.eqb_neq in Hne as ->. intros Hd Hp.
    destruct (Hcur path d id p Hd Hp) as [Hidx| ->]; [|by right].
    destruct (existsb (String.eqb id) (declaredIds doc)) eqn:Hdecl;
      [right; apply orb_true_r|].
    left. rewrite Hkeep; [done|]. intros Hin.
    assert (existsb (String.eqb id) (declaredIds doc) = true) as Hex; [|congruence].
    apply existsb_exists. exists id. split; [by apply list_elem_of_In|].
    apply String.eqb_refl.
Qed.

(** When the builder returns, an entry whose id no later document declares
    again is the object of the index. *)
Lemma runBuilder_entries_current (docs : list scip.Document) (projectRoot : string)
    (b : builder) (path id : string) (d : rst.Document rst.ptr) (p : rst.ptr) :
  runBuilder docs projectRoot = Ok b →
  declaredAfter docs path id = false →
  documents b !! path = Some d → rst.Symbols d !! id = Some p →
  symbolIndex b !! id = Some p.
Proof.
  intros (b1 & Hb1 & -> & -> & _)%runBuilder_Ok Hlast Hd Hp.
  assert (firstPassInv docs b1 ∧ entriesCurrent docs b1) as [_ Hcur].
  { revert Hb1. unfold indexDocuments.
    apply (foldlM_invariant (λ seen b, firstPassInv seen b ∧ entriesCurrent seen b)).
    - split.
      + unfold firstPassInv, emptyBuilder. simpl.
        repeat split; intros *; by rewrite ?lookup_empty.
      + intros path' d' id' p'. simpl. by rewrite lookup_empty.
    - intros seen doc b2 b3. apply indexDocument_current. }
  destruct (Hcur path d id p Hd Hp) as [?|Hafter]; [done|congruence].
Qed.

(** C1 (amended).  In a table the builder returns, take two symbol entries A
    and B, each in a document after which no document of another path
    declares its id again (a later document of the same path replaces the
    whole document).  Then the id of A is in [dependence_on] of B exactly
    when the id of B is in [reference_by] of A.  Other ids of the group may be
    declared any number of times. *)
Theorem dependence_reference_symmetry
    (docs : list scip.Document) (repoID projectRoot : string) (t : rst.RST rst.Symbol)
    (pathA a pathB b : string) (symA symB : rst.Symbol) :
  builtRST docs repoID projectRoot = Ok t →
  declaredAfter docs pathA a = false →
  declaredAfter docs pathB b = false →
  entry t pathA a = Some symA →
  entry t pathB b = Some symB →
  a ∈ rst.DependenceOn symB ↔ b ∈ rst.ReferenceBy symA.
Proof.
  intros Ht HlastA HlastB HA HB.
  destruct (builtRST_entry _ _ _ _ _ _ _ Ht HA) as (st & dA & pa & Hrun & HdA & Hpa & HsymA).
  destruct (builtRST_entry _ _ _ _ _ _ _ Ht HB) as (st' & dB & pb & Hrun' & HdB & Hpb & HsymB).
  rewrite Hrun in Hrun'. injection Hrun' as <-.
  pose proof (runBuilder_entries_current _ _ _ _ _ _ _ Hrun HlastA HdA Hpa) as Hia.
  pose proof (runBuilder_entries_current _ _ _ _ _ _ _ Hrun HlastB HdB Hpb) as Hib.
  pose proof (runBuilder_dependsOn docs projectRoot st pb a Hrun) as Hdep.
  pose proof (runBuilder_referencedBy docs projectRoot st pa b Hrun) as Href.
  unfold dependsOn in Hdep. unfold referencedBy in Href. split.
  - intros Hin.
    destruct (proj1 Hdep (ex_intro _ symB (conj HsymB Hin))) as (s & Hs & Huse & _).
    destruct (runBuilder_index_inj _ _ _ _ _ _ Hrun Hs Hib) as [-> _].
    destruct (proj2 Href (ex_intro _ a (conj Hia Huse))) as (sym & Hsym & Hr).
    rewrite HsymA in Hsym. by injection Hsym as <-.
  - intros Hin.
    destruct (proj1 Href (ex_intro _ symA (conj HsymA Hin))) as (o & Ho & Huse).
    destruct (runBuilder_index_inj _ _ _ _ _ _ Hrun Ho Hia) as [-> Hloc].
    destruct (proj2 Hdep (ex_intro _ b (conj Hib (conj Huse Hloc)))) as (sym & Hsym & Hd).
    rewrite HsymB in Hsym. by injection Hsym as <-.
Qed.

End Symmetry.

(** The symmetry theorem in the group of the counterexample, where [lib.go]
    and [main.go] both declare [A]: for the entries of [A] and [B] in
    [main.go] the edge is on both sides. *)
Lemma dependence_reference_symmetry_witness :
  ∃ t symA symB,
    @builtRST scipBindings noFiles [Examples.docLib; Examples.docMain] "m" "" = Ok t ∧
    @declaredApart scipBindings [Examples.docLib; Examples.docMain] = false ∧
    @declaredAfter scipBindings [Examples.docLib; Examples.docMain] "main.go" Examples.idA
      = false ∧
    @declaredAfter scipBindings [Examples.docLib; Examples.docMain] "main.go" Examples.idB
      = false ∧
    @declaredAfter scipBindings [Examples.docLib; Examples.docMain] "lib.go" Examples.idA
      = true ∧
    entry t "main.go" Examples.idA = Some symA ∧
    entry t "main.go" Examples.idB = Some symB ∧
    Examples.idA ∈ rst.DependenceOn symB ∧ Examples.idB ∈ rst.ReferenceBy symA ∧
    (Examples.idA ∈ rst.DependenceOn symB ↔ Examples.idB ∈ rst.ReferenceBy symA).
Proof.
  eexists _, _, _. split; [vm_compute; reflexivity|].
  do 4 (split; [vm_compute; reflexivity|]).
  split; [vm_compute; reflexivity|]. split; [vm_compute; reflexivity|].
  split; [by apply list_elem_of_singleton|]. split; [by apply list_elem_of_singleton|].
  eapply (@dependence_reference_symmetry scipBindings noFiles
            [Examples.docLib; Examples.docMain] "m" "" _
            "main.go" Examples.idA "main.go" Examples.idB);
    vm_compute; reflexivity.
Defined.

(** ** The match the extractor returns *)
Section ExtractorSelection.
Import Strings StringFacts.







End ExtractorSelection.


(** ** The lookup of the readers in the output directory *)
Section FileLookup.
Import Strings StringFacts.



Lemma plainName_outputFileName (repoID lang : string) :
  ContainsByte lang "/" = false → plainName (outputFileName repoID lang) = true.
Proof.
  intros Hlang. unfold plainName, outputFileName.
  rewrite !ContainsByte_app, Hlang.
  rewrite sanitizeRepoID_free by (intros d; apply writerByte_plain).
  replace (sanitizeRepoID repoID +:+ "." +:+ lang +:+ ".rst")
    with ((sanitizeRepoID repoID +:+ "." +:+ lang) +:+ ".rst")
    by (by rewrite !app_assoc).
  by rewrite HasSuffix_app.
Qed.



End FileLookup.

(** ** The lookup under a [filepath.Join] that cleans *)
Section CleaningJoin.
Import Strings StringFacts.




End CleaningJoin.


(** ** The files of the language groups *)
Section GroupFiles.
Import Strings StringFacts.

(** The names [parseMain] gives to the files of two language groups of one
    repository are equal only for equal language keys.  The paths it writes
    to are the names joined to the output directory: they are equal only for
    equal keys when neither key holds a path separator and [filepath.Join]
    keeps plain names apart.  Nothing is said of keys with a separator. *)
Theorem outputFileName_lang_inj (repoID lang1 lang2 : string) :
  (outputFileName repoID lang1 = outputFileName repoID lang2 ↔ lang1 = lang2) ∧
  (∀ (host : Host) (outputDir : string),
     keepsPlainNames outputDir →
     ContainsByte lang1 "/" = false → ContainsByte lang2 "/" = false →
     filepath_Join outputDir (outputFileName repoID lang1) =
       filepath_Join outputDir (outputFileName repoID lang2) →
     lang1 = lang2).
Proof.
  split.
  - split; [apply outputFileName_inj|by intros ->].
  - intros host outputDir Hjoin H1 H2 Heq. apply (outputFileName_inj repoID).
    apply Hjoin; [by apply plainName_outputFileName..|done].
Qed.

End GroupFiles.
